(** * The domino puzzle solver of [puzzle_gen.cpp]

    A shallow embedding of the constraint evaluator, the cell selector, the
    backtracking search, [test_puzzle] and [exclude_dominoes], and of the
    rest of the generator: the combinations, the tile sets, the command
    line, the four searches with their workers, and the cells of the
    printed grid.  The properties follow, first those of the specification,
    then more of the program.

    Conventions of the embedding.
    - [int] is [Z].  The running total of [get_region_sum] and the counter
      [total_attempts] wrap around at 32 bits, as they do in the compiled
      program ([wrap_int]); the properties that speak about sums say in
      which range they hold.  [INT_MAX] and the conversion to [size_t]
      (64 bits) are written out where the source uses them.
    - [std::map<Cell,int>] is [gmap Cell Z]; a [std::set] used for
      membership, insertion and size only ([filled_cells], [used_dominoes],
      [seen_signatures]) is a [gset]; [all_cells], which the source iterates
      in key order, is the strictly increasing list of its elements.
    - [region_by_id[k]] holds a pointer: a missing key gives the null pointer,
      whose dereference is undefined.  Such runs have result [Undefined].
    - The recursion of [backtrack] is bounded by fuel; [OutOfFuel] is a
      result of its own and is shown never to come out of [solve]. *)

From Stdlib Require Import ZArith Lia Ascii String.
From stdpp Require Import base decidable option list countable gmap fin_sets fin_maps sorting.

Local Open Scope Z_scope.

(** ** Data model *)

Record Domino := mkDomino { low : Z; high : Z }.

Definition pips (d : Domino) : Z := low d + high d.

(** [Domino::operator==] *)
Definition domino_eqb (a b : Domino) : bool :=
  (low a =? low b) && (high a =? high b).

(** [Domino::operator<], the order of [std::set<Domino>] *)
Definition domino_ltb (a b : Domino) : bool :=
  if negb (low a =? low b) then low a <? low b else high a <? high b.

#[global] Instance Domino_eq_dec : EqDecision Domino.
Proof. solve_decision. Defined.

#[global] Instance Domino_countable : Countable Domino :=
  inj_countable' (λ d, (low d, high d)) (λ p, mkDomino p.1 p.2)
    (λ d, match d with mkDomino _ _ => eq_refl end).

Abbreviation Cell := (Z * Z)%type.

(** the order of [std::pair<int,int>], hence of [std::set<Cell>] *)
Definition cell_ltb (a b : Cell) : bool :=
  (a.1 <? b.1) || ((a.1 =? b.1) && (a.2 <? b.2)).

Definition cell_lt (a b : Cell) : Prop := a.1 < b.1 ∨ (a.1 = b.1 ∧ a.2 < b.2).

Inductive ConstraintType := SUM | EQUAL | LESS | GREATER.

#[global] Instance ConstraintType_eq_dec : EqDecision ConstraintType.
Proof. solve_decision. Defined.

Record Region := mkRegion {
  id : Z;
  cells : list Cell;
  type : ConstraintType;
  target_value : Z;
  linked_region_id : Z
}.

#[global] Instance Region_eq_dec : EqDecision Region.
Proof. solve_decision. Defined.

Record PlacedDomino := mkPlaced {
  domino : Domino;
  row : Z;
  col : Z;
  horizontal : bool
}.

Definition cell1 (p : PlacedDomino) : Cell := (row p, col p).
Definition cell2 (p : PlacedDomino) : Cell :=
  if horizontal p then (row p, col p + 1) else (row p + 1, col p).

Record SolverState := mkState {
  placed : list PlacedDomino;
  used_dominoes : gset Domino;
  filled_cells : gset Cell;
  cell_values : gmap Cell Z
}.

(** [SolverState initial;] *)
Definition initial : SolverState := mkState [] ∅ ∅ ∅.

(** ** Machine constants *)

Definition INT_MAX : Z := 2147483647.
Definition INT_MIN : Z := -2147483648.

(** an [int] after an addition that may leave the range: the value modulo
    2^32 that lies between [INT_MIN] and [INT_MAX] *)
Definition wrap_int (n : Z) : Z := (n + 2 ^ 31) mod 2 ^ 32 - 2 ^ 31.

(** the cast [(size_t)n] of an [int] *)
Definition to_size_t (n : Z) : Z := n mod 2 ^ 64.

(** ** Results of partial code *)

Inductive result (A : Type) : Type :=
  | Ok (a : A)
  | Undefined
  | OutOfFuel.
Arguments Ok {A} a.
Arguments Undefined {A}.
Arguments OutOfFuel {A}.

Definition rbind {A B} (r : result A) (k : A → result B) : result B :=
  match r with
  | Ok a => k a
  | Undefined => Undefined
  | OutOfFuel => OutOfFuel
  end.

Notation "x ←r e ; k" := (rbind e (λ x, k))
  (at level 20, e at level 100, k at level 200, only parsing).

Definition of_option {A} (o : option A) : result A :=
  match o with Some a => Ok a | None => Undefined end.

(** ** [std::set<Cell>] with its iteration order *)

Fixpoint oset_insert (c : Cell) (s : list Cell) : list Cell :=
  match s with
  | [] => [c]
  | x :: s' =>
      if cell_ltb c x then c :: s
      else if cell_ltb x c then x :: oset_insert c s'
      else s
  end.

(** ** The solver object *)

Record Solver := mkSolver {
  dominoes : list Domino;
  regions : list Region;
  rows : Z;
  cols : Z;
  max_solutions : Z;
  cell_to_region : gmap Cell Z;
  region_by_id : gmap Z Region;
  all_cells : list Cell
}.

(** The members [solutions] and [seen_signatures], the only ones that change
    after construction. *)
Record Search := mkSearch {
  solutions : list SolverState;
  seen_signatures : gset (gmap Cell Z)
}.

(** inner loop of the constructor, over [reg.cells] *)
Definition index_cells (rid : Z) (cs : list Cell)
    (acc : gmap Cell Z * list Cell) : gmap Cell Z * list Cell :=
  foldl (λ a cell, (<[cell := rid]> a.1, oset_insert cell a.2)) acc cs.

(** first loop of the constructor *)
Definition index_regions (regs : list Region)
    : gmap Cell Z * list Cell * gmap Z Region :=
  foldl (λ a reg,
           let mc := index_cells (id reg) (cells reg) (a.1.1, a.1.2) in
           (mc.1, mc.2, <[id reg := reg]> a.2))
        (∅, [], ∅) regs.

(** second loop of the constructor *)
Definition fix_pointers (regs : list Region) (byid : gmap Z Region)
    : gmap Z Region :=
  foldl (λ m reg, <[id reg := reg]> m) byid regs.

(** [Solver::Solver] *)
Definition Solver_new (doms : list Domino) (regs : list Region)
    (r c max_sol : Z) : Solver :=
  let ix := index_regions regs in
  mkSolver doms regs r c max_sol ix.1.1 (fix_pointers regs ix.2) ix.1.2.

(** [cell_to_region[cell]]: [operator[]] yields 0 at a missing key (and
    would insert it); [cell_to_region_present] below shows that every use is
    at a present key. *)
Definition cell_to_region_at (S : Solver) (cell : Cell) : Z :=
  default 0 (cell_to_region S !! cell).

(** [region_by_id[region_id]->cells] *)
Definition region_cells (S : Solver) (region_id : Z) : result (list Cell) :=
  of_option (cells <$> region_by_id S !! region_id).

(** ** Constraint evaluation *)

(** the loop of [get_region_sum]; [total += v] on an [int] *)
Definition sum_cells (cell_values : gmap Cell Z) (cs : list Cell) : Z :=
  foldl (λ total cell,
           match cell_values !! cell with
           | Some v => wrap_int (total + v)
           | None => total
           end) 0 cs.

Definition get_region_sum (S : Solver) (region_id : Z)
    (cell_values : gmap Cell Z) : result Z :=
  cs ←r region_cells S region_id;
  Ok (sum_cells cell_values cs).

Definition values_of (cell_values : gmap Cell Z) (cs : list Cell) : list Z :=
  foldl (λ vals cell,
           match cell_values !! cell with
           | Some v => vals ++ [v]
           | None => vals
           end) [] cs.

Definition get_region_values (S : Solver) (region_id : Z)
    (cell_values : gmap Cell Z) : result (list Z) :=
  cs ←r region_cells S region_id;
  Ok (values_of cell_values cs).

Fixpoint all_filled (filled : gset Cell) (cs : list Cell) : bool :=
  match cs with
  | [] => true
  | cell :: cs' =>
      if bool_decide (cell ∈ filled) then all_filled filled cs' else false
  end.

Definition is_region_complete (S : Solver) (region_id : Z)
    (filled : gset Cell) : result bool :=
  cs ←r region_cells S region_id;
  Ok (all_filled filled cs).

Fixpoint all_same (first : Z) (vals : list Z) : bool :=
  match vals with
  | [] => true
  | v :: vals' => if negb (v =? first) then false else all_same first vals'
  end.

Definition check_constraint (S : Solver) (region : Region)
    (cell_values : gmap Cell Z) (filled : gset Cell) (partial_ok : bool)
    : result bool :=
  complete ←r is_region_complete S (id region) filled;
  match type region with
  | SUM =>
      sum ←r get_region_sum S (id region) cell_values;
      if complete then Ok (sum =? target_value region)
      else Ok (partial_ok && (sum <=? target_value region))
  | EQUAL =>
      vals ←r get_region_values S (id region) cell_values;
      match vals with
      | [] => Ok true
      | first :: _ => Ok (all_same first vals)
      end
  | LESS =>
      if negb complete then Ok partial_ok else
      linked ←r is_region_complete S (linked_region_id region) filled;
      if negb linked then Ok partial_ok else
      my_sum ←r get_region_sum S (id region) cell_values;
      their_sum ←r get_region_sum S (linked_region_id region) cell_values;
      Ok (my_sum <? their_sum)
  | GREATER =>
      if negb complete then Ok partial_ok else
      linked ←r is_region_complete S (linked_region_id region) filled;
      if negb linked then Ok partial_ok else
      my_sum ←r get_region_sum S (id region) cell_values;
      their_sum ←r get_region_sum S (linked_region_id region) cell_values;
      Ok (my_sum >? their_sum)
  end.

(** ** Cell selection *)

Definition get_adjacent (S : Solver) (cell : Cell) : list Cell :=
  let r := cell.1 in
  let c := cell.2 in
  filter (λ n, n ∈ all_cells S) [(r - 1, c); (r + 1, c); (r, c - 1); (r, c + 1)].

(** the counting loop inside [choose_cell] *)
Definition count_unfilled (filled : gset Cell) (cs : list Cell) : Z :=
  foldl (λ unfilled c, if bool_decide (c ∈ filled) then unfilled else unfilled + 1)
        0 cs.

Fixpoint choose_cell_loop (S : Solver) (filled : gset Cell) (todo : list Cell)
    (best : Cell) (min_unfilled : Z) : result Cell :=
  match todo with
  | [] => Ok best
  | cell :: todo' =>
      if bool_decide (cell ∈ filled) then
        choose_cell_loop S filled todo' best min_unfilled
      else
        cs ←r region_cells S (cell_to_region_at S cell);
        let unfilled := count_unfilled filled cs in
        if unfilled <? min_unfilled then
          choose_cell_loop S filled todo' cell unfilled
        else
          choose_cell_loop S filled todo' best min_unfilled
  end.

Definition choose_cell (S : Solver) (state : SolverState) : result Cell :=
  choose_cell_loop S (filled_cells state) (all_cells S) (-1, -1) INT_MAX.

(** ** Backtracking search *)

(** [solutions.size() >= (size_t)max_solutions] *)
Definition cap_reached (S : Solver) (g : Search) : bool :=
  to_size_t (max_solutions S) <=? Z.of_nat (length (solutions g)).

(** the loop over [regions] of the acceptance test, which returns at the
    first region that fails *)
Fixpoint check_all (S : Solver) (regs : list Region) (state : SolverState)
    : result bool :=
  match regs with
  | [] => Ok true
  | region :: regs' =>
      ok ←r check_constraint S region (cell_values state) (filled_cells state) false;
      if ok then check_all S regs' state else Ok false
  end.

(** [if (seen_signatures.insert(state.cell_values).second) solutions.push_back(state);] *)
Definition record_solution (state : SolverState) (g : Search) : Search :=
  if bool_decide (cell_values state ∈ seen_signatures g) then g
  else mkSearch (solutions g ++ [state])
                ({[cell_values state]} ∪ seen_signatures g).

(** [vector<pair<int,int>> orientations] *)
Definition orientations (d : Domino) : list (Z * Z) :=
  (low d, high d) :: (if negb (low d =? high d) then [(high d, low d)] else []).

(** [set<int> affected = {cell_to_region[cell], cell_to_region[adj]}], in the
    order in which the set is iterated *)
Definition affected (S : Solver) (cell adj : Cell) : list Z :=
  let a := cell_to_region_at S cell in
  let b := cell_to_region_at S adj in
  if a =? b then [a] else if a <? b then [a; b] else [b; a].

(** the loop over [affected], which breaks at the first failure *)
Fixpoint check_affected (S : Solver) (rids : list Z)
    (new_values : gmap Cell Z) (new_filled : gset Cell) : result bool :=
  match rids with
  | [] => Ok true
  | rid :: rids' =>
      region ←r of_option (region_by_id S !! rid);
      ok ←r check_constraint S region new_values new_filled true;
      if ok then check_affected S rids' new_values new_filled else Ok false
  end.

Definition new_values_of (state : SolverState) (cell adj : Cell) (o : Z * Z)
    : gmap Cell Z :=
  <[adj := o.2]> (<[cell := o.1]> (cell_values state)).

Definition new_filled_of (state : SolverState) (cell adj : Cell) : gset Cell :=
  {[adj]} ∪ ({[cell]} ∪ filled_cells state).

Definition placement_of (d : Domino) (cell adj : Cell) : PlacedDomino :=
  mkPlaced d (Z.min cell.1 adj.1) (Z.min cell.2 adj.2)
           (bool_decide (cell.1 = adj.1)).

Definition new_state_of (state : SolverState) (d : Domino) (cell adj : Cell)
    (o : Z * Z) : SolverState :=
  mkState (placed state ++ [placement_of d cell adj])
          ({[d]} ∪ used_dominoes state)
          (new_filled_of state cell adj)
          (new_values_of state cell adj o).

(** How an iteration of a loop of [backtrack] ends: it falls through to the
    next iteration, or it returns from [backtrack]. *)
Inductive ctl : Type :=
  | Next (g : Search)
  | Ret (g : Search).

Definition store_of (c : ctl) : Search :=
  match c with Next g => g | Ret g => g end.

Fixpoint for_each {A} (body : A → Search → result ctl) (l : list A) (g : Search)
    : result ctl :=
  match l with
  | [] => Ok (Next g)
  | a :: l' =>
      c ←r body a g;
      match c with
      | Next g' => for_each body l' g'
      | Ret g' => Ok (Ret g')
      end
  end.

Section backtrack_body.
Variable S : Solver.
(** the recursive call *)
Variable rec : SolverState → Search → result Search.
Variable state : SolverState.
Variable cell : Cell.

Definition try_orientation (d : Domino) (adj : Cell) (o : Z * Z) (g : Search)
    : result ctl :=
  valid ←r check_affected S (affected S cell adj)
             (new_values_of state cell adj o) (new_filled_of state cell adj);
  if negb valid then Ok (Next g) else
  g' ←r rec (new_state_of state d cell adj o) g;
  if cap_reached S g' then Ok (Ret g') else Ok (Next g').

Definition try_adjacent (d : Domino) (adj : Cell) (g : Search) : result ctl :=
  if bool_decide (adj ∈ filled_cells state) then Ok (Next g) else
  if negb (bool_decide (is_Some (cell_to_region S !! cell)))
     || negb (bool_decide (is_Some (cell_to_region S !! adj)))
  then Ok (Next g) else
  for_each (try_orientation d adj) (orientations d) g.

Definition try_domino (d : Domino) (g : Search) : result ctl :=
  if bool_decide (d ∈ used_dominoes state) then Ok (Next g) else
  for_each (try_adjacent d) (get_adjacent S cell) g.
End backtrack_body.

Fixpoint backtrack (fuel : nat) (S : Solver) (state : SolverState) (g : Search)
    : result Search :=
  match fuel with
  | O => OutOfFuel
  | Datatypes.S fuel' =>
      if cap_reached S g then Ok g else
      if bool_decide (size (filled_cells state) = length (all_cells S)) then
        ok ←r check_all S (regions S) state;
        if ok then Ok (record_solution state g) else Ok g
      else
        cell ←r choose_cell S state;
        if cell.1 <? 0 then Ok g else
        c ←r for_each (try_domino S (backtrack fuel' S) state cell) (dominoes S) g;
        Ok (store_of c)
  end.

(** Every call of [backtrack] below the first fills a cell of [all_cells]
    that was not filled, so the depth of the recursion is at most the number
    of cells. *)
Definition fuel_of (S : Solver) : nat := Datatypes.S (length (all_cells S)).

(** [Solver::solve]: the returned count and the members left behind *)
Definition solve (S : Solver) : result (Z * Search) :=
  g ←r backtrack (fuel_of S) S initial (mkSearch [] ∅);
  Ok (Z.of_nat (length (solutions g)), g).

(** the count alone *)
Definition count_of (res : result (Z * Search)) : result Z :=
  cg ←r res; Ok cg.1.

(** what a call does to the vector behind a pointer argument *)
Inductive slot_effect : Type :=
  | Untouched
  | Assigned (v : list PlacedDomino).

Definition slot_after (old : list PlacedDomino) (e : slot_effect)
    : list PlacedDomino :=
  match e with
  | Untouched => old
  | Assigned v => v
  end.

(** [test_puzzle].  [solution_out] tells whether the pointer is non-null;
    the second component of the result is the effect on the vector it
    points to. *)
Definition test_puzzle (doms : list Domino) (r c : Z) (regs : list Region)
    (solution_out : bool) : result (Z * slot_effect) :=
  let solver := Solver_new doms regs r c 3 in
  cg ←r solve solver;
  let count := cg.1 in
  if (count =? 1) && solution_out then
    s ←r of_option (solutions cg.2 !! 0%nat);
    Ok (count, Assigned (placed s))
  else Ok (count, Untouched).

(** ** Tier chaining *)

(** the inner loop of [exclude_dominoes]: is [d] equal to a tile of [exclude] *)
Fixpoint found_in (d : Domino) (exclude : list Domino) : bool :=
  match exclude with
  | [] => false
  | e :: exclude' => if domino_eqb d e then true else found_in d exclude'
  end.

Definition exclude_dominoes (pool exclude : list Domino) : list Domino :=
  foldl (λ result d, if negb (found_in d exclude) then result ++ [d] else result)
        [] pool.

(** ** A configuration of the generator

    The regions of [search_easy_2x4_sums]: a 2x4 grid cut into four
    horizontal pairs, an inequality chain over the first three and a sum
    target on the last. *)

Definition tiles_A : list Domino :=
  [mkDomino 0 1; mkDomino 2 3; mkDomino 4 5; mkDomino 6 6].

Definition regions_A (target3 : Z) : list Region :=
  [ mkRegion 0 [(0,0); (0,1)] LESS (-1) 1;
    mkRegion 1 [(0,2); (0,3)] LESS (-1) 2;
    mkRegion 2 [(1,0); (1,1)] LESS (-1) 3;
    mkRegion 3 [(1,2); (1,3)] SUM target3 (-1) ].

Definition solver_A : Solver := Solver_new tiles_A (regions_A 12) 2 4 3.

(** ** The rest of the generator *)

(** The loop of [draw_puzzle_grid] and [print_result] that rebuilds the pip
    of every cell from the placement list: low pip on [cell1], high pip on
    [cell2]. *)
Definition cell_pip_of (solution : list PlacedDomino) : gmap Cell Z :=
  foldl (λ cell_pip p,
           <[cell2 p := high (domino p)]> (<[cell1 p := low (domino p)]> cell_pip))
        ∅ solution.

(** ** Combinations *)

Section combinations.
Context {T : Type}.

(** The loop of [combinations], on the part of [vec] from index [i] on.  An
    iteration pushes [vec[i]], makes the recursive call for index [i+1] (the
    test of the size and, when it fails, this loop again), and pops. *)
Fixpoint combinations_loop (rest : list T) (n : Z) (current : list T)
    (result : list (list T)) : list T * list (list T) :=
  match rest with
  | [] => (current, result)
  | x :: rest' =>
      let current1 := current ++ [x] in
      let cr :=
        if Z.of_nat (length current1) =? n then (current1, result ++ [current1])
        else combinations_loop rest' n current1 result in
      combinations_loop rest' n (removelast cr.1) cr.2
  end.

(** [combinations(vec, n, start, current, result)]: the two vectors passed by
    reference, after the call *)
Definition combinations (vec : list T) (n : Z) (start : nat)
    (current : list T) (result : list (list T)) : list T * list (list T) :=
  if Z.of_nat (length current) =? n then (current, result ++ [current])
  else combinations_loop (drop start vec) n current result.

Definition get_combinations (vec : list T) (n : Z) : list (list T) :=
  (combinations vec n 0 [] []).2.

End combinations.

(** ** The tile sets of [main] *)

(** the double-six set, in the order of the two loops *)
Definition all_d6 : list Domino :=
  i ← seqZ 0 7; j ← seqZ i (7 - i); [mkDomino i j].

(** the tiles of the double-nine set with a pip above 6 *)
Definition d9_remainder : list Domino :=
  i ← seqZ 0 10; j ← seqZ i (10 - i);
  if (7 <=? i) || (7 <=? j) then [mkDomino i j] else [].

(** ** The command line *)

(** [s.find(ch)] on a string, [None] for [npos] *)
Fixpoint string_find (ch : ascii) (s : list ascii) : option nat :=
  match s with
  | [] => None
  | a :: s' => if Ascii.eqb a ch then Some O else Datatypes.S <$> string_find ch s'
  end.

Section parse.
(** [std::stoi]; [None] when it throws.  An exception leaves [parse_domino]
    and [main], which have no handler. *)
Variable stoi : list ascii → option Z.

Definition parse_domino (s : list ascii) : option Domino :=
  match string_find "-" s with
  | None => Some (mkDomino (-1) (-1))
  | Some dash =>
      low ← stoi (take dash s);
      high ← stoi (drop (dash + 1) s);
      Some (if high <? low then mkDomino high low else mkDomino low high)
  end.

(** the loop of [main] over [argv[2]], [argv[3]], ... *)
Definition parse_excluded (args : list (list ascii)) : option (list Domino) :=
  foldl (λ acc arg,
           exclude_list ← acc;
           d ← parse_domino arg;
           Some (if 0 <=? low d then exclude_list ++ [d] else exclude_list))
        (Some []) args.
End parse.

(** ** The four searches *)

Record PuzzleResult := mkPuzzleResult {
  result_dominoes : list Domino;
  result_regions : list Region;
  result_rows : Z;
  result_cols : Z;
  result_name : string;
  result_solution : list PlacedDomino
}.

(** [total], summed over the tiles of a combination *)
Definition total_pips (dominoes : list Domino) : Z :=
  foldl (λ total d, total + pips d) 0 dominoes.

(** [sums] of [search_medium] *)
Definition sums_of (dominoes : list Domino) : list Z :=
  foldl (λ sums d, sums ++ [pips d]) [] dominoes.

(** [std::sort] on a vector of [int]: the sorted rearrangement, which is
    unique *)
Definition sort (sums : list Z) : list Z := merge_sort Z.le sums.

(** the loop that compares [sorted_sums[j]] with [sorted_sums[j-1]] *)
Fixpoint distinct_after (prev : Z) (rest : list Z) : bool :=
  match rest with
  | [] => true
  | x :: rest' => if x =? prev then false else distinct_after x rest'
  end.

Definition distinct (sorted_sums : list Z) : bool :=
  match sorted_sums with
  | [] => true
  | x :: rest => distinct_after x rest
  end.

(** The loop [for (size_t i = thread_id; i < combos.size(); i += 4)]: the
    combinations a worker comes to.  A vector has fewer than 2^64 - 4
    elements, so [i += 4] does not wrap; the loop ends within
    [combos.size()] iterations. *)
Fixpoint stride_loop {T} (fuel : nat) (i : Z) (combos : list T) : list T :=
  match fuel with
  | O => []
  | Datatypes.S fuel' =>
      if i <? Z.of_nat (length combos) then
        match combos !! Z.to_nat i with
        | Some dominoes => dominoes :: stride_loop fuel' (i + 4) combos
        | None => []
        end
      else []
  end.

Definition stride {T} (thread_id : Z) (combos : list T) : list T :=
  stride_loop (Datatypes.S (length combos)) (to_size_t thread_id) combos.

(** the region lists of the searches; [search_easy_2x4_sums] uses
    [regions_A] *)
Definition regions_easy2 (t0 t1 t2 : Z) : list Region :=
  [ mkRegion 0 [(0,0); (0,1); (1,0)] SUM t0 (-1);
    mkRegion 1 [(0,2); (0,3); (1,3)] SUM t1 (-1);
    mkRegion 2 [(1,1); (1,2)] SUM t2 (-1) ].

Definition regions_medium (target5 : Z) : list Region :=
  [ mkRegion 0 [(0,0); (0,1)] LESS (-1) 1;
    mkRegion 1 [(0,2); (0,3)] LESS (-1) 2;
    mkRegion 2 [(1,0); (1,1)] LESS (-1) 3;
    mkRegion 3 [(1,2); (1,3)] LESS (-1) 4;
    mkRegion 4 [(2,0); (2,1)] LESS (-1) 5;
    mkRegion 5 [(2,2); (2,3)] SUM target5 (-1) ].

Definition regions_hard (target3 : Z) : list Region :=
  [ mkRegion 0 [(0,0); (0,1); (1,0); (1,1)] LESS (-1) 1;
    mkRegion 1 [(0,2); (0,3); (1,2); (1,3)] LESS (-1) 2;
    mkRegion 2 [(0,4); (0,5); (1,4); (1,5)] LESS (-1) 3;
    mkRegion 3 [(0,6); (0,7); (1,6); (1,7)] SUM target3 (-1) ].

(** A candidate is what a search passes to [test_puzzle] and, on success,
    stores: tiles, regions, dimensions and name.  Its [result_solution] is
    the empty vector the search declares before the call. *)
Definition candidate (dominoes : list Domino) (regions : list Region)
    (rows cols : Z) (name : string) : PuzzleResult :=
  mkPuzzleResult dominoes regions rows cols name [].

(** The candidates of a worker, in the order in which its loops come to
    them. *)
Definition search_easy_2x4_sums (thread_id : Z) (all_d6 : list Domino)
    : list PuzzleResult :=
  dominoes ← stride thread_id (get_combinations all_d6 4);
  target3 ← seqZ 1 12;
  [candidate dominoes (regions_A target3) 2 4 "Easy1_IneqChain"].

Definition search_easy_3cell_regions (thread_id : Z) (pool : list Domino)
    : list PuzzleResult :=
  dominoes ← stride thread_id (get_combinations pool 4);
  let total := total_pips dominoes in
  t0 ← seqZ 0 (total + 1);
  t1 ← seqZ 0 (total - t0 + 1);
  let t2 := total - t0 - t1 in
  [candidate dominoes (regions_easy2 t0 t1 t2) 2 4 "Easy2_ForcedSpan"].

(** [sorted_sums.back()] is undefined on an empty vector; a combination of
    six tiles has six sums. *)
Definition search_medium (thread_id : Z) (all_d6 : list Domino)
    : list PuzzleResult :=
  dominoes ← stride thread_id (get_combinations all_d6 6);
  let sorted_sums := sort (sums_of dominoes) in
  if distinct sorted_sums then
    match last sorted_sums with
    | Some max_sum =>
        target5 ← seqZ max_sum 3;
        [candidate dominoes (regions_medium target5) 3 4 "Medium_InequalityChain"]
    | None => []
    end
  else [].

Definition search_hard (thread_id : Z) (d9_remainder unused_d6 : list Domino)
    : list PuzzleResult :=
  dominoes ← stride thread_id (get_combinations d9_remainder 8);
  let total := total_pips dominoes in
  target3 ← seqZ 1 (total - 1);
  [candidate dominoes (regions_hard target3) 2 8 "Hard_D9Remainder"].

(** *** The workers of a tier

    A worker goes through its candidates.  Before each one it loads the
    flag of the tier and returns when the flag is set; otherwise it counts
    the attempt and calls [test_puzzle].  On a count of 1 it takes
    [result_mutex], and if the flag is still clear sets it and stores the
    candidate with the solution; then it returns.

    The flag is an [atomic<bool>] and the result is written under the mutex
    only and read by [main] after the workers are joined, so the program has
    no data race and its runs are interleavings of the steps below.  The
    critical section is one step: all that another worker does with the
    shared state while it runs is to load the flag, which the section sets
    before anything else.  The load at the head of the outer loop and the
    one at the head of the inner loop are one step, as nothing happens
    between them.  Output is not modelled. *)

Record Shared := mkShared {
  found : bool;
  stored : option PuzzleResult;
  total_attempts : Z
}.

Inductive Worker : Type :=
  | AtLoad (todo : list PuzzleResult)
  | AtTest (c : PuzzleResult) (todo : list PuzzleResult)
  | Returned.

(** the call of [test_puzzle] for a candidate *)
Definition test (c : PuzzleResult) : result (Z * slot_effect) :=
  test_puzzle (result_dominoes c) (result_rows c) (result_cols c)
    (result_regions c) true.

(** the [PuzzleResult] a worker stores *)
Definition with_solution (c : PuzzleResult) (solution : list PlacedDomino)
    : PuzzleResult :=
  mkPuzzleResult (result_dominoes c) (result_regions c) (result_rows c)
    (result_cols c) (result_name c) solution.

(** one step of a worker *)
Definition worker_step (σ : Shared) (w : Worker) : result (Shared * Worker) :=
  match w with
  | Returned => Ok (σ, Returned)
  | AtLoad [] => Ok (σ, Returned)
  | AtLoad (c :: todo) =>
      if found σ then Ok (σ, Returned)
      else (* [total_attempts++] on an [atomic<int>] wraps around *)
           Ok (mkShared (found σ) (stored σ) (wrap_int (total_attempts σ + 1)),
               AtTest c todo)
  | AtTest c todo =>
      ce ←r test c;
      if ce.1 =? 1 then
        let solution := slot_after (result_solution c) ce.2 in
        let σ' :=
          if found σ then σ
          else mkShared true (Some (with_solution c solution)) (total_attempts σ) in
        Ok (σ', Returned)
      else Ok (σ, AtLoad todo)
  end.

(** A tier: the shared state and its workers.  A schedule names the worker
    that takes the next step. *)
Definition Tier : Type := Shared * list Worker.

Definition tier_step (i : nat) (t : Tier) : result Tier :=
  match t.2 !! i with
  | None => Ok t
  | Some w =>
      σw ←r worker_step t.1 w;
      Ok (σw.1, <[i := σw.2]> t.2)
  end.

Fixpoint run (schedule : list nat) (t : Tier) : result Tier :=
  match schedule with
  | [] => Ok t
  | i :: schedule' => t' ←r tier_step i t; run schedule' t'
  end.

(** [main] starts the four workers of a tier on a clear flag and an empty
    result *)
Definition start (attempts : Z) (search : Z → list PuzzleResult) : Tier :=
  (mkShared false None attempts, AtLoad <$> (search <$> [0; 1; 2; 3])).

(** the workers have all returned: [join] comes back *)
Definition joined (t : Tier) : bool :=
  forallb (λ w, match w with Returned => true | _ => false end) t.2.

(** the pool of the second tier and the list [unused_d6] of the last *)
Definition remaining_d6 (earlier : option PuzzleResult)
    (exclude_list : list Domino) : list Domino :=
  match earlier with
  | Some r => exclude_dominoes all_d6 (result_dominoes r)
  | None =>
      match exclude_list with
      | [] => all_d6
      | _ => exclude_dominoes all_d6 exclude_list
      end
  end.

(** the searches as [main] starts them, given what the first and the third
    tier have stored *)
Definition main_tiers (easy1_result medium_result : option PuzzleResult)
    (exclude_list : list Domino) : list (Z → list PuzzleResult) :=
  [ λ thread_id, search_easy_2x4_sums thread_id all_d6;
    λ thread_id, search_easy_3cell_regions thread_id
                   (remaining_d6 easy1_result exclude_list);
    λ thread_id, search_medium thread_id all_d6;
    λ thread_id, search_hard thread_id d9_remainder
                   (remaining_d6 medium_result exclude_list) ].

(** ** The grid of [draw_puzzle_grid] *)

(** the first loop: the region id of every cell *)
Definition cell_region_of (regions : list Region) : gmap Cell Z :=
  foldl (λ cell_region r,
           foldl (λ cell_region c, <[c := id r]> cell_region) cell_region (cells r))
        ∅ regions.

(** a label, before [to_string] *)
Inductive Label : Type :=
  | LabelSum (target_value : Z)
  | LabelLess (linked_region_id : Z)
  | LabelEqual
  | LabelGreater (linked_region_id : Z).

Definition label_of (r : Region) : Label :=
  match type r with
  | SUM => LabelSum (target_value r)
  | LESS => LabelLess (linked_region_id r)
  | EQUAL => LabelEqual
  | GREATER => LabelGreater (linked_region_id r)
  end.

Definition region_label_of (regions : list Region) : gmap Z Label :=
  foldl (λ region_label r, <[id r := label_of r]> region_label) ∅ regions.

(** what a cell of the grid shows *)
Inductive Content : Type :=
  | ShowLabel (l : Label)
  | ShowPip (pip : Z)
  | ShowBlank.

(** the loop over [result.regions[rid].cells] that clears [show_label] *)
Fixpoint show_label_loop (r c : Z) (cs : list Cell) : bool :=
  match cs with
  | [] => true
  | cr :: cs' =>
      if (cr.1 <? r) || ((cr.1 =? r) && (cr.2 <? c)) then false
      else show_label_loop r c cs'
  end.

(** [content] for the cell (r, c).  [cell_region[cell]] is 0 for a cell of
    no region; the entry it adds to the map plays no part in what the
    other cells show.  [result.regions[rid]] is undefined outside the
    vector.  Both outcomes of the tests for thick lines print the same. *)
Definition content (pr : PuzzleResult) (r c : Z) : result Content :=
  let cell_region := cell_region_of (result_regions pr) in
  let cell_pip := cell_pip_of (result_solution pr) in
  let region_label := region_label_of (result_regions pr) in
  let rid := default 0 (cell_region !! (r, c)) in
  reg ←r (if rid <? 0 then Undefined
          else of_option (result_regions pr !! Z.to_nat rid));
  let show_label := show_label_loop r c (cells reg) in
  Ok (match (if show_label then region_label !! rid else None) with
      | Some l => ShowLabel l
      | None =>
          match cell_pip !! (r, c) with
          | Some pip => ShowPip pip
          | None => ShowBlank
          end
      end).

(** * Properties *)

(** ** The orders of the ordered containers

    [std::set] and [std::map] identify two keys when neither is below the
    other.  For [Domino] and [Cell] that is equality, which is why [gset] and
    [gmap] stand for them. *)

Lemma domino_eqb_eq a b : domino_eqb a b = true ↔ a = b.
Proof.
  unfold domino_eqb. destruct a as [la ha], b as [lb hb]; simpl.
  rewrite andb_true_iff, !Z.eqb_eq. split.
  - intros [-> ->]; reflexivity.
  - intros [= -> ->]; auto.
Qed.

Lemma domino_ltb_equiv a b :
  domino_ltb a b = false ∧ domino_ltb b a = false ↔ a = b.
Proof.
  unfold domino_ltb. destruct a as [la ha], b as [lb hb]; simpl. split.
  - destruct (Z.eqb_spec la lb), (Z.eqb_spec lb la); simpl;
      rewrite ?Z.ltb_ge; intros [? ?]; f_equal; lia.
  - intros [= -> ->]. rewrite !Z.eqb_refl; simpl. rewrite !Z.ltb_irrefl. auto.
Qed.

Lemma cell_ltb_lt a b : cell_ltb a b = true ↔ cell_lt a b.
Proof.
  unfold cell_ltb, cell_lt.
  rewrite orb_true_iff, andb_true_iff, !Z.ltb_lt, Z.eqb_eq. reflexivity.
Qed.

Lemma cell_ltb_equiv (a b : Cell) :
  cell_ltb a b = false ∧ cell_ltb b a = false ↔ a = b.
Proof.
  destruct a as [ar ac], b as [br bc]. split.
  - intros [H1 H2].
    assert (¬ cell_lt (ar, ac) (br, bc)) as N1
      by (rewrite <- cell_ltb_lt, H1; discriminate).
    assert (¬ cell_lt (br, bc) (ar, ac)) as N2
      by (rewrite <- cell_ltb_lt, H2; discriminate).
    unfold cell_lt in *; simpl in *. f_equal; lia.
  - intros [= -> ->]. unfold cell_ltb; simpl.
    rewrite !Z.ltb_irrefl, Z.eqb_refl. auto.
Qed.

Lemma cell_lt_trans a b c : cell_lt a b → cell_lt b c → cell_lt a c.
Proof. unfold cell_lt. lia. Qed.

Lemma cell_lt_irrefl a : ¬ cell_lt a a.
Proof. unfold cell_lt. lia. Qed.

(** ** Exclusion filtering *)

Lemma found_in_elem d exclude : found_in d exclude = true ↔ d ∈ exclude.
Proof.
  induction exclude as [|e ex IH]; simpl.
  - split; [discriminate | intros H; inversion H].
  - rewrite elem_of_cons. destruct (domino_eqb d e) eqn:E.
    + apply domino_eqb_eq in E. tauto.
    + rewrite IH. split; [tauto|]. intros [->|?]; [|assumption].
      assert (domino_eqb e e = true) by (apply domino_eqb_eq; reflexivity).
      congruence.
Qed.

Lemma exclude_loop_filter exclude pool acc :
  foldl (λ result d, if negb (found_in d exclude) then result ++ [d] else result)
        acc pool
  = acc ++ filter (λ d, d ∉ exclude) pool.
Proof.
  revert acc. induction pool as [|d pool IH]; intros acc; simpl.
  - rewrite app_nil_r. reflexivity.
  - rewrite IH, filter_cons. destruct (found_in d exclude) eqn:E; simpl.
    + apply found_in_elem in E. rewrite decide_False by tauto. reflexivity.
    + rewrite decide_True.
      * rewrite <- app_assoc. reflexivity.
      * rewrite <- found_in_elem, E. discriminate.
Qed.

(** C8. [exclude_dominoes] is the difference of the pool and the exclusion
    list: it keeps, in the order of the pool, exactly the tiles that are equal
    to no tile of the exclusion list; chained on the four tiles of an earlier
    tier it removes those four tiles and no others. *)
Theorem exclude_dominoes_difference (pool exclude : list Domino) :
  exclude_dominoes pool exclude = filter (λ d, d ∉ exclude) pool
  ∧ (∀ d, d ∈ exclude_dominoes pool exclude ↔ d ∈ pool ∧ d ∉ exclude)
  ∧ (∀ t1 t2 t3 t4 d,
       d ∈ exclude_dominoes pool [t1; t2; t3; t4]
       ↔ d ∈ pool ∧ d ≠ t1 ∧ d ≠ t2 ∧ d ≠ t3 ∧ d ≠ t4).
Proof.
  assert (∀ ex, exclude_dominoes pool ex = filter (λ d, d ∉ ex) pool) as E.
  { intros ex. unfold exclude_dominoes. rewrite exclude_loop_filter. reflexivity. }
  split; [apply E|]. split.
  - intros d. rewrite E, list_elem_of_filter. tauto.
  - intros t1 t2 t3 t4 d. rewrite E, list_elem_of_filter.
    rewrite !not_elem_of_cons. split.
    + intros [(? & ? & ? & ? & _) ?]. auto.
    + intros (? & ? & ? & ? & ?). repeat split; auto. apply not_elem_of_nil.
Qed.

(** ** Constraint evaluation *)

Fixpoint Zsum (l : list Z) : Z :=
  match l with
  | [] => 0
  | x :: l' => x + Zsum l'
  end.

(** the value a cell carries, 0 when it carries none *)
Definition value_at (values : gmap Cell Z) (c : Cell) : Z :=
  default 0 (values !! c).

(** the sum of the values of the member cells *)
Definition member_sum (values : gmap Cell Z) (cs : list Cell) : Z :=
  Zsum (value_at values <$> cs).

(** the sum of the values of the member cells that are filled *)
Definition filled_member_sum (values : gmap Cell Z) (filled : gset Cell)
    (cs : list Cell) : Z :=
  Zsum (value_at values <$> filter (λ c, c ∈ filled) cs).

Definition fully_filled (filled : gset Cell) (cs : list Cell) : Prop :=
  ∀ c, c ∈ cs → c ∈ filled.

(** the region is the one its own id leads to *)
Definition registered (S : Solver) (r : Region) : Prop :=
  region_by_id S !! id r = Some r.

(** the values of [int] *)
Definition in_int (n : Z) : Prop := INT_MIN ≤ n ≤ INT_MAX.

Lemma wrap_int_small n : in_int n → wrap_int n = n.
Proof.
  unfold in_int, INT_MIN, INT_MAX, wrap_int. intros H.
  rewrite Z.mod_small by lia. lia.
Qed.

Lemma wrap_int_range n : in_int (wrap_int n).
Proof.
  unfold in_int, INT_MIN, INT_MAX, wrap_int.
  pose proof (Z.mod_pos_bound (n + 2 ^ 31) (2 ^ 32)). lia.
Qed.

Lemma wrap_int_add n v : wrap_int (wrap_int n + v) = wrap_int (n + v).
Proof.
  unfold wrap_int.
  replace ((n + 2 ^ 31) mod 2 ^ 32 - 2 ^ 31 + v + 2 ^ 31)
    with ((n + 2 ^ 31) mod 2 ^ 32 + v) by lia.
  replace (n + v + 2 ^ 31) with ((n + 2 ^ 31) + v) by lia.
  rewrite Zplus_mod_idemp_l. reflexivity.
Qed.

Lemma sum_cells_acc values cs acc :
  wrap_int
    (foldl (λ total cell,
              match values !! cell with
              | Some v => wrap_int (total + v)
              | None => total
              end) acc cs)
  = wrap_int (acc + member_sum values cs).
Proof.
  revert acc. induction cs as [|c cs IH]; intros acc; simpl.
  - unfold member_sum; simpl. f_equal; lia.
  - rewrite IH.
    change (member_sum values (c :: cs))
      with (value_at values c + member_sum values cs).
    unfold value_at. destruct (values !! c); simpl.
    + rewrite wrap_int_add. f_equal; lia.
    + f_equal; lia.
Qed.

Lemma sum_cells_int values cs : in_int (sum_cells values cs).
Proof.
  unfold sum_cells.
  assert (∀ acc, in_int acc →
            in_int (foldl (λ total cell,
                             match values !! cell with
                             | Some v => wrap_int (total + v)
                             | None => total
                             end) acc cs)) as H.
  { induction cs as [|c cs IH]; intros acc Hacc; simpl; [assumption|].
    apply IH. destruct (values !! c); [apply wrap_int_range | assumption]. }
  apply H. unfold in_int, INT_MIN, INT_MAX. lia.
Qed.

(** the total is the sum of the member values, wrapped *)
Lemma sum_cells_wrap values cs :
  sum_cells values cs = wrap_int (member_sum values cs).
Proof.
  rewrite <- (wrap_int_small (sum_cells values cs)) by apply sum_cells_int.
  unfold sum_cells. rewrite sum_cells_acc. reflexivity.
Qed.

Lemma sum_cells_member values cs :
  in_int (member_sum values cs) → sum_cells values cs = member_sum values cs.
Proof. intros H. rewrite sum_cells_wrap. apply wrap_int_small, H. Qed.

Lemma all_filled_spec filled cs :
  all_filled filled cs = true ↔ fully_filled filled cs.
Proof.
  unfold fully_filled. induction cs as [|c cs IH]; simpl.
  - split; [intros _ c H; inversion H | reflexivity].
  - case_bool_decide as Hc.
    + rewrite IH. split.
      * intros H x [->|?]%elem_of_cons; auto.
      * intros H x ?. apply H. apply elem_of_cons. auto.
    + split; [discriminate|]. intros H. exfalso. apply Hc, H.
      apply elem_of_cons. auto.
Qed.

Lemma all_filled_false filled cs :
  all_filled filled cs = false ↔ ∃ c, c ∈ cs ∧ c ∉ filled.
Proof.
  induction cs as [|c cs IH]; simpl.
  - split; [discriminate | intros (c & H & _); inversion H].
  - case_bool_decide as Hc.
    + rewrite IH. split.
      * intros (x & ? & ?). exists x. rewrite elem_of_cons. auto.
      * intros (x & [->|?]%elem_of_cons & ?); [tauto | eauto].
    + split; [|reflexivity]. intros _. exists c. rewrite elem_of_cons. auto.
Qed.

Lemma filled_member_sum_dom values cs :
  filled_member_sum values (dom values) cs = member_sum values cs.
Proof.
  unfold filled_member_sum, member_sum.
  induction cs as [|c cs IH]; [reflexivity|].
  rewrite filter_cons, fmap_cons.
  destruct (decide (c ∈ dom values)) as [?|N].
  - rewrite fmap_cons. cbn [Zsum]. rewrite IH. reflexivity.
  - cbn [Zsum]. rewrite IH. apply not_elem_of_dom in N. unfold value_at at 2.
    rewrite N. reflexivity.
Qed.

Lemma region_cells_registered S r : registered S r → region_cells S (id r) = Ok (cells r).
Proof. unfold registered, region_cells. intros ->. reflexivity. Qed.

(** C2. For a SUM region, on a value map and filled set that agree (the
    filled cells are the cells that carry a value) and member values whose
    sum is an [int]: when all member cells are filled the check holds
    exactly when the member values sum to the target; when a member cell is
    unfilled it holds exactly when [partial_ok] is set and the sum of the
    filled member cells does not exceed the target. *)
Theorem check_constraint_sum (S : Solver) (region : Region)
    (values : gmap Cell Z) (filled : gset Cell) (partial_ok : bool) :
  registered S region →
  type region = SUM →
  dom values = filled →
  in_int (member_sum values (cells region)) →
  ∃ b, check_constraint S region values filled partial_ok = Ok b
     ∧ (fully_filled filled (cells region) →
          (b = true ↔ member_sum values (cells region) = target_value region))
     ∧ ((∃ c, c ∈ cells region ∧ c ∉ filled) →
          (b = true ↔ partial_ok = true
                      ∧ filled_member_sum values filled (cells region)
                        ≤ target_value region)).
Proof.
  intros Hreg Hty Hdom Hint.
  unfold check_constraint, is_region_complete, get_region_sum.
  rewrite (region_cells_registered _ _ Hreg), Hty; simpl.
  rewrite sum_cells_member by assumption.
  destruct (all_filled filled (cells region)) eqn:E; eexists; (split; [reflexivity|]).
  - split.
    + intros _. apply Z.eqb_eq.
    + intros Hex. apply all_filled_false in Hex. congruence.
  - split.
    + intros Hfull. apply all_filled_spec in Hfull. congruence.
    + intros _. subst filled. rewrite filled_member_sum_dom.
      rewrite andb_true_iff, Z.leb_le. reflexivity.
Qed.

Lemma check_constraint_sum_witness :
  ∃ b, check_constraint solver_A (mkRegion 3 [(1,2); (1,3)] SUM 12 (-1))
         {[ (1,2) := 6; (1,3) := 6 ]} {[ (1,2); (1,3) ]} false = Ok b
     ∧ b = true.
Proof.
  destruct (check_constraint_sum solver_A (mkRegion 3 [(1,2); (1,3)] SUM 12 (-1))
              {[ (1,2) := 6; (1,3) := 6 ]} {[ (1,2); (1,3) ]} false)
    as (b & Hb & Hfull & _).
  - vm_compute. reflexivity.
  - reflexivity.
  - vm_compute. reflexivity.
  - vm_compute. split; discriminate.
  - exists b. split; [exact Hb|]. apply Hfull.
    + intros c Hc. vm_compute in Hc.
      apply elem_of_cons in Hc as [->|Hc]; [set_solver|].
      apply elem_of_cons in Hc as [->|Hc]; [set_solver|]. inversion Hc.
    + vm_compute. reflexivity.
Defined.

(** Outside that range the total wraps around: the values [INT_MAX] and 1
    meet the target [INT_MIN]. *)
Example sum_wraps :
  check_constraint
    (Solver_new [] [mkRegion 0 [(0,0); (0,1)] SUM INT_MIN (-1)] 1 2 3)
    (mkRegion 0 [(0,0); (0,1)] SUM INT_MIN (-1))
    {[ (0,0) := INT_MAX; (0,1) := 1 ]} {[ (0,0); (0,1) ]} false
  = Ok true.
Proof. vm_compute. reflexivity. Qed.

(** the strict comparison a LESS or GREATER region asks for *)
Definition ordered (t : ConstraintType) (mine theirs : Z) : bool :=
  match t with
  | LESS => mine <? theirs
  | GREATER => mine >? theirs
  | _ => true
  end.

(** C3. For a LESS or GREATER region whose linked id leads to the region
    [linked], and member values whose sums over the two regions are [int]s:
    while a member cell of the region or of [linked] is unfilled the check
    returns [partial_ok]; once both are fully filled it returns the strict
    comparison of the two sums, whatever [partial_ok] is. *)
Theorem check_constraint_ordered (S : Solver) (region linked : Region)
    (values : gmap Cell Z) (filled : gset Cell) (partial_ok : bool) :
  registered S region →
  region_by_id S !! linked_region_id region = Some linked →
  type region = LESS ∨ type region = GREATER →
  in_int (member_sum values (cells region)) →
  in_int (member_sum values (cells linked)) →
  ∃ b, check_constraint S region values filled partial_ok = Ok b
     ∧ (¬ fully_filled filled (cells region) ∨ ¬ fully_filled filled (cells linked) →
          b = partial_ok)
     ∧ (fully_filled filled (cells region) ∧ fully_filled filled (cells linked) →
          b = ordered (type region) (member_sum values (cells region))
                                    (member_sum values (cells linked))).
Proof.
  intros Hreg Hlink Hty Hmine Htheirs.
  assert (region_cells S (linked_region_id region) = Ok (cells linked)) as Hl
    by (unfold region_cells; rewrite Hlink; reflexivity).
  unfold check_constraint, is_region_complete, get_region_sum.
  rewrite (region_cells_registered _ _ Hreg), Hl. cbn [rbind].
  destruct (all_filled filled (cells region)) eqn:E1;
    destruct (all_filled filled (cells linked)) eqn:E2;
    destruct Hty as [-> | ->]; simpl; rewrite ?E2; simpl;
    rewrite ?(sum_cells_member _ _ Hmine), ?(sum_cells_member _ _ Htheirs);
    eexists; (split; [reflexivity|]);
    rewrite <- !all_filled_spec, E1, E2; split;
    try (intros [? | ?]; congruence); try (intros [? ?]; congruence);
    try reflexivity; try (intros _; reflexivity).
Qed.

Lemma check_constraint_ordered_witness :
  ∃ b, check_constraint solver_A (mkRegion 2 [(1,0); (1,1)] LESS (-1) 3)
         {[ (1,0) := 4; (1,1) := 5; (1,2) := 6; (1,3) := 6 ]}
         {[ (1,0); (1,1); (1,2); (1,3) ]} false = Ok b
     ∧ b = true.
Proof.
  destruct (check_constraint_ordered solver_A
              (mkRegion 2 [(1,0); (1,1)] LESS (-1) 3)
              (mkRegion 3 [(1,2); (1,3)] SUM 12 (-1))
              {[ (1,0) := 4; (1,1) := 5; (1,2) := 6; (1,3) := 6 ]}
              {[ (1,0); (1,1); (1,2); (1,3) ]} false)
    as (b & Hb & _ & Hfull).
  - vm_compute. reflexivity.
  - vm_compute. reflexivity.
  - left. reflexivity.
  - vm_compute. split; discriminate.
  - vm_compute. split; discriminate.
  - exists b. split; [exact Hb|]. rewrite Hfull.
    + vm_compute. reflexivity.
    + rewrite <- !all_filled_spec. split; vm_compute; reflexivity.
Defined.

(** ** The indexes built by the constructor *)

Lemma oset_insert_elem c x s : c ∈ oset_insert x s ↔ c = x ∨ c ∈ s.
Proof.
  induction s as [|y s IH]; simpl.
  - rewrite list_elem_of_singleton. split; [auto|]. intros [?|H]; [auto | inversion H].
  - destruct (cell_ltb x y) eqn:E1; [rewrite !elem_of_cons; tauto|].
    destruct (cell_ltb y x) eqn:E2.
    + rewrite !elem_of_cons, IH. tauto.
    + assert (x = y) as -> by (apply cell_ltb_equiv; auto).
      rewrite elem_of_cons. tauto.
Qed.

(** strictly increasing lists of cells *)
Inductive increasing : list Cell → Prop :=
  | increasing_nil : increasing []
  | increasing_cons c s :
      (∀ x, x ∈ s → cell_lt c x) → increasing s → increasing (c :: s).

Lemma oset_insert_increasing x s : increasing s → increasing (oset_insert x s).
Proof.
  induction 1 as [|y s Hy Hs IH]; simpl.
  - constructor; [intros c H; inversion H | constructor].
  - destruct (cell_ltb x y) eqn:E1.
    + apply cell_ltb_lt in E1. constructor; [|constructor; assumption].
      intros c [->|Hc]%elem_of_cons; [assumption|].
      eapply cell_lt_trans; eauto.
    + destruct (cell_ltb y x) eqn:E2; [|constructor; assumption].
      apply cell_ltb_lt in E2. constructor; [|assumption].
      intros c [->|Hc]%oset_insert_elem; auto.
Qed.

Lemma increasing_NoDup s : increasing s → NoDup s.
Proof.
  induction 1 as [|c s Hc Hs IH]; constructor; [|assumption].
  intros Hin. apply (cell_lt_irrefl c), Hc, Hin.
Qed.

Section constructor.
Variables (doms : list Domino) (regs : list Region) (r c max_sol : Z).

(** what the first loop has established after a prefix of the regions *)
Definition indexed (done : list Region)
    (a : gmap Cell Z * list Cell * gmap Z Region) : Prop :=
  increasing a.1.2
  ∧ (∀ x, x ∈ a.1.2 ↔ ∃ reg, reg ∈ done ∧ x ∈ cells reg)
  ∧ (∀ x, x ∈ a.1.2 ↔ is_Some (a.1.1 !! x))
  ∧ (∀ x k, a.1.1 !! x = Some k →
            ∃ reg, reg ∈ done ∧ id reg = k ∧ x ∈ cells reg).

Lemma index_cells_spec rid cs m s :
  let a := index_cells rid cs (m, s) in
  (increasing s → increasing a.2)
  ∧ (∀ x, x ∈ a.2 ↔ x ∈ s ∨ x ∈ cs)
  ∧ ((∀ x, x ∈ s ↔ is_Some (m !! x)) → ∀ x, x ∈ a.2 ↔ is_Some (a.1 !! x))
  ∧ (∀ x k, a.1 !! x = Some k → m !! x = Some k ∨ (k = rid ∧ x ∈ cs)).
Proof.
  unfold index_cells. revert m s.
  induction cs as [|cell cs IH]; intros m s; simpl.
  - split; [auto|]. split; [|split; [auto | auto]].
    intros x. split; [auto|]. intros [?|H]; [assumption | inversion H].
  - specialize (IH (<[cell := rid]> m) (oset_insert cell s)).
    simpl in IH. destruct IH as (I1 & I2 & I3 & I4).
    split; [|split; [|split]].
    + intros Hs. apply I1, oset_insert_increasing, Hs.
    + intros x. rewrite I2, oset_insert_elem, elem_of_cons. tauto.
    + intros Hm. apply I3. intros y. rewrite oset_insert_elem, lookup_insert.
      case_decide as Hd; [subst; split; eauto|].
      rewrite Hm. split; [intros [?|?]; [congruence | assumption] | auto].
    + intros x k Hx. rewrite elem_of_cons.
      apply I4 in Hx as [Hx | [? ?]]; [|auto].
      rewrite lookup_insert in Hx.
      case_decide; [right; split; [congruence | auto] | auto].
Qed.

Lemma index_regions_acc done todo a :
  indexed done a →
  indexed (done ++ todo)
    (foldl (λ a reg,
              let mc := index_cells (id reg) (cells reg) (a.1.1, a.1.2) in
              (mc.1, mc.2, <[id reg := reg]> a.2)) a todo).
Proof.
  revert done a. induction todo as [|reg todo IH]; intros done a Ha; simpl.
  - rewrite app_nil_r. assumption.
  - replace (done ++ reg :: todo) with ((done ++ [reg]) ++ todo)
      by (rewrite <- app_assoc; reflexivity).
    apply IH. destruct Ha as (A1 & A2 & A3 & A4).
    pose proof (index_cells_spec (id reg) (cells reg) a.1.1 a.1.2) as H.
    simpl in H. destruct H as (I1 & I2 & I3 & I4).
    unfold indexed; simpl. split; [|split; [|split]].
    + auto.
    + intros x. rewrite I2, A2. split.
      * intros [(reg' & ? & ?) | ?].
        -- exists reg'. rewrite elem_of_app. auto.
        -- exists reg. rewrite elem_of_app, list_elem_of_singleton. auto.
      * intros (reg' & [?|Hr]%elem_of_app & ?); [eauto|].
        apply list_elem_of_singleton in Hr. subst reg'. auto.
    + apply I3, A3.
    + intros x k Hx. apply I4 in Hx as [Hx | [-> ?]].
      * apply A4 in Hx as (reg' & ? & ? & ?). exists reg'.
        rewrite elem_of_app. auto.
      * exists reg. rewrite elem_of_app, list_elem_of_singleton. auto.
Qed.

Lemma index_regions_spec : indexed regs (index_regions regs).
Proof.
  apply (index_regions_acc [] regs (∅, [], ∅)).
  unfold indexed; simpl. split; [|split; [|split]].
  - constructor.
  - intros x. split; [intros H; inversion H | intros (? & H & _); inversion H].
  - intros x. split; [intros H; inversion H|].
    intros [? H]. rewrite lookup_empty in H. discriminate.
  - intros x k H. rewrite lookup_empty in H. discriminate.
Qed.

Lemma fix_pointers_lookup todo m k :
  fix_pointers todo m !! k
  = match last (filter (λ reg, id reg = k) todo) with
    | Some reg => Some reg
    | None => m !! k
    end.
Proof.
  unfold fix_pointers. revert m.
  induction todo as [|reg todo IH]; intros m; simpl; [reflexivity|].
  rewrite IH, filter_cons. case_decide as Hd.
  - subst k. rewrite last_cons.
    destruct (last (filter (λ reg0, id reg0 = id reg) todo)); [reflexivity|].
    apply lookup_insert_eq.
  - rewrite lookup_insert_ne by assumption. reflexivity.
Qed.

Lemma index_regions_byid (todo : list Region)
    (a : gmap Cell Z * list Cell * gmap Z Region) (k : Z) :
  (foldl (λ a reg,
            let mc := index_cells (id reg) (cells reg) (a.1.1, a.1.2) in
            (mc.1, mc.2, <[id reg := reg]> a.2)) a todo).2 !! k
  = match last (filter (λ reg, id reg = k) todo) with
    | Some reg => Some reg
    | None => a.2 !! k
    end.
Proof.
  revert a. induction todo as [|reg todo IH]; intros a; simpl; [reflexivity|].
  rewrite IH, filter_cons. simpl. case_decide as Hd.
  - subst k. rewrite last_cons.
    destruct (last (filter (λ reg0, id reg0 = id reg) todo)); [reflexivity|].
    apply lookup_insert_eq.
  - rewrite lookup_insert_ne by assumption. reflexivity.
Qed.

Let S0 := Solver_new doms regs r c max_sol.

(** [all_cells] is in key order and without repetition *)
Lemma all_cells_increasing : increasing (all_cells S0).
Proof. apply index_regions_spec. Qed.

(** [all_cells] holds the cells listed by the regions *)
Lemma all_cells_elem x : x ∈ all_cells S0 ↔ ∃ reg, reg ∈ regs ∧ x ∈ cells reg.
Proof. apply index_regions_spec. Qed.

(** no use of [cell_to_region[cell]] inserts a key *)
Lemma cell_to_region_present x :
  x ∈ all_cells S0 ↔ is_Some (cell_to_region S0 !! x).
Proof. apply index_regions_spec. Qed.

(** every id is led to the last region of the list that carries it *)
Lemma region_by_id_last k :
  region_by_id S0 !! k = last (filter (λ reg, id reg = k) regs).
Proof.
  unfold S0, Solver_new; simpl. rewrite fix_pointers_lookup.
  destruct (last (filter (λ reg, id reg = k) regs)) eqn:E; [reflexivity|].
  unfold index_regions. rewrite index_regions_byid, E. apply lookup_empty.
Qed.
End constructor.

(** What the search relies on, and what the constructor establishes. *)
Record well_indexed (S : Solver) : Prop := {
  wi_increasing : increasing (all_cells S);
  wi_cells : ∀ x, x ∈ all_cells S ↔ ∃ reg, reg ∈ regions S ∧ x ∈ cells reg;
  wi_present : ∀ x, x ∈ all_cells S ↔ is_Some (cell_to_region S !! x);
  wi_owner : ∀ x k, cell_to_region S !! x = Some k → is_Some (region_by_id S !! k);
  wi_member : ∀ x k, cell_to_region S !! x = Some k →
                ∃ reg, reg ∈ regions S ∧ id reg = k ∧ x ∈ cells reg;
  wi_byid : ∀ k reg, region_by_id S !! k = Some reg → reg ∈ regions S ∧ id reg = k;
  wi_regions : ∀ reg, reg ∈ regions S → is_Some (region_by_id S !! id reg)
}.

Lemma last_filter_elem {A} (P : A → Prop) `{∀ x, Decision (P x)} (l : list A) x :
  last (filter P l) = Some x → x ∈ l ∧ P x.
Proof.
  intros Hl. rewrite last_lookup in Hl.
  apply list_elem_of_lookup_2, list_elem_of_filter in Hl. tauto.
Qed.

Lemma last_filter_some {A} (P : A → Prop) `{∀ x, Decision (P x)} (l : list A) x :
  x ∈ l → P x → is_Some (last (filter P l)).
Proof.
  intros Hx HP. destruct (last (filter P l)) eqn:E; [eauto|].
  apply last_None in E.
  assert (x ∈ filter P l) as Hin by (apply list_elem_of_filter; auto).
  rewrite E in Hin. inversion Hin.
Qed.

Lemma Solver_new_well_indexed doms regs r c max_sol :
  well_indexed (Solver_new doms regs r c max_sol).
Proof.
  pose proof (index_regions_spec regs) as (I1 & I2 & I3 & I4).
  split.
  - apply all_cells_increasing.
  - apply all_cells_elem.
  - apply cell_to_region_present.
  - intros x k Hx. apply I4 in Hx as (reg & Hreg & Hid & _).
    rewrite region_by_id_last.
    apply (last_filter_some (λ reg, id reg = k) regs reg); assumption.
  - exact I4.
  - intros k reg. rewrite region_by_id_last. intros Hl.
    apply (last_filter_elem (λ reg, id reg = k)) in Hl. exact Hl.
  - intros reg Hreg. rewrite region_by_id_last.
    apply (last_filter_some (λ reg0, id reg0 = id reg) regs reg); auto.
Qed.

(** ** Cell selection *)

(** the region a cell belongs to, as the indexes have it *)
Definition owning_region (S : Solver) (x : Cell) : option Region :=
  k ← cell_to_region S !! x; region_by_id S !! k.

(** the number of unfilled member cells of a region *)
Definition unfilled_in (filled : gset Cell) (reg : Region) : Z :=
  Z.of_nat (length (filter (λ x, x ∉ filled) (cells reg))).

Lemma count_unfilled_acc (filled : gset Cell) (cs : list Cell) (acc : Z) :
  foldl (λ unfilled x, if bool_decide (x ∈ filled) then unfilled else unfilled + 1)
        acc cs
  = acc + Z.of_nat (length (filter (λ x, x ∉ filled) cs)).
Proof.
  revert acc. induction cs as [|x cs IH]; intros acc; simpl; [lia|].
  rewrite IH, filter_cons. case_bool_decide.
  - rewrite decide_False by tauto. reflexivity.
  - rewrite decide_True by assumption. simpl length. lia.
Qed.

Lemma count_unfilled_length (filled : gset Cell) (cs : list Cell) :
  count_unfilled filled cs = Z.of_nat (length (filter (λ x, x ∉ filled) cs)).
Proof. unfold count_unfilled. rewrite count_unfilled_acc. lia. Qed.

Lemma unfilled_in_bound filled reg :
  0 ≤ unfilled_in filled reg ≤ Z.of_nat (length (cells reg)).
Proof.
  unfold unfilled_in. pose proof (length_filter (λ x, x ∉ filled) (cells reg)). lia.
Qed.

Section choose_cell.
Variable S : Solver.
Variable filled : gset Cell.

(** the count [choose_cell] compares for a cell *)
Definition score (x : Cell) : Z :=
  match owning_region S x with
  | Some reg => unfilled_in filled reg
  | None => 0
  end.

Lemma region_cells_owner x reg :
  is_Some (cell_to_region S !! x) →
  owning_region S x = Some reg →
  region_cells S (cell_to_region_at S x) = Ok (cells reg).
Proof.
  unfold owning_region, region_cells, cell_to_region_at.
  intros [k Hk]. rewrite Hk; simpl. intros ->. reflexivity.
Qed.

Lemma choose_cell_loop_spec todo best min_unfilled :
  increasing todo →
  (∀ x, x ∈ todo → x ∉ filled →
        is_Some (cell_to_region S !! x) ∧ is_Some (owning_region S x)) →
  ∃ b, choose_cell_loop S filled todo best min_unfilled = Ok b
     ∧ ((b = best ∧ ∀ x, x ∈ todo → x ∉ filled → min_unfilled ≤ score x)
        ∨ (b ∈ todo ∧ (b ∉ filled) ∧ score b < min_unfilled
           ∧ ∀ x, x ∈ todo → x ∉ filled →
                  score b ≤ score x
                  ∧ (score x = score b → x = b ∨ cell_lt b x))).
Proof.
  intros Hinc. revert best min_unfilled.
  induction Hinc as [|cell todo Hlt Hinc IH]; intros best min_unfilled Hdef.
  - exists best. split; [reflexivity|]. left. split; [reflexivity|].
    intros x Hx. inversion Hx.
  - assert (∀ x, x ∈ todo → x ∉ filled →
              is_Some (cell_to_region S !! x) ∧ is_Some (owning_region S x))
      as Hdef' by (intros x Hx; apply Hdef; apply elem_of_cons; auto).
    simpl. case_bool_decide as Hf.
    + destruct (IH best min_unfilled Hdef') as (b & -> & [[-> Hall] | (Hb & Hbf & Hs & Hall)]);
        eexists; (split; [reflexivity|]).
      * left. split; [reflexivity|].
        intros x [->|Hx]%elem_of_cons ?; [tauto | auto].
      * right. split; [apply elem_of_cons; auto|]. split; [assumption|].
        split; [assumption|].
        intros x [->|Hx]%elem_of_cons ?; [tauto | auto].
    + destruct (Hdef cell) as [Hk [reg Hreg]]; [apply elem_of_cons; auto | assumption |].
      rewrite (region_cells_owner _ _ Hk Hreg). cbn [rbind].
      rewrite count_unfilled_length.
      assert (score cell = Z.of_nat (length (filter (λ x, x ∉ filled) (cells reg))))
        as Hscore by (unfold score; rewrite Hreg; reflexivity).
      rewrite <- Hscore.
      destruct (Z.ltb_spec (score cell) min_unfilled) as [Hless | Hge].
      * destruct (IH cell (score cell) Hdef')
          as (b & -> & [[-> Hall] | (Hb & Hbf & Hs & Hall)]);
          eexists; (split; [reflexivity|]); right.
        -- split; [apply elem_of_cons; auto|]. split; [assumption|].
           split; [assumption|].
           intros x [->|Hx]%elem_of_cons Hxf; [split; [lia | auto]|].
           split; [auto|]. intros _. right. auto.
        -- split; [apply elem_of_cons; auto|]. split; [assumption|].
           split; [lia|].
           intros x [->|Hx]%elem_of_cons Hxf; [split; lia | auto].
      * destruct (IH best min_unfilled Hdef')
          as (b & -> & [[-> Hall] | (Hb & Hbf & Hs & Hall)]);
          eexists; (split; [reflexivity|]).
        -- left. split; [reflexivity|].
           intros x [->|Hx]%elem_of_cons ?; [lia | auto].
        -- right. split; [apply elem_of_cons; auto|]. split; [assumption|].
           split; [assumption|].
           intros x [->|Hx]%elem_of_cons Hxf; [split; lia | auto].
Qed.
End choose_cell.

Lemma owning_region_defined S x :
  well_indexed S → x ∈ all_cells S →
  is_Some (cell_to_region S !! x)
  ∧ ∃ reg, owning_region S x = Some reg ∧ reg ∈ regions S.
Proof.
  intros W Hx. apply (wi_present S W) in Hx as [k Hk].
  split; [eauto|]. destruct (wi_owner S W _ _ Hk) as [reg Hreg].
  exists reg. unfold owning_region. rewrite Hk; simpl.
  split; [assumption|]. eapply wi_byid; eauto.
Qed.

(** When the ids of the regions are pairwise different, every region of the
    list is the one its id leads to, and the owning region of a cell is a
    region that lists the cell. *)
Lemma NoDup_fmap_eq {A B} (f : A → B) (l : list A) x y :
  NoDup (f <$> l) → x ∈ l → y ∈ l → f x = f y → x = y.
Proof.
  induction l as [|a l IH]; intros Hnd Hx Hy Hf; [inversion Hx|].
  rewrite fmap_cons in Hnd. apply NoDup_cons in Hnd as [Hna Hnd].
  apply elem_of_cons in Hx as [-> | Hx], Hy as [-> | Hy]; auto.
  - exfalso. apply Hna. rewrite Hf. apply list_elem_of_fmap. eauto.
  - exfalso. apply Hna. rewrite <- Hf. apply list_elem_of_fmap. eauto.
Qed.

Lemma unique_ids_eq (regs : list Region) reg reg' :
  NoDup (id <$> regs) → reg ∈ regs → reg' ∈ regs → id reg = id reg' → reg = reg'.
Proof. apply NoDup_fmap_eq. Qed.


Lemma owning_region_contains doms regs r c max_sol x owner :
  NoDup (id <$> regs) →
  owning_region (Solver_new doms regs r c max_sol) x = Some owner →
  owner ∈ regs ∧ x ∈ cells owner.
Proof.
  intros Hnd. unfold owning_region.
  pose proof (Solver_new_well_indexed doms regs r c max_sol) as W.
  destruct (cell_to_region _ !! x) as [k|] eqn:Hk; simpl; [|discriminate].
  intros Ho. destruct (wi_byid _ W _ _ Ho) as [Hin Hid].
  destruct (wi_member _ W _ _ Hk) as (reg & Hreg & Hidr & Hx).
  split; [assumption|].
  assert (owner = reg) as -> by (apply (unique_ids_eq regs); simpl in *; congruence).
  assumption.
Qed.

(** C7. When some cell is unfilled, [choose_cell] returns an unfilled cell
    whose owning region has the fewest unfilled member cells among the
    unfilled cells, and of the cells tied at that minimum the first in
    row-major order.  Regions are taken to have fewer than [INT_MAX] cells,
    the range of the counter. *)
Theorem choose_cell_most_constrained (doms : list Domino) (regs : list Region)
    (r c max_sol : Z) (state : SolverState) :
  let S := Solver_new doms regs r c max_sol in
  let filled := filled_cells state in
  (∀ reg, reg ∈ regs → Z.of_nat (length (cells reg)) < INT_MAX) →
  (∃ x, x ∈ all_cells S ∧ x ∉ filled) →
  ∃ best owner,
    choose_cell S state = Ok best
    ∧ best ∈ all_cells S ∧ (best ∉ filled)
    ∧ owning_region S best = Some owner
    ∧ ∀ x, x ∈ all_cells S → x ∉ filled →
        ∃ owner_x, owning_region S x = Some owner_x
          ∧ unfilled_in filled owner ≤ unfilled_in filled owner_x
          ∧ (unfilled_in filled owner_x = unfilled_in filled owner →
               x = best ∨ cell_lt best x).
Proof.
  intros S filled Hsize (x0 & Hx0 & Hx0f).
  pose proof (Solver_new_well_indexed doms regs r c max_sol) as W.
  fold S in W.
  destruct (choose_cell_loop_spec S filled (all_cells S) (-1, -1) INT_MAX
              (wi_increasing S W)) as (b & Hb & Hcase).
  { intros x Hx _. destruct (owning_region_defined S x W Hx) as (? & reg & ? & ?).
    eauto. }
  destruct Hcase as [[_ Hall] | (Hbin & Hbf & _ & Hall)].
  - exfalso. specialize (Hall x0 Hx0 Hx0f).
    destruct (owning_region_defined S x0 W Hx0) as (_ & reg & Hreg & Hin).
    unfold score in Hall. rewrite Hreg in Hall.
    pose proof (unfilled_in_bound filled reg). specialize (Hsize reg Hin). lia.
  - destruct (owning_region_defined S b W Hbin) as (_ & owner & Howner & _).
    exists b, owner. split; [exact Hb|]. split; [assumption|].
    split; [assumption|]. split; [assumption|].
    intros x Hx Hxf.
    destruct (owning_region_defined S x W Hx) as (_ & ox & Hox & _).
    exists ox. split; [assumption|].
    specialize (Hall x Hx Hxf). unfold score in Hall.
    rewrite Hox, Howner in Hall. exact Hall.
Qed.

Lemma choose_cell_most_constrained_witness :
  ∃ best owner,
    choose_cell solver_A initial = Ok best
    ∧ best ∈ all_cells solver_A ∧ (best ∉ filled_cells initial)
    ∧ owning_region solver_A best = Some owner
    ∧ ∀ x, x ∈ all_cells solver_A → x ∉ filled_cells initial →
        ∃ owner_x, owning_region solver_A x = Some owner_x
          ∧ unfilled_in (filled_cells initial) owner
            ≤ unfilled_in (filled_cells initial) owner_x
          ∧ (unfilled_in (filled_cells initial) owner_x
             = unfilled_in (filled_cells initial) owner →
               x = best ∨ cell_lt best x).
Proof.
  apply (choose_cell_most_constrained tiles_A (regions_A 12) 2 4 3 initial).
  - intros reg Hreg. unfold regions_A in Hreg.
    repeat (apply elem_of_cons in Hreg as [->|Hreg]; [vm_compute; reflexivity|]).
    inversion Hreg.
  - exists (0, 0). split.
    + vm_compute. apply list_elem_of_here.
    + simpl. apply not_elem_of_empty.
Defined.

(** ** Runs without undefined behaviour *)

(** every LESS or GREATER region names a linked region that exists *)
Definition links_ok (S : Solver) : Prop :=
  ∀ reg, reg ∈ regions S →
    type reg = LESS ∨ type reg = GREATER →
    is_Some (region_by_id S !! linked_region_id reg).

(** the same, on the region list handed to the constructor *)
Definition links_resolve (regs : list Region) : Prop :=
  ∀ reg, reg ∈ regs →
    type reg = LESS ∨ type reg = GREATER →
    ∃ reg', reg' ∈ regs ∧ id reg' = linked_region_id reg.

(** a test for [links_resolve] *)
Definition links_resolveb (regs : list Region) : bool :=
  forallb (λ reg,
             match type reg with
             | LESS | GREATER =>
                 existsb (λ reg', id reg' =? linked_region_id reg) regs
             | _ => true
             end) regs.

Lemma links_resolveb_spec regs : links_resolveb regs = true → links_resolve regs.
Proof.
  unfold links_resolveb. rewrite forallb_forall. intros H reg Hreg Hty.
  apply list_elem_of_In in Hreg. specialize (H reg Hreg).
  assert (existsb (λ reg', id reg' =? linked_region_id reg) regs = true) as Hex
    by (destruct Hty as [Hty | Hty]; rewrite Hty in H; exact H).
  apply existsb_exists in Hex as (reg' & Hin & Heq).
  exists reg'. split; [apply list_elem_of_In, Hin | apply Z.eqb_eq, Heq].
Qed.

Lemma Solver_new_links_ok doms regs r c max_sol :
  links_resolve regs → links_ok (Solver_new doms regs r c max_sol).
Proof.
  intros H reg Hreg Hty. destruct (H reg Hreg Hty) as (reg' & Hin & Hid).
  rewrite <- Hid.
  apply (wi_regions _ (Solver_new_well_indexed doms regs r c max_sol)), Hin.
Qed.

Lemma region_cells_defined S k :
  is_Some (region_by_id S !! k) → ∃ cs, region_cells S k = Ok cs.
Proof. intros [reg H]. unfold region_cells. rewrite H. simpl. eauto. Qed.

Lemma check_constraint_defined S region values filled partial_ok :
  is_Some (region_by_id S !! id region) →
  (type region = LESS ∨ type region = GREATER →
   is_Some (region_by_id S !! linked_region_id region)) →
  ∃ b, check_constraint S region values filled partial_ok = Ok b.
Proof.
  intros Hid Hlink. destruct (region_cells_defined _ _ Hid) as [cs Hcs].
  unfold check_constraint, is_region_complete, get_region_sum, get_region_values.
  rewrite Hcs. cbn [rbind].
  destruct (type region) eqn:Hty.
  - destruct (all_filled filled cs); eauto.
  - destruct (values_of values cs); eauto.
  - destruct (region_cells_defined _ _ (Hlink (or_introl eq_refl))) as [cl ->].
    cbn [rbind]. destruct (all_filled filled cs); simpl; [|eauto].
    destruct (all_filled filled cl); simpl; eauto.
  - destruct (region_cells_defined _ _ (Hlink (or_intror eq_refl))) as [cl ->].
    cbn [rbind]. destruct (all_filled filled cs); simpl; [|eauto].
    destruct (all_filled filled cl); simpl; eauto.
Qed.

Section defined.
Variable S : Solver.
Hypothesis W : well_indexed S.
Hypothesis L : links_ok S.

Lemma check_all_defined regs state :
  (∀ reg, reg ∈ regs → reg ∈ regions S) →
  ∃ b, check_all S regs state = Ok b.
Proof.
  induction regs as [|reg regs IH]; intros Hin; simpl; [eauto|].
  destruct (check_constraint_defined S reg (cell_values state)
              (filled_cells state) false) as [b ->].
  - apply (wi_regions S W), Hin, elem_of_cons; auto.
  - apply L, Hin, elem_of_cons; auto.
  - cbn [rbind]. destruct b; [|eauto].
    apply IH. intros reg' ?. apply Hin, elem_of_cons; auto.
Qed.

Lemma check_affected_defined rids values filled :
  (∀ k, k ∈ rids → is_Some (region_by_id S !! k)) →
  ∃ b, check_affected S rids values filled = Ok b.
Proof.
  induction rids as [|k rids IH]; intros Hin; simpl; [eauto|].
  destruct (Hin k) as [reg Hreg]; [apply elem_of_cons; auto|].
  rewrite Hreg. cbn [of_option rbind].
  destruct (wi_byid S W _ _ Hreg) as [Hregs Hid].
  destruct (check_constraint_defined S reg values filled true) as [b ->].
  - rewrite Hid, Hreg. eauto.
  - apply L, Hregs.
  - cbn [rbind]. destruct b; [|eauto].
    apply IH. intros k' ?. apply Hin, elem_of_cons; auto.
Qed.

Lemma affected_registered cell adj k :
  cell ∈ all_cells S → adj ∈ all_cells S →
  k ∈ affected S cell adj → is_Some (region_by_id S !! k).
Proof.
  intros Hc Ha.
  apply (wi_present S W) in Hc as [kc Hc], Ha as [ka Ha].
  pose proof (wi_owner S W _ _ Hc) as Oc.
  pose proof (wi_owner S W _ _ Ha) as Oa.
  unfold affected, cell_to_region_at. rewrite Hc, Ha; simpl.
  destruct (kc =? ka); [|destruct (kc <? ka)];
    rewrite ?elem_of_cons; intros H; repeat destruct H as [->|H];
    try assumption; inversion H.
Qed.

Lemma choose_cell_defined state : ∃ cell, choose_cell S state = Ok cell.
Proof.
  destruct (choose_cell_loop_spec S (filled_cells state) (all_cells S)
              (-1, -1) INT_MAX (wi_increasing S W)) as (b & Hb & _).
  - intros x Hx _.
    destruct (owning_region_defined S x W Hx) as (? & reg & ? & ?). eauto.
  - eauto.
Qed.
End defined.

Lemma choose_cell_loop_result S filled todo best min_unfilled b :
  choose_cell_loop S filled todo best min_unfilled = Ok b →
  b = best ∨ (b ∈ todo ∧ b ∉ filled).
Proof.
  revert best min_unfilled. induction todo as [|cell todo IH];
    intros best min_unfilled; simpl.
  - intros [= ->]. auto.
  - case_bool_decide as Hf.
    + intros H. apply IH in H as [?|[? ?]]; [auto|].
      right. rewrite elem_of_cons. auto.
    + destruct (region_cells S (cell_to_region_at S cell)); simpl;
        [|discriminate|discriminate].
      destruct (_ <? _); intros H; apply IH in H as [->|[? ?]];
        rewrite elem_of_cons; auto.
Qed.

(** a cell that passes the test [cell.first < 0] is an unfilled grid cell *)
Lemma choose_cell_unfilled S state cell :
  choose_cell S state = Ok cell → 0 ≤ cell.1 →
  cell ∈ all_cells S ∧ cell ∉ filled_cells state.
Proof.
  intros H Hpos. apply choose_cell_loop_result in H as [-> | ?]; [|assumption].
  simpl in Hpos. lia.
Qed.

Lemma get_adjacent_elem S cell adj :
  adj ∈ get_adjacent S cell → adj ∈ all_cells S ∧ adj ≠ cell.
Proof.
  unfold get_adjacent. rewrite list_elem_of_filter. intros [Hin Hadj].
  split; [assumption|]. destruct cell as [r c]; simpl in Hadj.
  repeat (apply elem_of_cons in Hadj as [->|Hadj]; [intros [=]; lia|]).
  inversion Hadj.
Qed.

(** ** The search tree *)

(** One extension step, as the loops of [backtrack] make it: the selected
    cell, an unused tile, an unfilled neighbour, an orientation, and the
    partial check of the regions touched. *)
Inductive extension (S : Solver) (state : SolverState) : SolverState → Prop :=
  | extension_intro cell d adj o :
      size (filled_cells state) ≠ length (all_cells S) →
      choose_cell S state = Ok cell →
      0 ≤ cell.1 →
      d ∈ dominoes S →
      d ∉ used_dominoes state →
      adj ∈ get_adjacent S cell →
      adj ∉ filled_cells state →
      is_Some (cell_to_region S !! cell) →
      is_Some (cell_to_region S !! adj) →
      o ∈ orientations d →
      check_affected S (affected S cell adj) (new_values_of state cell adj o)
        (new_filled_of state cell adj) = Ok true →
      extension S state (new_state_of state d cell adj o).

(** the states the search can visit below [state] *)
Definition descendant (S : Solver) : SolverState → SolverState → Prop :=
  rtc (extension S).

Definition reachable (S : Solver) (state : SolverState) : Prop :=
  descendant S initial state.

(** a complete state that passes the strict check of every region *)
Definition accepted (S : Solver) (state : SolverState) : Prop :=
  size (filled_cells state) = length (all_cells S)
  ∧ check_all S (regions S) state = Ok true.

(** ** The invariant of assignment states *)

Record state_invariant (state : SolverState) : Prop := {
  inv_used : used_dominoes state = list_to_set (domino <$> placed state);
  inv_once : NoDup (domino <$> placed state);
  inv_filled : filled_cells state = dom (cell_values state);
  inv_pairs : size (filled_cells state) = (2 * length (placed state))%nat
}.

Lemma initial_invariant : state_invariant initial.
Proof.
  split; simpl.
  - reflexivity.
  - constructor.
  - rewrite dom_empty_L. reflexivity.
  - reflexivity.
Qed.

Lemma extension_fills_two S state state' :
  extension S state state' →
  ∃ cell adj,
    cell ≠ adj ∧ (cell ∉ filled_cells state) ∧ (adj ∉ filled_cells state)
    ∧ cell ∈ all_cells S ∧ adj ∈ all_cells S
    ∧ filled_cells state' = {[adj]} ∪ ({[cell]} ∪ filled_cells state).
Proof.
  intros [cell d adj o _ Hcell Hpos _ _ Hadj Hadjf _ _ _ _].
  destruct (choose_cell_unfilled _ _ _ Hcell Hpos) as [Hin Hf].
  destruct (get_adjacent_elem _ _ _ Hadj) as [Hain Hne].
  exists cell, adj. repeat split; auto.
Qed.

Lemma extension_invariant S state state' :
  extension S state state' → state_invariant state → state_invariant state'.
Proof.
  intros Hext [Hu Ho Hf Hp].
  destruct (extension_fills_two _ _ _ Hext) as (cell' & adj' & Hne & Hc & Ha & _ & _ & Hfill).
  destruct Hext as [cell d adj o _ _ _ _ Hd _ _ _ _ _ _].
  simpl in Hfill. split; simpl.
  - rewrite fmap_app, list_to_set_app_L, Hu. simpl.
    rewrite union_empty_r_L. apply (comm_L (∪)).
  - rewrite fmap_app. apply NoDup_app. split; [assumption|]. split.
    + intros x Hx Hx'. simpl in Hx'. apply list_elem_of_singleton in Hx'.
      subst x. apply Hd. rewrite Hu. apply elem_of_list_to_set. assumption.
    + apply NoDup_singleton.
  - unfold new_filled_of, new_values_of. rewrite !dom_insert_L, Hf. reflexivity.
  - rewrite Hfill, length_app; simpl.
    assert (adj' ∉ ({[cell']} ∪ filled_cells state : gset Cell)) as Ha'.
    { rewrite not_elem_of_union, elem_of_singleton. split; [congruence | assumption]. }
    rewrite size_union by (apply disjoint_singleton_l; assumption).
    rewrite size_union by (apply disjoint_singleton_l; assumption).
    rewrite !size_singleton, Hp. lia.
Qed.

(** C9. Every state the search reaches from the empty root state has its
    used-tile set equal to the set of tiles of its placed list, no tile placed
    twice, its filled-cell set equal to the key set of its value map, and two
    cells filled per placement: each extension fills two distinct cells that
    were unfilled. *)
Theorem reachable_state_invariant (S : Solver) (state : SolverState) :
  reachable S state →
  state_invariant state
  ∧ ∀ state', extension S state state' →
      ∃ cell adj,
        cell ≠ adj ∧ (cell ∉ filled_cells state) ∧ (adj ∉ filled_cells state)
        ∧ filled_cells state' = {[adj]} ∪ ({[cell]} ∪ filled_cells state).
Proof.
  intros Hreach. split.
  - revert state Hreach. unfold reachable, descendant.
    apply rtc_ind_r; [apply initial_invariant|].
    intros y z _ Hext IH. eapply extension_invariant; eauto.
  - intros state' Hext.
    destruct (extension_fills_two _ _ _ Hext) as (cell & adj & ? & ? & ? & _ & _ & ?).
    exists cell, adj. auto.
Qed.

Lemma reachable_state_invariant_witness :
  state_invariant (new_state_of initial (mkDomino 0 1) (0, 0) (0, 1) (0, 1)).
Proof.
  apply (reachable_state_invariant solver_A).
  eapply rtc_l; [|apply rtc_refl].
  apply (extension_intro solver_A initial (0, 0) (mkDomino 0 1) (0, 1) (0, 1)).
  - vm_compute. discriminate.
  - vm_compute. reflexivity.
  - simpl. lia.
  - vm_compute. apply list_elem_of_here.
  - apply not_elem_of_empty.
  - vm_compute. apply list_elem_of_further, list_elem_of_here.
  - apply not_elem_of_empty.
  - vm_compute. eauto.
  - vm_compute. eauto.
  - vm_compute. apply list_elem_of_here.
  - vm_compute. reflexivity.
Defined.

(** ** The loops of [backtrack] as one loop over the children of a state *)

Section for_each.
Context {A : Type}.
Implicit Types (body : A → Search → result ctl) (l : list A) (g : Search).

Lemma for_each_ext body body' l g :
  (∀ a g, a ∈ l → body a g = body' a g) →
  for_each body l g = for_each body' l g.
Proof.
  revert g. induction l as [|a l IH]; intros g H; simpl; [reflexivity|].
  rewrite H by apply list_elem_of_here.
  destruct (body' a g) as [[g'|g']| |]; simpl; try reflexivity.
  apply IH. intros a' g'' ?. apply H. apply list_elem_of_further. assumption.
Qed.

Lemma for_each_app body l1 l2 g :
  for_each body (l1 ++ l2) g
  = (c ←r for_each body l1 g;
     match c with
     | Next g' => for_each body l2 g'
     | Ret g' => Ok (Ret g')
     end).
Proof.
  revert g. induction l1 as [|a l1 IH]; intros g; simpl; [reflexivity|].
  destruct (body a g) as [[g'|g']| |]; simpl; try reflexivity. apply IH.
Qed.

Lemma for_each_filter (P : A → Prop) `{∀ a, Decision (P a)} body l g :
  for_each (λ a g, if decide (P a) then body a g else Ok (Next g)) l g
  = for_each body (filter P l) g.
Proof.
  revert g. induction l as [|a l IH]; intros g; simpl; [reflexivity|].
  rewrite filter_cons. destruct (decide (P a)); simpl.
  - destruct (body a g) as [[g'|g']| |]; simpl; try reflexivity. apply IH.
  - apply IH.
Qed.

Lemma for_each_bind {B} (f : B → list A) body (l : list B) g :
  for_each (λ b g, for_each body (f b) g) l g = for_each body (l ≫= f) g.
Proof.
  revert g. induction l as [|b l IH]; intros g; [reflexivity|].
  rewrite bind_cons, for_each_app. simpl.
  destruct (for_each body (f b) g) as [[g'|g']| |]; simpl; try reflexivity.
  apply IH.
Qed.

Lemma for_each_fmap {B} (f : B → A) body (l : list B) g :
  for_each (λ b g, body (f b) g) l g = for_each body (f <$> l) g.
Proof.
  revert g. induction l as [|b l IH]; intros g; simpl; [reflexivity|].
  destruct (body (f b) g) as [[g'|g']| |]; simpl; try reflexivity. apply IH.
Qed.
End for_each.

(** one visit of a child: the recursive call and the test that follows it *)
Definition visit (S : Solver) (rec : SolverState → Search → result Search)
    (child : SolverState) (g : Search) : result ctl :=
  g' ←r rec child g;
  if cap_reached S g' then Ok (Ret g') else Ok (Next g').

Definition candidate_ok (S : Solver) (state : SolverState) (cell adj : Cell)
    (o : Z * Z) : Prop :=
  check_affected S (affected S cell adj) (new_values_of state cell adj o)
    (new_filled_of state cell adj) = Ok true.

#[global] Instance result_bool_eq_dec : EqDecision (result bool).
Proof. solve_decision. Defined.

#[global] Instance candidate_ok_dec S state cell adj o :
  Decision (candidate_ok S state cell adj o).
Proof. unfold candidate_ok. apply _. Defined.

(** the states [backtrack] recurses into from [state], in the order of its
    loops *)
Definition children (S : Solver) (state : SolverState) (cell : Cell)
    : list SolverState :=
  d ← filter (λ d, d ∉ used_dominoes state) (dominoes S);
  adj ← filter (λ adj, (adj ∉ filled_cells state)
                       ∧ is_Some (cell_to_region S !! cell)
                       ∧ is_Some (cell_to_region S !! adj))
               (get_adjacent S cell);
  (new_state_of state d cell adj) <$> filter (candidate_ok S state cell adj)
                                             (orientations d).

Lemma children_extension S state cell child :
  size (filled_cells state) ≠ length (all_cells S) →
  choose_cell S state = Ok cell →
  0 ≤ cell.1 →
  child ∈ children S state cell → extension S state child.
Proof.
  intros Hsz Hcell Hpos. unfold children.
  intros (d & Hchild & [Hd Hdin]%list_elem_of_filter)%list_elem_of_bind.
  apply list_elem_of_bind in Hchild
    as (adj & Hchild & [(Hadjf & Hc & Ha) Hadj]%list_elem_of_filter).
  apply list_elem_of_fmap in Hchild as (o & -> & [Hok Ho]%list_elem_of_filter).
  econstructor; eauto.
Qed.

Lemma extension_children S state child :
  extension S state child →
  ∃ cell, choose_cell S state = Ok cell ∧ 0 ≤ cell.1
          ∧ size (filled_cells state) ≠ length (all_cells S)
          ∧ child ∈ children S state cell.
Proof.
  intros [cell d adj o Hsz Hcell Hpos Hd Hdu Hadj Hadjf Hc Ha Ho Hok].
  exists cell. repeat (split; [assumption|]).
  unfold children. apply list_elem_of_bind. exists d. split.
  - apply list_elem_of_bind. exists adj. split.
    + apply list_elem_of_fmap. exists o. split; [reflexivity|].
      apply list_elem_of_filter. auto.
    + apply list_elem_of_filter. auto.
  - apply list_elem_of_filter. auto.
Qed.

Section fusion.
Variable S : Solver.
Hypothesis W : well_indexed S.
Hypothesis L : links_ok S.
Variable rec : SolverState → Search → result Search.
Variable state : SolverState.
Variable cell : Cell.
Hypothesis Hcell : cell ∈ all_cells S.

Lemma try_orientation_visit d adj o g :
  adj ∈ get_adjacent S cell →
  try_orientation S rec state cell d adj o g
  = if decide (candidate_ok S state cell adj o)
    then visit S rec (new_state_of state d cell adj o) g
    else Ok (Next g).
Proof.
  intros Hadj. apply get_adjacent_elem in Hadj as [Hadj _].
  destruct (check_affected_defined S W L (affected S cell adj)
              (new_values_of state cell adj o) (new_filled_of state cell adj))
    as [b Hb].
  { intros k. apply affected_registered; assumption. }
  unfold try_orientation.
  destruct (decide (candidate_ok S state cell adj o)) as [Hok | Hno];
    unfold candidate_ok in *.
  - rewrite Hok. reflexivity.
  - rewrite Hb in *. destruct b; [congruence | reflexivity].
Qed.

Lemma try_adjacent_visit d adj g :
  adj ∈ get_adjacent S cell →
  try_adjacent S rec state cell d adj g
  = if decide ((adj ∉ filled_cells state)
               ∧ is_Some (cell_to_region S !! cell)
               ∧ is_Some (cell_to_region S !! adj))
    then for_each (visit S rec)
           (new_state_of state d cell adj
              <$> filter (candidate_ok S state cell adj) (orientations d)) g
    else Ok (Next g).
Proof.
  intros Hadj. unfold try_adjacent.
  destruct (decide _) as [(Hf & Hc & Ha) | Hno].
  - rewrite bool_decide_eq_false_2 by assumption.
    rewrite !bool_decide_eq_true_2 by assumption. cbn [negb orb].
    rewrite <- for_each_fmap, <- for_each_filter.
    apply for_each_ext. intros o g' _. apply try_orientation_visit, Hadj.
  - case_bool_decide; [reflexivity|].
    case_bool_decide; case_bool_decide; cbn [negb orb]; try reflexivity.
    tauto.
Qed.

Lemma try_domino_visit d g :
  try_domino S rec state cell d g
  = if decide (d ∉ used_dominoes state)
    then for_each (visit S rec)
           (filter (λ adj, (adj ∉ filled_cells state)
                           ∧ is_Some (cell_to_region S !! cell)
                           ∧ is_Some (cell_to_region S !! adj))
                   (get_adjacent S cell)
            ≫= λ adj, new_state_of state d cell adj
                        <$> filter (candidate_ok S state cell adj)
                                   (orientations d)) g
    else Ok (Next g).
Proof.
  unfold try_domino. case_bool_decide as Hu.
  { rewrite decide_False by tauto. reflexivity. }
  rewrite decide_True by assumption.
  rewrite <- for_each_bind, <- for_each_filter.
  apply for_each_ext. intros adj g' Hadj. apply try_adjacent_visit, Hadj.
Qed.

Lemma loops_children g :
  for_each (try_domino S rec state cell) (dominoes S) g
  = for_each (visit S rec) (children S state cell) g.
Proof.
  unfold children. rewrite <- for_each_bind, <- for_each_filter.
  apply for_each_ext. intros d g' _. apply try_domino_visit.
Qed.
End fusion.

(** ** Termination measure *)

(** the grid cells still unfilled *)
Definition unfilled_cells (S : Solver) (state : SolverState) : nat :=
  length (filter (λ x, x ∉ filled_cells state) (all_cells S)).

Lemma filter_length_lt {A} (P Q : A → Prop) `{∀ x, Decision (P x)}
    `{∀ x, Decision (Q x)} (l : list A) x0 :
  (∀ x, Q x → P x) → x0 ∈ l → P x0 → ¬ Q x0 →
  (length (filter Q l) < length (filter P l))%nat.
Proof.
  intros Himp. induction l as [|a l IH]; intros Hin HP HQ; [inversion Hin|].
  assert (length (filter Q l) ≤ length (filter P l))%nat as Hle.
  { clear IH Hin. induction l as [|b l IHl]; [reflexivity|].
    rewrite !filter_cons. destruct (decide (Q b)) as [q|q].
    - rewrite decide_True by auto. simpl. lia.
    - destruct (decide (P b)); simpl; lia. }
  rewrite !filter_cons. apply elem_of_cons in Hin as [<- | Hin].
  - rewrite decide_False, decide_True by assumption. simpl. lia.
  - specialize (IH Hin HP HQ). destruct (decide (Q a)) as [q|q].
    + rewrite decide_True by auto. simpl. lia.
    + destruct (decide (P a)); simpl; lia.
Qed.

Lemma extension_unfilled_cells S state state' :
  extension S state state' →
  (unfilled_cells S state' < unfilled_cells S state)%nat.
Proof.
  intros Hext.
  destruct (extension_fills_two _ _ _ Hext)
    as (cell & adj & _ & Hc & _ & Hin & _ & Hfill).
  unfold unfilled_cells. apply (filter_length_lt _ _ _ cell).
  - intros x. rewrite Hfill, !not_elem_of_union. tauto.
  - assumption.
  - assumption.
  - rewrite Hfill. intros Hn. apply Hn.
    apply elem_of_union_r, elem_of_union_l, elem_of_singleton. reflexivity.
Qed.

Lemma complete_no_extension S state state' :
  size (filled_cells state) = length (all_cells S) → ¬ extension S state state'.
Proof. intros Heq Hext. destruct Hext. contradiction. Qed.

(** ** What a call of [backtrack] does to the store *)

Definition sigs (g : Search) : list (gmap Cell Z) := cell_values <$> solutions g.

(** [seen_signatures] is the set of the recorded signatures, each recorded
    once *)
Record store_ok (g : Search) : Prop := {
  ok_nodup : NoDup (sigs g);
  ok_seen : ∀ m, m ∈ seen_signatures g ↔ m ∈ sigs g
}.

Definition cap_of (S : Solver) : Z := to_size_t (max_solutions S).

Record post (S : Solver) (from : SolverState → Prop) (g g' : Search) : Prop := {
  post_new : ∃ new, solutions g' = solutions g ++ new
                    ∧ ∀ s, s ∈ new → from s ∧ accepted S s;
  post_seen : seen_signatures g ⊆ seen_signatures g';
  post_ok : store_ok g → store_ok g';
  post_cap : Z.of_nat (length (solutions g'))
             ≤ Z.max (Z.of_nat (length (solutions g))) (cap_of S);
  post_all : cap_reached S g' = false →
             ∀ s, from s → accepted S s → cell_values s ∈ seen_signatures g'
}.

Lemma post_skip S (from : SolverState → Prop) g :
  (cap_reached S g = false →
   ∀ s, from s → accepted S s → cell_values s ∈ seen_signatures g) →
  post S from g g.
Proof.
  intros H. split.
  - exists []. rewrite app_nil_r. split; [reflexivity|]. intros s Hs. inversion Hs.
  - reflexivity.
  - tauto.
  - lia.
  - assumption.
Qed.

Lemma cap_reached_mono S g g' new :
  solutions g' = solutions g ++ new →
  cap_reached S g' = false → cap_reached S g = false.
Proof.
  unfold cap_reached. intros -> H. rewrite length_app in H.
  apply Z.leb_gt in H. apply Z.leb_gt. lia.
Qed.

Lemma post_trans S (from1 from2 from : SolverState → Prop) g g1 g2 :
  (∀ s, from1 s → from s) → (∀ s, from2 s → from s) →
  (∀ s, from s → accepted S s → from1 s ∨ from2 s) →
  post S from1 g g1 → post S from2 g1 g2 → post S from g g2.
Proof.
  intros H1 H2 Hcov [(n1 & E1 & N1) S1 O1 C1 A1] [(n2 & E2 & N2) S2 O2 C2 A2].
  split.
  - exists (n1 ++ n2). rewrite E2, E1, app_assoc. split; [reflexivity|].
    intros s [Hs|Hs]%elem_of_app.
    + destruct (N1 s Hs). auto.
    + destruct (N2 s Hs). auto.
  - etrans; eassumption.
  - auto.
  - lia.
  - intros Hcap s Hs Hacc. destruct (Hcov s Hs Hacc) as [Hf | Hf].
    + apply S2, A1; auto. eapply cap_reached_mono; eauto.
    + apply A2; auto.
Qed.

Lemma record_solution_post S state g :
  cap_reached S g = false → accepted S state →
  post S (λ s, s = state) g (record_solution state g).
Proof.
  intros Hcap Hacc. unfold record_solution. case_bool_decide as Hseen.
  - apply post_skip. intros _ s -> _. assumption.
  - split; simpl.
    + exists [state]. split; [reflexivity|].
      intros s ->%list_elem_of_singleton. auto.
    + apply union_subseteq_r.
    + intros [Hnd Hs]. split; unfold sigs; simpl.
      * rewrite fmap_app. apply NoDup_app. split; [assumption|]. split.
        -- intros m Hm Hm'. simpl in Hm'. apply list_elem_of_singleton in Hm'.
           subst m. apply Hseen, Hs, Hm.
        -- apply NoDup_singleton.
      * intros m. rewrite fmap_app, elem_of_app, elem_of_union, elem_of_singleton.
        simpl. rewrite list_elem_of_singleton, Hs. unfold sigs. tauto.
    + rewrite length_app; simpl. unfold cap_reached in Hcap.
      apply Z.leb_gt in Hcap. unfold cap_of. lia.
    + intros _ s -> _. apply elem_of_union_l, elem_of_singleton. reflexivity.
Qed.

Section search.
Variable S : Solver.
Hypothesis W : well_indexed S.
Hypothesis L : links_ok S.

(** the loop over the children, given that the recursive calls behave *)
Lemma visit_loop_post (rec : SolverState → Search → result Search) children g :
  (∀ child g, child ∈ children →
     ∃ g', rec child g = Ok g' ∧ post S (descendant S child) g g') →
  ∃ c, for_each (visit S rec) children g = Ok c
     ∧ post S (λ s, ∃ child, child ∈ children ∧ descendant S child s)
         g (store_of c).
Proof.
  revert g. induction children as [|child children IH]; intros g Hrec; simpl.
  - eexists. split; [reflexivity|]. simpl. apply post_skip.
    intros _ s (child & Hin & _). inversion Hin.
  - destruct (Hrec child g) as (g1 & Hg1 & P1); [apply list_elem_of_here|].
    unfold visit at 1. rewrite Hg1. cbn [rbind].
    destruct (cap_reached S g1) eqn:Hcap; cbn [rbind].
    + eexists. split; [reflexivity|]. simpl.
      destruct P1 as [(n1 & E1 & N1) S1 O1 C1 A1]. split; auto.
      * exists n1. split; [assumption|]. intros s Hs. destruct (N1 s Hs).
        split; [|assumption]. exists child. split; [apply list_elem_of_here | assumption].
      * congruence.
    + destruct (IH g1) as (c & Hc & P2).
      { intros child' g' Hin. apply Hrec, list_elem_of_further, Hin. }
      exists c. split; [assumption|].
      eapply post_trans; [| | | exact P1 | exact P2].
      * intros s Hs. exists child. split; [apply list_elem_of_here | assumption].
      * intros s (child' & Hin & Hs). exists child'.
        split; [apply list_elem_of_further|]; assumption.
      * intros s (child' & [->|Hin]%elem_of_cons & Hs) _; [left | right]; eauto.
Qed.

Lemma descendant_inv state s :
  descendant S state s →
  s = state ∨ ∃ child, extension S state child ∧ descendant S child s.
Proof.
  intros H. apply rtc_inv in H as [-> | (child & ? & ?)]; eauto.
Qed.

Lemma backtrack_post fuel state g :
  (unfilled_cells S state < fuel)%nat →
  ∃ g', backtrack fuel S state g = Ok g' ∧ post S (descendant S state) g g'.
Proof.
  revert state g. induction fuel as [|fuel IH]; intros state g Hfuel; [lia|].
  cbn [backtrack].
  destruct (cap_reached S g) eqn:Hcap.
  { eexists. split; [reflexivity|]. apply post_skip. congruence. }
  case_bool_decide as Hcomplete.
  - destruct (check_all_defined S W L (regions S) state) as [b Hb]; [auto|].
    rewrite Hb. cbn [rbind]. destruct b; eexists; (split; [reflexivity|]).
    + eapply post_trans;
        [| | | apply (post_skip S (λ _, False)); intros _ s []
             | apply record_solution_post; [assumption | split; assumption]].
      * intros s [].
      * intros s ->. apply rtc_refl.
      * intros s [-> | (child & Hext & _)]%descendant_inv _; [auto|].
        exfalso. eapply complete_no_extension; eauto.
    + apply post_skip.
      intros _ s [-> | (child & Hext & _)]%descendant_inv [_ Hacc].
      * congruence.
      * exfalso. eapply complete_no_extension; eauto.
  - destruct (choose_cell_defined S W state) as [cell Hcell].
    rewrite Hcell. cbn [rbind].
    assert (∀ s, descendant S state s → accepted S s →
              ∃ child, child ∈ children S state cell ∧ 0 ≤ cell.1
                       ∧ descendant S child s) as Hcov.
    { intros s [-> | (child & Hext & Hs)]%descendant_inv [Hsz _];
        [contradiction|].
      apply extension_children in Hext as (cell' & Hcell' & Hpos & _ & Hin).
      assert (cell' = cell) as -> by congruence. eauto. }
    destruct (Z.ltb_spec cell.1 0) as [Hneg | Hpos].
    + eexists. split; [reflexivity|]. apply post_skip.
      intros _ s Hs Hacc. destruct (Hcov s Hs Hacc) as (_ & _ & ? & _). lia.
    + destruct (choose_cell_unfilled _ _ _ Hcell Hpos) as [Hin Hunf].
      rewrite (loops_children S W L _ state cell Hin).
      destruct (visit_loop_post (backtrack fuel S) (children S state cell) g)
        as (c & -> & P).
      { intros child g0 Hchild. apply IH.
        apply (children_extension _ _ _ _ Hcomplete Hcell Hpos) in Hchild.
        apply extension_unfilled_cells in Hchild. lia. }
      cbn [rbind]. eexists. split; [reflexivity|].
      eapply post_trans; [| | | apply (post_skip S (λ _, False)); intros _ s [] | exact P].
      * intros s [].
      * intros s (child & Hchild & Hs).
        apply (children_extension _ _ _ _ Hcomplete Hcell Hpos) in Hchild.
        eapply rtc_l; eauto.
      * intros s Hs Hacc. right.
        destruct (Hcov s Hs Hacc) as (child & ? & _ & ?). eauto.
Qed.

Lemma empty_store_ok : store_ok (mkSearch [] ∅).
Proof.
  split; unfold sigs; simpl; [constructor|].
  intros m. split; [intros H; exfalso; revert H; apply not_elem_of_empty|].
  intros H; inversion H.
Qed.

(** [solve] returns, and the store it leaves is described by [post] *)
Lemma solve_post :
  ∃ g, solve S = Ok (Z.of_nat (length (solutions g)), g)
     ∧ post S (reachable S) (mkSearch [] ∅) g.
Proof.
  destruct (backtrack_post (fuel_of S) initial (mkSearch [] ∅)) as (g & Hg & P).
  { unfold fuel_of, unfilled_cells. apply Nat.lt_succ_r, length_filter. }
  exists g. unfold solve. rewrite Hg. split; [reflexivity | exact P].
Qed.
End search.

(** ** The solutions of a configuration *)

(** a signature of the configuration: the value map of a complete state of
    the search tree that passes the strict check *)
Definition solution_signature (S : Solver) (m : gmap Cell Z) : Prop :=
  ∃ state, reachable S state ∧ accepted S state ∧ cell_values state = m.

#[global] Instance accepted_dec S state : Decision (accepted S state).
Proof. unfold accepted. apply _. Defined.

(** The signatures below [state], by exhaustive enumeration of the search
    tree: no cap, no store. *)
Fixpoint enumerate (fuel : nat) (S : Solver) (state : SolverState)
    : list (gmap Cell Z) :=
  match fuel with
  | O => []
  | Datatypes.S fuel' =>
      if decide (accepted S state) then [cell_values state]
      else if decide (size (filled_cells state) = length (all_cells S)) then []
      else match choose_cell S state with
           | Ok cell =>
               if cell.1 <? 0 then []
               else children S state cell ≫= enumerate fuel' S
           | _ => []
           end
  end.

(** the distinct solutions of the configuration *)
Definition all_signatures (S : Solver) : gset (gmap Cell Z) :=
  list_to_set (enumerate (fuel_of S) S initial).

(** the true number of distinct solutions *)
Definition true_count (S : Solver) : Z := Z.of_nat (size (all_signatures S)).

Lemma enumerate_spec S fuel state m :
  (unfilled_cells S state < fuel)%nat →
  m ∈ enumerate fuel S state
  ↔ ∃ s, descendant S state s ∧ accepted S s ∧ cell_values s = m.
Proof.
  revert state. induction fuel as [|fuel IH]; intros state Hfuel; [lia|].
  cbn [enumerate]. destruct (decide (accepted S state)) as [Hacc | Hnacc].
  - rewrite list_elem_of_singleton. split.
    + intros ->. exists state. split; [apply rtc_refl | auto].
    + intros (s & [-> | (child & Hext & _)]%rtc_inv & _ & <-); [reflexivity|].
      exfalso. destruct Hacc as [Hsz _]. eapply complete_no_extension; eauto.
  - destruct (decide (size (filled_cells state) = length (all_cells S)))
      as [Hsz | Hsz].
    { split; [intros H; inversion H|].
      intros (s & [-> | (child & Hext & _)]%rtc_inv & Hs & _); [contradiction|].
      exfalso. eapply complete_no_extension; eauto. }
    assert (∀ cell, choose_cell S state = Ok cell → 0 ≤ cell.1 →
              m ∈ children S state cell ≫= enumerate fuel S
              ↔ ∃ s, descendant S state s ∧ accepted S s ∧ cell_values s = m)
      as Hloop.
    { intros cell Hcell Hpos. rewrite list_elem_of_bind. split.
      - intros (child & Hm & Hchild).
        apply (children_extension _ _ _ _ Hsz Hcell Hpos) in Hchild.
        apply IH in Hm as (s & Hs & Hacc & Hsig);
          [|apply extension_unfilled_cells in Hchild; lia].
        exists s. split; [eapply rtc_l; eauto | auto].
      - intros (s & [-> | (child & Hext & Hs)]%rtc_inv & Hacc & Hsig);
          [contradiction|].
        pose proof (extension_unfilled_cells _ _ _ Hext) as Hlt.
        apply extension_children in Hext as (cell' & Hcell' & _ & _ & Hin).
        assert (cell' = cell) as -> by congruence.
        exists child. split; [|assumption]. apply IH; [lia | eauto]. }
    assert ((∀ cell, choose_cell S state = Ok cell → cell.1 < 0) →
            ¬ ∃ s, descendant S state s ∧ accepted S s ∧ cell_values s = m)
      as Hnone.
    { intros Hno (s & [-> | (child & Hext & Hs)]%rtc_inv & Hacc & _);
        [contradiction|].
      apply extension_children in Hext as (cell' & Hcell' & Hpos & _).
      specialize (Hno _ Hcell'). lia. }
    destruct (choose_cell S state) as [cell | |] eqn:Hcell.
    + destruct (Z.ltb_spec cell.1 0) as [Hneg | Hpos]; [|apply Hloop; auto].
      split; [intros H; inversion H|]. intros H. exfalso. revert H.
      apply Hnone. intros cell' [= <-]. assumption.
    + split; [intros H; inversion H|]. intros H. exfalso. revert H.
      apply Hnone. intros cell' [=].
    + split; [intros H; inversion H|]. intros H. exfalso. revert H.
      apply Hnone. intros cell' [=].
Qed.

Lemma all_signatures_spec S m :
  m ∈ all_signatures S ↔ solution_signature S m.
Proof.
  unfold all_signatures, solution_signature, reachable.
  rewrite elem_of_list_to_set. apply enumerate_spec.
  unfold fuel_of, unfilled_cells. apply Nat.lt_succ_r, length_filter.
Qed.

(** ** The search finds the tilings of the grid

    The solutions of the search tree, stated without the search: the value
    maps of the ways to lay distinct tiles of the set on pairs of adjacent
    cells so that every grid cell is covered once and every region passes
    the strict check. *)

(** a tile laid on the cells [l_a] and [l_b], which get [l_va] and [l_vb] *)
Record laid := mkLaid {
  l_domino : Domino;
  l_a : Cell;
  l_b : Cell;
  l_va : Z;
  l_vb : Z
}.

Definition laid_cells (T : list laid) : list Cell :=
  T ≫= λ l, [l_a l; l_b l].

Fixpoint tiling_values (T : list laid) : gmap Cell Z :=
  match T with
  | [] => ∅
  | l :: T' => <[l_b l := l_vb l]> (<[l_a l := l_va l]> (tiling_values T'))
  end.

Definition valid_laid (S : Solver) (l : laid) : Prop :=
  l_domino l ∈ dominoes S
  ∧ l_a l ∈ all_cells S
  ∧ l_b l ∈ get_adjacent S (l_a l)
  ∧ (l_va l, l_vb l) ∈ orientations (l_domino l).

(** tiles of the set, each used once, on pairwise disjoint pairs of adjacent
    grid cells *)
Record partial_tiling (S : Solver) (T : list laid) : Prop := {
  pt_valid : ∀ l, l ∈ T → valid_laid S l;
  pt_tiles : NoDup (l_domino <$> T);
  pt_cells : NoDup (laid_cells T)
}.

Definition tiling (S : Solver) (T : list laid) : Prop :=
  partial_tiling S T ∧ ∀ x, x ∈ all_cells S → x ∈ laid_cells T.

(** the state in which every grid cell is filled, with the values [m] *)
Definition full_state (S : Solver) (m : gmap Cell Z) : SolverState :=
  mkState [] ∅ (list_to_set (all_cells S)) m.

Definition puzzle_solution (S : Solver) (m : gmap Cell Z) : Prop :=
  ∃ T, tiling S T ∧ tiling_values T = m
       ∧ check_all S (regions S) (full_state S m) = Ok true.

Lemma laid_cells_cons l T : laid_cells (l :: T) = l_a l :: l_b l :: laid_cells T.
Proof. reflexivity. Qed.

Lemma tiling_values_dom T : dom (tiling_values T) = list_to_set (laid_cells T).
Proof.
  induction T as [|l T IH].
  - apply dom_empty_L.
  - rewrite laid_cells_cons, !list_to_set_cons. cbn [tiling_values].
    rewrite !dom_insert_L, IH.
    rewrite (assoc_L (∪)), (comm_L (∪) {[l_b l]}), <- (assoc_L (∪)). reflexivity.
Qed.

Lemma check_all_fields S regs state state' :
  cell_values state = cell_values state' →
  filled_cells state = filled_cells state' →
  check_all S regs state = check_all S regs state'.
Proof.
  intros Hv Hf. induction regs as [|reg regs IH]; simpl; [reflexivity|].
  rewrite Hv, Hf, IH. reflexivity.
Qed.

(** the laid tiles behind a state of the search *)
Record laid_out (S : Solver) (state : SolverState) (T : list laid) : Prop := {
  lo_tiling : partial_tiling S T;
  lo_filled : filled_cells state = list_to_set (laid_cells T);
  lo_values : cell_values state = tiling_values T;
  lo_used : used_dominoes state = list_to_set (l_domino <$> T)
}.

Lemma extension_laid_out S state state' T :
  extension S state state' → laid_out S state T →
  ∃ l, laid_out S state' (l :: T).
Proof.
  intros Hext [[Hv Ht Hc] Hf Hm Hu].
  destruct Hext as [cell d adj o Hsz Hcell Hpos Hd Hdu Hadj Hadjf _ _ Ho Hok].
  destruct (choose_cell_unfilled _ _ _ Hcell Hpos) as [Hin Hcf].
  destruct (get_adjacent_elem _ _ _ Hadj) as [_ Hne].
  exists (mkLaid d cell adj o.1 o.2). split; [split|..].
  - intros l [-> | Hl]%elem_of_cons; [|auto].
    unfold valid_laid; simpl. rewrite <- surjective_pairing. auto.
  - rewrite fmap_cons. apply NoDup_cons. split; [|assumption]. simpl.
    intros Hd'. apply Hdu. rewrite Hu. apply elem_of_list_to_set, Hd'.
  - rewrite laid_cells_cons. cbn [l_a l_b]. apply NoDup_cons. split.
    + rewrite elem_of_cons. intros [-> | Hc']; [congruence|].
      apply Hcf. rewrite Hf. apply elem_of_list_to_set, Hc'.
    + apply NoDup_cons. split; [|assumption].
      intros Hc'. apply Hadjf. rewrite Hf. apply elem_of_list_to_set, Hc'.
  - cbn [new_state_of filled_cells]. unfold new_filled_of.
    rewrite Hf, laid_cells_cons, !list_to_set_cons. cbn [l_a l_b].
    rewrite (assoc_L (∪)), (comm_L (∪) {[adj]}), <- (assoc_L (∪)). reflexivity.
  - cbn [new_state_of cell_values]. unfold new_values_of. rewrite Hm. reflexivity.
  - cbn [new_state_of used_dominoes]. rewrite Hu, fmap_cons, list_to_set_cons.
    reflexivity.
Qed.

Lemma reachable_laid_out S state :
  reachable S state → ∃ T, laid_out S state T.
Proof.
  revert state. unfold reachable, descendant. apply rtc_ind_r.
  - exists []. split; [split|..]; simpl; try reflexivity.
    + intros l Hl. inversion Hl.
    + constructor.
    + constructor.
  - intros y z _ Hext [T HT].
    destruct (extension_laid_out _ _ _ _ Hext HT) as [l Hl]. eauto.
Qed.

Lemma laid_cells_in_grid S T x :
  partial_tiling S T → x ∈ laid_cells T → x ∈ all_cells S.
Proof.
  intros [Hv _ _]. unfold laid_cells. rewrite list_elem_of_bind.
  intros (l & Hx & Hl). destruct (Hv l Hl) as (_ & Ha & Hb & _).
  apply get_adjacent_elem in Hb as [Hb _].
  apply elem_of_cons in Hx as [-> | Hx]; [assumption|].
  apply list_elem_of_singleton in Hx as ->. assumption.
Qed.

Lemma complete_filled (S : Solver) (filled : gset Cell) :
  increasing (all_cells S) →
  filled ⊆ list_to_set (all_cells S) →
  size filled = length (all_cells S) →
  filled = list_to_set (all_cells S).
Proof.
  intros Hinc Hsub Hsz. apply set_subseteq_size_eq; [assumption|].
  rewrite size_list_to_set by (apply increasing_NoDup, Hinc). lia.
Qed.

Lemma solution_signature_tiling S m :
  increasing (all_cells S) →
  solution_signature S m → puzzle_solution S m.
Proof.
  intros Hinc (state & Hreach & [Hsz Hacc] & <-).
  destruct (reachable_laid_out _ _ Hreach) as [T [HT Hf Hm Hu]].
  assert (filled_cells state = list_to_set (all_cells S)) as Hfull.
  { apply complete_filled; [assumption | | assumption].
    intros x. rewrite Hf, !elem_of_list_to_set. apply laid_cells_in_grid, HT. }
  exists T. split; [split; [assumption|]|split; [auto|]].
  - intros x Hx. apply (elem_of_list_to_set (C := gset Cell)).
    rewrite <- Hf, Hfull. apply elem_of_list_to_set, Hx.
  - rewrite <- Hacc. apply check_all_fields; simpl; auto.
Qed.

(** *** The partial checks never reject a part of a solution *)

Lemma values_of_acc (values : gmap Cell Z) (cs : list Cell) (acc : list Z) :
  foldl (λ vals cell,
           match values !! cell with
           | Some v => vals ++ [v]
           | None => vals
           end) acc cs
  = acc ++ omap (λ cell, values !! cell) cs.
Proof.
  revert acc. induction cs as [|x cs IH]; intros acc; simpl.
  - rewrite app_nil_r. reflexivity.
  - rewrite IH. destruct (values !! x); [|reflexivity].
    rewrite <- app_assoc. reflexivity.
Qed.

Lemma values_of_elem (values : gmap Cell Z) cs v :
  v ∈ values_of values cs ↔ ∃ x, x ∈ cs ∧ values !! x = Some v.
Proof.
  unfold values_of. rewrite values_of_acc. simpl. rewrite list_elem_of_omap.
  reflexivity.
Qed.

Lemma all_same_spec first vals :
  all_same first vals = true ↔ ∀ v, v ∈ vals → v = first.
Proof.
  induction vals as [|v vals IH]; simpl.
  - split; [intros _ v H; inversion H | reflexivity].
  - destruct (Z.eqb_spec v first) as [-> | Hne]; simpl.
    + rewrite IH. split.
      * intros H v [-> | Hv]%elem_of_cons; auto.
      * intros H v Hv. apply H, elem_of_cons. auto.
    + split; [discriminate|]. intros H. exfalso. apply Hne, H, list_elem_of_here.
Qed.

Section pruning.
Variable S : Solver.
(** the values of a solution, and a part of them *)
Variables (m part : gmap Cell Z).
Hypothesis Hpart : part ⊆ m.
Hypothesis Hnonneg : ∀ x v, m !! x = Some v → 0 ≤ v.
(** the sums of [m] over the regions are [int]s *)
Hypothesis Hfit : ∀ k cs, region_cells S k = Ok cs → member_sum m cs ≤ INT_MAX.

Lemma value_at_part x : value_at part x ≤ value_at m x.
Proof.
  unfold value_at. destruct (part !! x) as [v|] eqn:E.
  - rewrite (lookup_weaken _ _ _ _ E Hpart). reflexivity.
  - simpl. destruct (m !! x) as [v|] eqn:E'; simpl; [eauto | lia].
Qed.

Lemma member_sum_part cs : member_sum part cs ≤ member_sum m cs.
Proof.
  unfold member_sum. induction cs as [|x cs IH]; [reflexivity|].
  rewrite !fmap_cons. cbn [Zsum]. pose proof (value_at_part x). lia.
Qed.

Lemma member_sum_filled cs :
  all_filled (dom part) cs = true → member_sum part cs = member_sum m cs.
Proof.
  rewrite all_filled_spec. unfold fully_filled, member_sum.
  induction cs as [|x cs IH]; intros H; [reflexivity|].
  rewrite !fmap_cons. cbn [Zsum]. rewrite IH.
  - f_equal. unfold value_at.
    assert (x ∈ dom part) as Hx by apply H, list_elem_of_here.
    apply elem_of_dom in Hx as [v Hv].
    rewrite Hv, (lookup_weaken _ _ _ _ Hv Hpart). reflexivity.
  - intros y Hy. apply H, list_elem_of_further, Hy.
Qed.

Lemma member_sum_part_nonneg cs : 0 ≤ member_sum part cs.
Proof.
  unfold member_sum. induction cs as [|x cs IH]; [reflexivity|].
  rewrite fmap_cons. cbn [Zsum].
  assert (0 ≤ value_at part x); [|lia].
  unfold value_at. destruct (part !! x) as [v|] eqn:E; simpl; [|lia].
  apply (Hnonneg x), (lookup_weaken _ _ _ _ E Hpart).
Qed.

Lemma sums_in_int k cs :
  region_cells S k = Ok cs →
  in_int (member_sum m cs) ∧ in_int (member_sum part cs).
Proof.
  intros Hcs. pose proof (Hfit k cs Hcs). pose proof (member_sum_part cs).
  pose proof (member_sum_part_nonneg cs).
  unfold in_int, INT_MIN. unfold INT_MAX in *. lia.
Qed.

Lemma partial_check_sound (region : Region) (full : gset Cell) :
  check_constraint S region m full false = Ok true →
  check_constraint S region part (dom part) true = Ok true.
Proof.
  unfold check_constraint, is_region_complete, get_region_sum, get_region_values.
  destruct (region_cells S (id region)) as [cs| |] eqn:Hcs; cbn [rbind];
    try discriminate.
  destruct (sums_in_int _ _ Hcs) as [Hm Hp].
  destruct (type region).
  - rewrite (sum_cells_member _ _ Hm), (sum_cells_member _ _ Hp).
    destruct (all_filled full cs); [|simpl; discriminate].
    intros [= Hsum%Z.eqb_eq].
    destruct (all_filled (dom part) cs) eqn:E; f_equal.
    + apply Z.eqb_eq. rewrite <- Hsum. apply member_sum_filled, E.
    + simpl. apply Z.leb_le. rewrite <- Hsum. apply member_sum_part.
  - intros Hfull.
    destruct (values_of part cs) as [|first vals] eqn:E; [reflexivity|].
    f_equal. apply all_same_spec. intros v Hv.
    assert (∀ w, w ∈ values_of part cs → w ∈ values_of m cs) as Hin.
    { intros w (x & Hx & Hw)%values_of_elem. apply values_of_elem.
      exists x. split; [assumption|]. eapply lookup_weaken; eauto. }
    assert (first ∈ values_of m cs) as Hfirst
      by (apply Hin; rewrite E; apply list_elem_of_here).
    assert (v ∈ values_of m cs) as Hv' by (apply Hin; rewrite E; exact Hv).
    destruct (values_of m cs) as [|first_m vals_m]; [inversion Hfirst|].
    assert (all_same first_m (first_m :: vals_m) = true) as Hsame by congruence.
    rewrite all_same_spec in Hsame.
    rewrite (Hsame _ Hv'), (Hsame _ Hfirst). reflexivity.
  - destruct (all_filled full cs); [|simpl; discriminate]. cbn [negb].
    destruct (region_cells S (linked_region_id region)) as [cl| |] eqn:Hcl;
      cbn [rbind]; try discriminate.
    destruct (sums_in_int _ _ Hcl) as [Hm' Hp'].
    destruct (all_filled full cl); [|simpl; discriminate]. cbn [negb].
    rewrite (sum_cells_member _ _ Hm), (sum_cells_member _ _ Hm').
    intros [= Hlt].
    destruct (all_filled (dom part) cs) eqn:E1; [|reflexivity]. cbn [negb].
    destruct (all_filled (dom part) cl) eqn:E2; [|reflexivity]. cbn [negb].
    rewrite (sum_cells_member _ _ Hp), (sum_cells_member _ _ Hp').
    rewrite !member_sum_filled by assumption.
    rewrite Hlt. reflexivity.
  - destruct (all_filled full cs); [|simpl; discriminate]. cbn [negb].
    destruct (region_cells S (linked_region_id region)) as [cl| |] eqn:Hcl;
      cbn [rbind]; try discriminate.
    destruct (sums_in_int _ _ Hcl) as [Hm' Hp'].
    destruct (all_filled full cl); [|simpl; discriminate]. cbn [negb].
    rewrite (sum_cells_member _ _ Hm), (sum_cells_member _ _ Hm').
    intros [= Hlt].
    destruct (all_filled (dom part) cs) eqn:E1; [|reflexivity]. cbn [negb].
    destruct (all_filled (dom part) cl) eqn:E2; [|reflexivity]. cbn [negb].
    rewrite (sum_cells_member _ _ Hp), (sum_cells_member _ _ Hp').
    rewrite !member_sum_filled by assumption.
    rewrite Hlt. reflexivity.
Qed.
End pruning.

Lemma check_all_true S regs state reg :
  check_all S regs state = Ok true → reg ∈ regs →
  check_constraint S reg (cell_values state) (filled_cells state) false = Ok true.
Proof.
  induction regs as [|a regs IH]; intros Hall Hin; [inversion Hin|].
  simpl in Hall.
  destruct (check_constraint S a _ _ false) as [[|]| |] eqn:E; simpl in Hall;
    try discriminate.
  apply elem_of_cons in Hin as [-> | Hin]; auto.
Qed.

Lemma check_affected_true S rids values filled :
  (∀ k, k ∈ rids → ∃ reg, region_by_id S !! k = Some reg
                          ∧ check_constraint S reg values filled true = Ok true) →
  check_affected S rids values filled = Ok true.
Proof.
  induction rids as [|k rids IH]; intros H; simpl; [reflexivity|].
  destruct (H k) as (reg & Hr & Hc); [apply list_elem_of_here|].
  rewrite Hr. cbn [of_option rbind]. rewrite Hc. cbn [rbind].
  apply IH. intros k' Hk'. apply H, list_elem_of_further, Hk'.
Qed.

(** *** Every tiling that passes the strict checks is found *)

Lemma laid_cells_elem T x :
  x ∈ laid_cells T ↔ ∃ l, l ∈ T ∧ (x = l_a l ∨ x = l_b l).
Proof.
  unfold laid_cells. rewrite list_elem_of_bind. split.
  - intros (l & Hx & Hl). exists l. split; [assumption|].
    apply elem_of_cons in Hx as [-> | Hx]; [auto|].
    apply list_elem_of_singleton in Hx. auto.
  - intros (l & Hl & [-> | ->]); exists l; (split; [|assumption]).
    + apply list_elem_of_here.
    + apply list_elem_of_further, list_elem_of_here.
Qed.

Lemma laid_cells_owner T l l' x :
  NoDup (laid_cells T) → l ∈ T → l' ∈ T →
  x = l_a l ∨ x = l_b l → x = l_a l' ∨ x = l_b l' → l = l'.
Proof.
  induction T as [|t T IH]; intros Hnd Hl Hl' Hx Hx'; [inversion Hl|].
  rewrite laid_cells_cons in Hnd.
  apply NoDup_cons in Hnd as [Ha Hnd]. apply NoDup_cons in Hnd as [Hb Hnd].
  rewrite not_elem_of_cons in Ha. destruct Ha as [_ Ha].
  assert (∀ l0, l0 ∈ T → x = l_a l0 ∨ x = l_b l0 → x = l_a t ∨ x = l_b t → False)
    as Hno.
  { intros l0 Hl0 H0 [-> | ->]; [apply Ha | apply Hb];
      apply laid_cells_elem; eauto. }
  apply elem_of_cons in Hl as [-> | Hl], Hl' as [-> | Hl']; auto.
  - exfalso. eauto.
  - exfalso. eauto.
Qed.

Lemma laid_ends_differ T l : NoDup (laid_cells T) → l ∈ T → l_a l ≠ l_b l.
Proof.
  induction T as [|t T IH]; intros Hnd Hl; [inversion Hl|].
  rewrite laid_cells_cons in Hnd.
  apply NoDup_cons in Hnd as [Ha Hnd]. apply NoDup_cons in Hnd as [_ Hnd].
  rewrite not_elem_of_cons in Ha.
  apply elem_of_cons in Hl as [-> | Hl]; [tauto | auto].
Qed.

Lemma tiling_values_lookup T l :
  NoDup (laid_cells T) → l ∈ T →
  tiling_values T !! l_a l = Some (l_va l)
  ∧ tiling_values T !! l_b l = Some (l_vb l).
Proof.
  induction T as [|t T IH]; intros Hnd Hl; [inversion Hl|].
  pose proof (laid_ends_differ _ t Hnd (list_elem_of_here _ _)) as Hne.
  cbn [tiling_values]. apply elem_of_cons in Hl as [-> | Hl].
  - rewrite lookup_insert_ne by congruence. rewrite !lookup_insert_eq. auto.
  - assert (∀ x, x = l_a l ∨ x = l_b l → x ≠ l_a t ∧ x ≠ l_b t) as Hd.
    { intros x Hx. split; intros ->.
      - assert (l = t) as -> by
          (eapply (laid_cells_owner (t :: T));
           eauto using list_elem_of_here, list_elem_of_further).
        rewrite laid_cells_cons in Hnd. apply NoDup_cons in Hnd as [_ Hnd].
        apply NoDup_cons in Hnd as [Hb Hnd].
        apply Hb, laid_cells_elem. eauto.
      - assert (l = t) as -> by
          (eapply (laid_cells_owner (t :: T));
           eauto using list_elem_of_here, list_elem_of_further).
        rewrite laid_cells_cons in Hnd. apply NoDup_cons in Hnd as [_ Hnd].
        apply NoDup_cons in Hnd as [Hb Hnd].
        apply Hb, laid_cells_elem. eauto. }
    destruct (Hd (l_a l)) as [? ?]; [auto|].
    destruct (Hd (l_b l)) as [? ?]; [auto|].
    rewrite !lookup_insert_ne by congruence. apply IH; [|assumption].
    rewrite laid_cells_cons in Hnd. apply NoDup_cons in Hnd as [_ Hnd].
    apply NoDup_cons in Hnd as [_ Hnd]. assumption.
Qed.

Lemma tiling_values_nonneg T x v :
  (∀ l, l ∈ T → 0 ≤ l_va l ∧ 0 ≤ l_vb l) →
  tiling_values T !! x = Some v → 0 ≤ v.
Proof.
  induction T as [|t T IH]; intros H; cbn [tiling_values].
  - rewrite lookup_empty. discriminate.
  - destruct (H t) as [? ?]; [apply list_elem_of_here|].
    rewrite !lookup_insert. repeat case_decide.
    + intros [= <-]. assumption.
    + intros [= <-]. assumption.
    + apply IH. intros l Hl. apply H, list_elem_of_further, Hl.
Qed.

Lemma tiling_values_le T P x v :
  (∀ l, l ∈ T → l_va l ≤ P ∧ l_vb l ≤ P) →
  tiling_values T !! x = Some v → v ≤ P.
Proof.
  induction T as [|t T IH]; intros H; cbn [tiling_values].
  - rewrite lookup_empty. discriminate.
  - destruct (H t) as [? ?]; [apply list_elem_of_here|].
    rewrite !lookup_insert. repeat case_decide.
    + intros [= <-]. assumption.
    + intros [= <-]. assumption.
    + apply IH. intros l Hl. apply H, list_elem_of_further, Hl.
Qed.

Lemma member_sum_le (m : gmap Cell Z) (cs : list Cell) (P : Z) :
  0 ≤ P → (∀ x v, m !! x = Some v → v ≤ P) →
  member_sum m cs ≤ Z.of_nat (length cs) * P.
Proof.
  intros HP Hm. unfold member_sum. induction cs as [|x cs IH]; [simpl; lia|].
  rewrite fmap_cons. cbn [Zsum length].
  assert (value_at m x ≤ P).
  { unfold value_at. destruct (m !! x) as [v|] eqn:E; simpl; [eauto | lia]. }
  lia.
Qed.

(** The pips are at most [P], and no region has so many cells that the pip
    [P] on each of them would add up to more than [INT_MAX]: the sums over
    the regions are [int]s. *)
Definition sums_fit (doms : list Domino) (regs : list Region) : Prop :=
  ∃ P, 0 ≤ P
       ∧ (∀ d, d ∈ doms → low d ≤ P ∧ high d ≤ P)
       ∧ ∀ reg, reg ∈ regs → Z.of_nat (length (cells reg)) * P ≤ INT_MAX.

Lemma orientations_elem d o :
  o ∈ orientations d → o = (low d, high d) ∨ o = (high d, low d).
Proof.
  unfold orientations. rewrite elem_of_cons. intros [-> | H]; [auto|].
  destruct (negb _); [|inversion H].
  apply list_elem_of_singleton in H. auto.
Qed.

Lemma orientations_swap d x y :
  (x, y) ∈ orientations d → (y, x) ∈ orientations d.
Proof.
  intros H. unfold orientations.
  destruct (Z.eqb_spec (low d) (high d)) as [Heq | Hne]; simpl.
  - apply orientations_elem in H as [[= -> ->] | [= -> ->]];
      rewrite Heq; apply list_elem_of_here.
  - apply orientations_elem in H as [[= -> ->] | [= -> ->]].
    + apply list_elem_of_further, list_elem_of_here.
    + apply list_elem_of_here.
Qed.

Lemma get_adjacent_sym S a b :
  b ∈ get_adjacent S a → a ∈ all_cells S → a ∈ get_adjacent S b.
Proof.
  unfold get_adjacent. rewrite !list_elem_of_filter. intros [_ Hb] Ha.
  split; [assumption|]. destruct a as [r c]. simpl in Hb.
  repeat (apply elem_of_cons in Hb as [-> | Hb]); simpl.
  - replace (r, c) with (r - 1 + 1, c) at 1 by (f_equal; lia).
    apply list_elem_of_further, list_elem_of_here.
  - replace (r, c) with (r + 1 - 1, c) at 1 by (f_equal; lia).
    apply list_elem_of_here.
  - replace (r, c) with (r, c - 1 + 1) at 1 by (f_equal; lia).
    do 3 apply list_elem_of_further. apply list_elem_of_here.
  - replace (r, c) with (r, c + 1 - 1) at 1 by (f_equal; lia).
    do 2 apply list_elem_of_further. apply list_elem_of_here.
  - inversion Hb.
Qed.

Lemma choose_cell_picks S state :
  well_indexed S →
  (∀ reg, reg ∈ regions S → Z.of_nat (length (cells reg)) < INT_MAX) →
  (∃ x, x ∈ all_cells S ∧ x ∉ filled_cells state) →
  ∃ best, choose_cell S state = Ok best
          ∧ best ∈ all_cells S ∧ best ∉ filled_cells state.
Proof.
  intros W Hsize (x0 & Hx0 & Hx0f).
  destruct (choose_cell_loop_spec S (filled_cells state) (all_cells S)
              (-1, -1) INT_MAX (wi_increasing S W)) as (b & Hb & Hcase).
  { intros x Hx _. destruct (owning_region_defined S x W Hx) as (? & reg & ? & ?).
    eauto. }
  destruct Hcase as [[_ Hall] | (Hbin & Hbf & _)]; [|eauto].
  exfalso. specialize (Hall x0 Hx0 Hx0f).
  destruct (owning_region_defined S x0 W Hx0) as (_ & reg & Hreg & Hin).
  unfold score in Hall. rewrite Hreg in Hall.
  pose proof (unfilled_in_bound (filled_cells state) reg).
  specialize (Hsize reg Hin). lia.
Qed.

Section complete.
Variable S : Solver.
Hypothesis W : well_indexed S.
Hypothesis L : links_ok S.
Hypothesis Hpips : ∀ d, d ∈ dominoes S → 0 ≤ low d ∧ 0 ≤ high d.
Hypothesis Hrows : ∀ x, x ∈ all_cells S → 0 ≤ x.1.
Hypothesis Hsize : ∀ reg, reg ∈ regions S → Z.of_nat (length (cells reg)) < INT_MAX.
Hypothesis Hfits : sums_fit (dominoes S) (regions S).

Variable T : list laid.
Hypothesis HT : tiling S T.
Hypothesis Hfinal :
  check_all S (regions S) (full_state S (tiling_values T)) = Ok true.

(** a state of the search that agrees with the tiling [T] *)
Record on_the_way (state : SolverState) : Prop := {
  ow_values : cell_values state ⊆ tiling_values T;
  ow_filled : filled_cells state = dom (cell_values state);
  ow_pairs : ∀ l, l ∈ T →
               (l_a l ∈ filled_cells state ↔ l_b l ∈ filled_cells state);
  ow_used : ∀ d, d ∈ used_dominoes state →
              ∃ l, l ∈ T ∧ l_domino l = d ∧ l_a l ∈ filled_cells state
}.

Lemma tiling_dom : dom (tiling_values T) = list_to_set (all_cells S).
Proof.
  rewrite tiling_values_dom. apply set_eq. intros x.
  rewrite !elem_of_list_to_set. destruct HT as [Hp Hcov]. split.
  - apply laid_cells_in_grid, Hp.
  - apply Hcov.
Qed.

Lemma tiling_nonneg x v : tiling_values T !! x = Some v → 0 ≤ v.
Proof.
  apply tiling_values_nonneg. intros l Hl.
  destruct HT as [[Hv _ _] _]. destruct (Hv l Hl) as (Hd & _ & _ & Ho).
  destruct (Hpips _ Hd).
  apply orientations_elem in Ho as [[= -> ->] | [= -> ->]]; auto.
Qed.

Lemma tiling_fits k cs :
  region_cells S k = Ok cs → member_sum (tiling_values T) cs ≤ INT_MAX.
Proof.
  unfold region_cells. destruct (region_by_id S !! k) as [reg|] eqn:Hreg;
    [|discriminate].
  intros [= <-]. destruct Hfits as (P & HP & Hle & Hlen).
  destruct (wi_byid S W _ _ Hreg) as [Hin _].
  etrans; [|apply (Hlen reg Hin)].
  apply member_sum_le; [assumption|]. intros x v. apply tiling_values_le.
  intros l Hl. destruct HT as [[Hv _ _] _]. destruct (Hv l Hl) as (Hd & _ & _ & Ho).
  destruct (Hle _ Hd).
  apply orientations_elem in Ho as [[= -> ->] | [= -> ->]]; auto.
Qed.

Lemma on_the_way_in_grid state x :
  on_the_way state → x ∈ filled_cells state → x ∈ all_cells S.
Proof.
  intros [Hv Hf _ _] Hx. rewrite Hf in Hx.
  apply (subseteq_dom _ _ Hv) in Hx. rewrite tiling_dom in Hx.
  apply elem_of_list_to_set in Hx. assumption.
Qed.

Lemma on_the_way_done state :
  on_the_way state →
  size (filled_cells state) = length (all_cells S) →
  accepted S state ∧ cell_values state = tiling_values T.
Proof.
  intros Hw Hsz.
  assert (filled_cells state = list_to_set (all_cells S)) as Hfull.
  { apply complete_filled; [apply (wi_increasing S W) | | assumption].
    intros x Hx. apply elem_of_list_to_set. eapply on_the_way_in_grid; eauto. }
  destruct Hw as [Hv Hf _ _].
  assert (cell_values state = tiling_values T) as Heq.
  { apply subseteq_dom_eq; [assumption|]. rewrite tiling_dom, <- Hf, Hfull.
    reflexivity. }
  split; [|assumption]. split; [assumption|].
  rewrite <- Hfinal. apply check_all_fields; simpl; assumption.
Qed.

Lemma on_the_way_unfilled state :
  on_the_way state →
  size (filled_cells state) ≠ length (all_cells S) →
  ∃ x, x ∈ all_cells S ∧ x ∉ filled_cells state.
Proof.
  intros Hw Hsz.
  destruct (decide (Forall (λ x, x ∈ filled_cells state) (all_cells S)))
    as [Hall | Hex].
  - exfalso. apply Hsz. rewrite Forall_forall in Hall.
    assert (filled_cells state = list_to_set (all_cells S)) as ->.
    { apply set_eq. intros x. rewrite elem_of_list_to_set. split.
      - apply on_the_way_in_grid, Hw.
      - apply Hall. }
    apply size_list_to_set, increasing_NoDup, (wi_increasing S W).
  - apply not_Forall_Exists in Hex; [|apply _].
    apply Exists_exists in Hex as (x & Hx & Hxf). eauto.
Qed.

Lemma on_the_way_step state :
  on_the_way state →
  size (filled_cells state) ≠ length (all_cells S) →
  ∃ state', extension S state state' ∧ on_the_way state'.
Proof.
  intros Hw Hsz.
  destruct (choose_cell_picks S state W Hsize (on_the_way_unfilled _ Hw Hsz))
    as (cell & Hcell & Hin & Hcf).
  destruct HT as [[Hvalid Htiles Hcells] Hcov].
  destruct Hw as [Hv Hf Hpairs Hused].
  destruct (proj1 (laid_cells_elem T cell) (Hcov cell Hin)) as (l & Hl & Hends).
  destruct (Hvalid l Hl) as (Hd & Ha & Hb & Ho).
  destruct (tiling_values_lookup T l Hcells Hl) as [Hma Hmb].
  pose proof (laid_ends_differ T l Hcells Hl) as Hne.
  assert (∃ adj vc vadj,
            adj ∈ get_adjacent S cell
            ∧ (vc, vadj) ∈ orientations (l_domino l)
            ∧ tiling_values T !! cell = Some vc
            ∧ tiling_values T !! adj = Some vadj
            ∧ (adj ∉ filled_cells state)
            ∧ ∀ x, x = cell ∨ x = adj ↔ x = l_a l ∨ x = l_b l)
    as (adj & vc & vadj & Hadj & Hor & Hmc & Hmadj & Hadjf & Hboth).
  { destruct Hends as [-> | ->].
    - exists (l_b l), (l_va l), (l_vb l). repeat (split; [assumption|]).
      split; [rewrite <- (Hpairs l Hl); assumption | tauto].
    - exists (l_a l), (l_vb l), (l_va l).
      split; [apply get_adjacent_sym; assumption|].
      split; [apply orientations_swap; assumption|].
      repeat (split; [assumption|]).
      split; [rewrite (Hpairs l Hl); assumption | tauto]. }
  assert (l_domino l ∉ used_dominoes state) as Hunused.
  { intros (l' & Hl' & Hd' & Hfilled)%Hused.
    assert (l' = l) as -> by (eapply NoDup_fmap_eq; eauto).
    assert (cell = l_a l ∨ cell = l_b l) as [-> | ->] by (apply Hboth; auto).
    - contradiction.
    - apply Hcf, (Hpairs l Hl), Hfilled. }
  pose proof (get_adjacent_elem _ _ _ Hadj) as [Hadjin Hadjne].
  set (values' := new_values_of state cell adj (vc, vadj)).
  assert (values' ⊆ tiling_values T) as Hv'.
  { unfold values', new_values_of. simpl.
    apply insert_subseteq_l; [assumption|].
    apply insert_subseteq_l; assumption. }
  assert (new_filled_of state cell adj = dom values') as Hf'.
  { unfold values', new_filled_of, new_values_of.
    rewrite !dom_insert_L, Hf. reflexivity. }
  exists (new_state_of state (l_domino l) cell adj (vc, vadj)). split.
  - constructor; try assumption.
    + apply Hrows, Hin.
    + apply (wi_present S W), Hin.
    + apply (wi_present S W), Hadjin.
    + fold values'. rewrite Hf'. apply check_affected_true. intros k Hk.
      destruct (affected_registered S W cell adj k Hin Hadjin Hk) as [reg Hreg].
      exists reg. split; [assumption|].
      apply (partial_check_sound S (tiling_values T) values' Hv' tiling_nonneg
               tiling_fits reg (list_to_set (all_cells S))).
      apply (check_all_true S (regions S) (full_state S (tiling_values T)));
        [assumption|].
      apply (wi_byid S W _ _ Hreg).
  - split; simpl.
    + exact Hv'.
    + exact Hf'.
    + intros l' Hl'. unfold new_filled_of.
      rewrite !elem_of_union, !elem_of_singleton.
      assert (∀ x, (x = l_a l' ∨ x = l_b l') → (x = adj ∨ x = cell) → l' = l)
        as Hsame.
      { intros x Hx Hx'. eapply laid_cells_owner; eauto.
        apply Hboth. tauto. }
      pose proof (Hpairs l' Hl') as Hp.
      split; intros [E | [E | E]].
      * assert (l' = l) as -> by (apply (Hsame (l_a l')); auto).
        assert (l_b l = cell ∨ l_b l = adj) by (apply Hboth; auto). tauto.
      * assert (l' = l) as -> by (apply (Hsame (l_a l')); auto).
        assert (l_b l = cell ∨ l_b l = adj) by (apply Hboth; auto). tauto.
      * tauto.
      * assert (l' = l) as -> by (apply (Hsame (l_b l')); auto).
        assert (l_a l = cell ∨ l_a l = adj) by (apply Hboth; auto). tauto.
      * assert (l' = l) as -> by (apply (Hsame (l_b l')); auto).
        assert (l_a l = cell ∨ l_a l = adj) by (apply Hboth; auto). tauto.
      * tauto.
    + intros d. unfold new_filled_of.
      rewrite elem_of_union, elem_of_singleton. intros [-> | Hd'].
      * exists l. split; [assumption|]. split; [reflexivity|].
        rewrite !elem_of_union, !elem_of_singleton.
        assert (l_a l = cell ∨ l_a l = adj) by (apply Hboth; auto). tauto.
      * destruct (Hused d Hd') as (l' & ? & ? & ?). exists l'.
        split; [assumption|]. split; [assumption|].
        rewrite !elem_of_union. auto.
Qed.

Lemma on_the_way_solution fuel state :
  (unfilled_cells S state < fuel)%nat →
  on_the_way state →
  ∃ state', descendant S state state' ∧ accepted S state'
            ∧ cell_values state' = tiling_values T.
Proof.
  revert state. induction fuel as [|fuel IH]; intros state Hfuel Hw; [lia|].
  destruct (decide (size (filled_cells state) = length (all_cells S)))
    as [Hsz | Hsz].
  - destruct (on_the_way_done state Hw Hsz). exists state.
    split; [apply rtc_refl | auto].
  - destruct (on_the_way_step state Hw Hsz) as (next & Hext & Hnext).
    destruct (IH next) as (state' & Hdesc & Hacc & Hval); [|assumption|].
    + apply extension_unfilled_cells in Hext. lia.
    + exists state'. split; [eapply rtc_l; eauto | auto].
Qed.

Lemma tiling_found : solution_signature S (tiling_values T).
Proof.
  destruct (on_the_way_solution (fuel_of S) initial) as (state & ? & ? & ?).
  - unfold fuel_of, unfilled_cells. apply Nat.lt_succ_r, length_filter.
  - split; simpl.
    + apply map_empty_subseteq.
    + rewrite dom_empty_L. reflexivity.
    + intros l _. split; intros H; exfalso; revert H; apply not_elem_of_empty.
    + intros d H. exfalso. revert H. apply not_elem_of_empty.
  - exists state. auto.
Qed.
End complete.

(** X10. For non-negative pips and rows, regions of fewer than [INT_MAX]
    cells whose sums are [int]s and links that resolve, the solutions of the
    search tree are the value maps of the tilings of the grid that pass the
    strict check of every region. *)
Theorem search_finds_the_tilings (doms : list Domino) (regs : list Region)
    (r c k : Z) (m : gmap Cell Z) :
  let S := Solver_new doms regs r c k in
  links_resolve regs →
  (∀ d, d ∈ doms → 0 ≤ low d ∧ 0 ≤ high d) →
  (∀ reg x, reg ∈ regs → x ∈ cells reg → 0 ≤ x.1) →
  (∀ reg, reg ∈ regs → Z.of_nat (length (cells reg)) < INT_MAX) →
  sums_fit doms regs →
  m ∈ all_signatures S ↔ puzzle_solution S m.
Proof.
  intros S Hlinks Hpips Hrows Hsize Hfits. rewrite all_signatures_spec.
  pose proof (Solver_new_well_indexed doms regs r c k) as W. fold S in W.
  split.
  - apply solution_signature_tiling, (wi_increasing S W).
  - intros (T & HT & <- & Hfinal).
    apply (tiling_found S W); auto.
    intros x (reg & Hreg & Hx)%(wi_cells S W). eauto.
Qed.

#[global] Instance valid_laid_dec S l : Decision (valid_laid S l).
Proof. unfold valid_laid. apply _. Defined.

(** With a negative pip the partial SUM check is no longer safe: the tiling
    5 5 -5 -5 of a 1x4 region with target 0 passes the strict check, but the
    search rejects its first tile (partial sum 10) and never reaches it. *)
Example negative_pips_pruned :
  let S := Solver_new [mkDomino 5 5; mkDomino (-5) (-5)]
             [mkRegion 0 [(0,0); (0,1); (0,2); (0,3)] SUM 0 (-1)] 1 4 100 in
  let m : gmap Cell Z := {[ (0,0) := 5; (0,1) := 5; (0,2) := -5; (0,3) := -5 ]} in
  puzzle_solution S m ∧ (m ∉ all_signatures S) ∧ true_count S = 1.
Proof.
  intros S m. split; [|split].
  - exists [mkLaid (mkDomino 5 5) (0,0) (0,1) 5 5;
            mkLaid (mkDomino (-5) (-5)) (0,2) (0,3) (-5) (-5)].
    split; [split; [split|]|split].
    + apply Forall_forall. apply (bool_decide_unpack _). vm_compute. exact I.
    + apply (bool_decide_unpack _). vm_compute. exact I.
    + apply (bool_decide_unpack _). vm_compute. exact I.
    + apply Forall_forall. apply (bool_decide_unpack _). vm_compute. exact I.
    + vm_compute. reflexivity.
    + vm_compute. reflexivity.
  - apply (bool_decide_unpack _). vm_compute. exact I.
  - vm_compute. reflexivity.
Qed.

(** ** The solutions of a puzzle *)

(** the hypotheses on a configuration, as tests *)
Lemma pips_nonnegative_test (doms : list Domino) :
  forallb (λ d, (0 <=? low d) && (0 <=? high d)) doms = true →
  ∀ d, d ∈ doms → 0 ≤ low d ∧ 0 ≤ high d.
Proof.
  rewrite forallb_forall. intros H d Hd%list_elem_of_In.
  specialize (H d Hd). apply andb_true_iff in H. rewrite !Z.leb_le in H. exact H.
Qed.

Lemma rows_nonnegative_test (regs : list Region) :
  forallb (λ reg, forallb (λ x : Cell, 0 <=? x.1) (cells reg)) regs = true →
  ∀ reg x, reg ∈ regs → x ∈ cells reg → 0 ≤ x.1.
Proof.
  rewrite forallb_forall. intros H reg x Hreg%list_elem_of_In Hx%list_elem_of_In.
  specialize (H reg Hreg). rewrite forallb_forall in H.
  apply Z.leb_le, H, Hx.
Qed.

Lemma region_sizes_test (regs : list Region) :
  forallb (λ reg, Z.of_nat (length (cells reg)) <? INT_MAX) regs = true →
  ∀ reg, reg ∈ regs → Z.of_nat (length (cells reg)) < INT_MAX.
Proof.
  rewrite forallb_forall. intros H reg Hreg%list_elem_of_In.
  apply Z.ltb_lt, H, Hreg.
Qed.

Lemma sums_fit_test (P : Z) (doms : list Domino) (regs : list Region) :
  0 ≤ P →
  forallb (λ d, (low d <=? P) && (high d <=? P)) doms = true →
  forallb (λ reg, Z.of_nat (length (cells reg)) * P <=? INT_MAX) regs = true →
  sums_fit doms regs.
Proof.
  rewrite !forallb_forall. intros HP Hd Hr. exists P. split; [assumption|]. split.
  - intros d Hin%list_elem_of_In. specialize (Hd d Hin).
    apply andb_true_iff in Hd. rewrite !Z.leb_le in Hd. exact Hd.
  - intros reg Hin%list_elem_of_In. apply Z.leb_le, Hr, Hin.
Qed.

(** a solution of the inequality chain with target 12 *)
Definition values_A : gmap Cell Z :=
  {[ (0,0) := 0; (0,1) := 1; (0,2) := 2; (0,3) := 3;
     (1,0) := 4; (1,1) := 5; (1,2) := 6; (1,3) := 6 ]}.

Lemma search_finds_the_tilings_witness : puzzle_solution solver_A values_A.
Proof.
  apply (search_finds_the_tilings tiles_A (regions_A 12) 2 4 3 values_A).
  - apply links_resolveb_spec. vm_compute. reflexivity.
  - apply pips_nonnegative_test. vm_compute. reflexivity.
  - apply rows_nonnegative_test. vm_compute. reflexivity.
  - apply region_sizes_test. vm_compute. reflexivity.
  - apply (sums_fit_test 6); [lia | vm_compute; reflexivity..].
  - apply (bool_decide_unpack _). vm_compute. exact I.
Defined.

(** a well-formed configuration: links resolve, pips and rows are not
    negative, regions are smaller than [INT_MAX] *)
Record well_formed (doms : list Domino) (regs : list Region) : Prop := {
  wf_links : links_resolve regs;
  wf_pips : ∀ d, d ∈ doms → 0 ≤ low d ∧ 0 ≤ high d;
  wf_rows : ∀ reg x, reg ∈ regs → x ∈ cells reg → 0 ≤ x.1;
  wf_sizes : ∀ reg, reg ∈ regs → Z.of_nat (length (cells reg)) < INT_MAX
}.

Lemma well_formed_test doms regs :
  links_resolveb regs = true →
  forallb (λ d, (0 <=? low d) && (0 <=? high d)) doms = true →
  forallb (λ reg, forallb (λ x : Cell, 0 <=? x.1) (cells reg)) regs = true →
  forallb (λ reg, Z.of_nat (length (cells reg)) <? INT_MAX) regs = true →
  well_formed doms regs.
Proof.
  intros H1 H2 H3 H4. split.
  - apply links_resolveb_spec, H1.
  - apply pips_nonnegative_test, H2.
  - apply rows_nonnegative_test, H3.
  - apply region_sizes_test, H4.
Qed.



Lemma signatures_are_tilings doms regs r c k m :
  well_formed doms regs → sums_fit doms regs →
  m ∈ all_signatures (Solver_new doms regs r c k)
  ↔ puzzle_solution (Solver_new doms regs r c k) m.
Proof.
  intros [Hlinks Hpips Hrows Hsize] Hfits. rewrite all_signatures_spec.
  pose proof (Solver_new_well_indexed doms regs r c k) as W.
  split.
  - apply solution_signature_tiling, (wi_increasing _ W).
  - intros (T & HT & <- & Hfinal).
    apply (tiling_found _ W); auto.
    intros x (reg & Hreg & Hx)%(wi_cells _ W). eauto.
Qed.

(** the city-block distance of two cells *)
Definition distance (a b : Cell) : Z := Z.abs (a.1 - b.1) + Z.abs (a.2 - b.2).















(** ** What [solve] returns *)

Lemma solve_summary S :
  well_indexed S → links_ok S →
  ∃ g, solve S = Ok (Z.of_nat (length (solutions g)), g)
     ∧ store_ok g
     ∧ (∀ s, s ∈ solutions g → reachable S s ∧ accepted S s)
     ∧ Z.of_nat (length (solutions g)) ≤ Z.max 0 (cap_of S)
     ∧ Z.of_nat (length (solutions g)) ≤ true_count S
     ∧ (cap_reached S g = false →
        Z.of_nat (length (solutions g)) = true_count S).
Proof.
  intros W L. destruct (solve_post S W L) as (g & Hsolve & P).
  destruct P as [(new & Enew & Hnew) _ Hok Hcap Hall]. simpl in Enew, Hcap.
  specialize (Hok empty_store_ok). destruct Hok as [Hnd Hseen].
  assert (∀ s, s ∈ solutions g → reachable S s ∧ accepted S s) as Hsound
    by (rewrite Enew; exact Hnew).
  assert (length (solutions g) = size (list_to_set (sigs g) : gset (gmap Cell Z)))
    as Hlen by (rewrite size_list_to_set by assumption; unfold sigs;
                rewrite length_fmap; reflexivity).
  assert ((list_to_set (sigs g) : gset (gmap Cell Z)) ⊆ all_signatures S) as Hsub.
  { intros m. rewrite elem_of_list_to_set. unfold sigs.
    intros (s & -> & Hs)%list_elem_of_fmap. apply all_signatures_spec.
    destruct (Hsound s Hs). exists s. auto. }
  exists g. split; [assumption|]. split; [split; assumption|].
  split; [assumption|]. split; [assumption|]. split.
  - unfold true_count. rewrite Hlen. apply inj_le, subseteq_size, Hsub.
  - intros Hnot. unfold true_count. rewrite Hlen. f_equal.
    apply Nat.le_antisymm; apply subseteq_size; [assumption|].
    intros m (s & Hr & Ha & <-)%all_signatures_spec.
    apply elem_of_list_to_set, Hseen, Hall; assumption.
Qed.

Lemma cap_of_small S : 0 ≤ max_solutions S ≤ INT_MAX → cap_of S = max_solutions S.
Proof.
  intros H. unfold cap_of, to_size_t. apply Z.mod_small.
  unfold INT_MAX in H. lia.
Qed.

(** when the cap leaves room for every value map of the search, all of them
    are recorded *)
Lemma below_cap_all_recorded S g :
  NoDup (sigs g) →
  (∀ s, s ∈ solutions g → reachable S s ∧ accepted S s) →
  Z.of_nat (length (solutions g)) = true_count S →
  (list_to_set (sigs g) : gset (gmap Cell Z)) = all_signatures S.
Proof.
  intros Hnd Hsound Hlen. apply set_subseteq_size_eq.
  - intros m. rewrite elem_of_list_to_set. unfold sigs.
    intros (s & -> & Hs)%list_elem_of_fmap. apply all_signatures_spec.
    destruct (Hsound s Hs). exists s. auto.
  - rewrite size_list_to_set by assumption. unfold sigs. rewrite length_fmap.
    unfold true_count in Hlen. lia.
Qed.

Lemma solve_count S g :
  0 ≤ max_solutions S ≤ INT_MAX →
  Z.of_nat (length (solutions g)) ≤ Z.max 0 (cap_of S) →
  Z.of_nat (length (solutions g)) ≤ true_count S →
  (cap_reached S g = false → Z.of_nat (length (solutions g)) = true_count S) →
  Z.of_nat (length (solutions g)) = Z.min (max_solutions S) (true_count S).
Proof.
  intros Hk Hcap Hle Hall. rewrite cap_of_small in Hcap by assumption.
  destruct (cap_reached S g) eqn:Hreached.
  - unfold cap_reached in Hreached. apply Z.leb_le in Hreached.
    fold (cap_of S) in Hreached. rewrite cap_of_small in Hreached by assumption.
    lia.
  - specialize (Hall eq_refl). lia.
Qed.



(** ** Deduplication *)

(** how often a value occurs under [f] in a list without repetition *)
Lemma filter_NoDup_fmap {A B : Type} `{EqDecision B} (f : A → B) (l : list A)
    (b : B) :
  NoDup (f <$> l) →
  (length (filter (λ a, f a = b) l) ≤ 1)%nat
  ∧ (b ∈ f <$> l → length (filter (λ a, f a = b) l) = 1%nat).
Proof.
  induction l as [|a l IH]; intros Hnd.
  - split; [simpl; lia | intros H; inversion H].
  - rewrite fmap_cons in Hnd. apply NoDup_cons in Hnd as [Hnotin Hnd].
    destruct (IH Hnd) as [IH1 IH2]. rewrite filter_cons.
    destruct (decide (f a = b)) as [Heq | Hne].
    + subst b. assert (filter (λ a0, f a0 = f a) l = []) as ->.
      { clear -Hnotin. induction l as [|a0 l IH]; [reflexivity|].
        rewrite fmap_cons in Hnotin. apply not_elem_of_cons in Hnotin as [Hne H].
        rewrite filter_cons, decide_False by congruence. apply IH, H. }
      split; [simpl; lia | reflexivity].
    + split; [assumption|]. rewrite fmap_cons.
      intros [Hb | Hb]%elem_of_cons; [congruence | auto].
Qed.

(** C4. [solve] counts a final cell-value map once.  Every recorded solution
    is a completed and accepted assignment of the search; the recorded
    solutions have pairwise different value maps, so no map is counted more
    than once; and when the cap leaves room for all the maps of the search,
    every completed and accepted assignment is counted exactly once: among
    the recorded solutions exactly one has its value map, also when several
    branches complete with that map.  This is because a completed assignment
    whose map is already in [seen_signatures] is not recorded, and one whose
    map is not there is recorded and its map added. *)
Theorem solve_counts_signature_once (doms : list Domino) (regs : list Region)
    (r c k : Z) :
  links_resolve regs →
  let S := Solver_new doms regs r c k in
  ∃ count g,
    solve S = Ok (count, g)
    ∧ count = Z.of_nat (length (solutions g))
    ∧ NoDup (cell_values <$> solutions g)
    ∧ (∀ i j s1 s2,
         solutions g !! i = Some s1 → solutions g !! j = Some s2 →
         cell_values s1 = cell_values s2 → i = j)
    ∧ (∀ state g0,
         cell_values state ∈ seen_signatures g0 →
         record_solution state g0 = g0)
    ∧ (∀ state g0,
         cell_values state ∉ seen_signatures g0 →
         record_solution state g0
         = mkSearch (solutions g0 ++ [state])
                    ({[cell_values state]} ∪ seen_signatures g0))
    ∧ (∀ s, s ∈ solutions g → reachable S s ∧ accepted S s)
    ∧ (∀ m, (length (filter (λ s, cell_values s = m) (solutions g)) ≤ 1)%nat)
    ∧ (true_count S ≤ cap_of S →
       ∀ s1 s2, reachable S s1 → accepted S s1 →
                reachable S s2 → accepted S s2 →
                cell_values s1 = cell_values s2 →
                length (filter (λ s, cell_values s = cell_values s1)
                          (solutions g)) = 1%nat
                ∧ filter (λ s, cell_values s = cell_values s2) (solutions g)
                  = filter (λ s, cell_values s = cell_values s1) (solutions g)).
Proof.
  intros Hlinks S.
  destruct (solve_summary S (Solver_new_well_indexed _ _ _ _ _)
              (Solver_new_links_ok _ _ _ _ _ Hlinks))
    as (g & Hsolve & [Hnd _] & Hsound & Hcap & Hle & Hall).
  exists (Z.of_nat (length (solutions g))), g.
  split; [assumption|]. split; [reflexivity|]. split; [exact Hnd|].
  split; [|split; [|split; [|split; [exact Hsound|split]]]].
  - intros i j s1 s2 H1 H2 Heq. unfold sigs in Hnd.
    eapply NoDup_lookup; [exact Hnd | |].
    + rewrite list_lookup_fmap, H1. reflexivity.
    + rewrite list_lookup_fmap, H2. simpl. congruence.
  - intros state g0 H. unfold record_solution.
    rewrite bool_decide_eq_true_2 by assumption. reflexivity.
  - intros state g0 H. unfold record_solution.
    rewrite bool_decide_eq_false_2 by assumption. reflexivity.
  - intros m. apply (filter_NoDup_fmap cell_values), Hnd.
  - intros Hroom s1 s2 Hr1 Ha1 Hr2 Ha2 Heq. rewrite <- Heq. split; [|reflexivity].
    apply (filter_NoDup_fmap cell_values); [exact Hnd|].
    assert (Z.of_nat (length (solutions g)) = true_count S) as Hlen.
    { destruct (cap_reached S g) eqn:Hreached; [|auto].
      unfold cap_reached in Hreached. apply Z.leb_le in Hreached.
      fold (cap_of S) in Hreached. lia. }
    assert (cell_values s1 ∈ (list_to_set (sigs g) : gset (gmap Cell Z))) as Hin.
    { rewrite (below_cap_all_recorded S g Hnd Hsound Hlen).
      apply all_signatures_spec. exists s1. auto. }
    apply elem_of_list_to_set in Hin. exact Hin.
Qed.

(** Three tiles on a 2x3 grid in one SUM region: placing the first two tiles
    upright or flat gives the same value map. *)
Definition tiles_D : list Domino := [mkDomino 0 0; mkDomino 0 1; mkDomino 1 1].
Definition regions_D : list Region :=
  [ mkRegion 0 [(0,0); (0,1); (0,2); (1,0); (1,1); (1,2)] SUM 3 (-1) ].

Lemma solve_counts_signature_once_witness :
  ∃ count g,
    solve (Solver_new tiles_D regions_D 2 3 100) = Ok (count, g)
    ∧ count = Z.of_nat (length (solutions g))
    ∧ NoDup (cell_values <$> solutions g)
    ∧ (∀ s, s ∈ solutions g →
         reachable (Solver_new tiles_D regions_D 2 3 100) s
         ∧ accepted (Solver_new tiles_D regions_D 2 3 100) s)
    ∧ (∀ s1 s2,
         reachable (Solver_new tiles_D regions_D 2 3 100) s1 →
         accepted (Solver_new tiles_D regions_D 2 3 100) s1 →
         reachable (Solver_new tiles_D regions_D 2 3 100) s2 →
         accepted (Solver_new tiles_D regions_D 2 3 100) s2 →
         cell_values s1 = cell_values s2 →
         length (filter (λ s, cell_values s = cell_values s1) (solutions g))
         = 1%nat
         ∧ filter (λ s, cell_values s = cell_values s2) (solutions g)
           = filter (λ s, cell_values s = cell_values s1) (solutions g)).
Proof.
  destruct (solve_counts_signature_once tiles_D regions_D 2 3 100)
    as (count & g & H1 & H2 & H3 & _ & _ & _ & H4 & _ & H5).
  - apply links_resolveb_spec. vm_compute. reflexivity.
  - exists count, g. repeat (split; [assumption|]).
    apply H5. vm_compute. discriminate.
Defined.

(** The search tree of this configuration has 36 accepted leaves and 18
    different value maps; 18 solutions are counted. *)
Example dedup_exercised :
  let S := Solver_new tiles_D regions_D 2 3 100 in
  length (enumerate (fuel_of S) S initial) = 36%nat
  ∧ true_count S = 18
  ∧ count_of (solve S) = Ok 18.
Proof. vm_compute. auto. Qed.

(** The cap is compared as [size_t]: a cap of 0 reports nothing, a cap of -1
    is the largest [size_t] and never stops the search. *)
Example cap_as_size_t :
  count_of (solve (Solver_new tiles_D regions_D 2 3 3)) = Ok 3
  ∧ count_of (solve (Solver_new tiles_D regions_D 2 3 0)) = Ok 0
  ∧ count_of (solve (Solver_new tiles_D regions_D 2 3 (-1))) = Ok 18.
Proof. vm_compute. auto. Qed.

(** The inequality chain of [search_easy_2x4_sums] with target 12 has 12
    solutions; [test_puzzle], with its cap of 3, reports 3 and leaves the
    output slot alone. *)
Example chain_counts :
  true_count solver_A = 12
  ∧ test_puzzle tiles_A 2 4 (regions_A 12) true = Ok (3, Untouched).
Proof. vm_compute. auto. Qed.

(** ** The configuration is not validated *)

(** a cell of the declared grid *)
Definition in_grid (nrows ncols : Z) (x : Cell) : Prop :=
  0 ≤ x.1 < nrows ∧ 0 ≤ x.2 < ncols.

(** The malformed configurations of the specification: a grid cell in no
    region, a linked id that no region carries, a region cell outside the
    grid. *)
Definition malformed (nrows ncols : Z) (regs : list Region) : Prop :=
  (∃ x, in_grid nrows ncols x ∧ ∀ reg, reg ∈ regs → x ∉ cells reg)
  ∨ (∃ reg, reg ∈ regs ∧ (type reg = LESS ∨ type reg = GREATER)
            ∧ ∀ reg', reg' ∈ regs → id reg' ≠ linked_region_id reg)
  ∨ (∃ reg x, reg ∈ regs ∧ x ∈ cells reg ∧ ¬ in_grid nrows ncols x).

(** the call ends with a solution count *)
Definition reports_count (res : result (Z * Search)) : Prop :=
  ∃ count g, res = Ok (count, g).

(** the same solver with other grid dimensions *)
Definition with_dims (S : Solver) (r c : Z) : Solver :=
  mkSolver (dominoes S) (regions S) r c (max_solutions S)
           (cell_to_region S) (region_by_id S) (all_cells S).

Section dims.
Variables (S : Solver) (r c : Z).
Let S' := with_dims S r c.

Lemma choose_cell_loop_dims filled todo best min_unfilled :
  choose_cell_loop S' filled todo best min_unfilled
  = choose_cell_loop S filled todo best min_unfilled.
Proof.
  revert best min_unfilled. induction todo as [|cell todo IH];
    intros best min_unfilled; simpl; [reflexivity|].
  case_bool_decide; [apply IH|].
  change (region_cells S' (cell_to_region_at S' cell))
    with (region_cells S (cell_to_region_at S cell)).
  destruct (region_cells S (cell_to_region_at S cell)); simpl;
    try reflexivity.
  destruct (_ <? _); apply IH.
Qed.

Lemma check_all_dims regs state : check_all S' regs state = check_all S regs state.
Proof.
  induction regs as [|reg regs IH]; simpl; [reflexivity|].
  change (check_constraint S' reg (cell_values state) (filled_cells state) false)
    with (check_constraint S reg (cell_values state) (filled_cells state) false).
  destruct (check_constraint S reg _ _ false) as [[|]| |]; simpl; auto.
Qed.

Lemma check_affected_dims rids values filled :
  check_affected S' rids values filled = check_affected S rids values filled.
Proof.
  induction rids as [|k rids IH]; simpl; [reflexivity|].
  change (region_by_id S') with (region_by_id S).
  destruct (region_by_id S !! k) as [reg|]; simpl; [|reflexivity].
  change (check_constraint S' reg values filled true)
    with (check_constraint S reg values filled true).
  destruct (check_constraint S reg values filled true) as [[|]| |]; simpl;
    auto.
Qed.

Lemma try_domino_dims rec rec' state cell d g :
  (∀ st g0, rec' st g0 = rec st g0) →
  try_domino S' rec' state cell d g = try_domino S rec state cell d g.
Proof.
  intros Hrec. unfold try_domino. case_bool_decide; [reflexivity|].
  change (get_adjacent S' cell) with (get_adjacent S cell).
  apply for_each_ext. intros adj g1 _. unfold try_adjacent.
  case_bool_decide; [reflexivity|].
  change (cell_to_region S') with (cell_to_region S).
  destruct (_ || _); [reflexivity|].
  apply for_each_ext. intros o g2 _. unfold try_orientation.
  change (affected S' cell adj) with (affected S cell adj).
  rewrite check_affected_dims.
  destruct (check_affected S _ _ _) as [[|]| |]; simpl; try reflexivity.
  rewrite Hrec. reflexivity.
Qed.

Lemma backtrack_dims fuel state g :
  backtrack fuel S' state g = backtrack fuel S state g.
Proof.
  revert state g. induction fuel as [|fuel IH]; intros state g; [reflexivity|].
  cbn [backtrack].
  change (cap_reached S' g) with (cap_reached S g).
  change (all_cells S') with (all_cells S).
  change (regions S') with (regions S).
  change (dominoes S') with (dominoes S).
  rewrite check_all_dims.
  unfold choose_cell. rewrite choose_cell_loop_dims.
  change (all_cells S') with (all_cells S).
  destruct (cap_reached S g); [reflexivity|].
  case_bool_decide; [reflexivity|].
  destruct (choose_cell_loop S _ _ _ _) as [cell| |]; simpl; try reflexivity.
  destruct (cell.1 <? 0); [reflexivity|].
  rewrite (for_each_ext _ (try_domino S (backtrack fuel S) state cell));
    [reflexivity|].
  intros d g' _. apply try_domino_dims. apply IH.
Qed.

(** [rows] and [cols] are never read *)
Lemma solve_dims : solve S' = solve S.
Proof.
  unfold solve. change (fuel_of S') with (fuel_of S).
  rewrite backtrack_dims. reflexivity.
Qed.
End dims.

(** C5, as the code has it.  Nothing is validated before the search: the
    constructor accepts every region list, and the declared grid dimensions
    are never consulted, so a region cell outside the grid or a grid cell in
    no region changes nothing.  Whenever the linked ids of the LESS and
    GREATER regions resolve, the search runs over the cells the regions list
    and a solution count is returned, the same for every declared grid. *)
Theorem solve_without_validation (doms : list Domino) (regs : list Region)
    (r c k : Z) :
  links_resolve regs →
  ∃ count g,
    solve (Solver_new doms regs r c k) = Ok (count, g)
    ∧ (∀ r' c', solve (Solver_new doms regs r' c' k) = Ok (count, g))
    ∧ (∀ x, x ∈ all_cells (Solver_new doms regs r c k)
            ↔ ∃ reg, reg ∈ regs ∧ x ∈ cells reg).
Proof.
  intros Hlinks.
  destruct (solve_summary _ (Solver_new_well_indexed doms regs r c k)
              (Solver_new_links_ok _ _ r c k Hlinks)) as (g & Hsolve & _).
  exists (Z.of_nat (length (solutions g))), g. split; [assumption|]. split.
  - intros r' c'. rewrite <- Hsolve.
    apply (solve_dims (Solver_new doms regs r c k) r' c').
  - apply all_cells_elem.
Qed.

Lemma solve_without_validation_witness :
  ∃ count g,
    solve (Solver_new [mkDomino 0 1] [mkRegion 0 [(0,0); (0,1)] SUM 1 (-1)] 1 1 3)
    = Ok (count, g).
Proof.
  destruct (solve_without_validation [mkDomino 0 1]
              [mkRegion 0 [(0,0); (0,1)] SUM 1 (-1)] 1 1 3)
    as (count & g & H & _).
  - apply links_resolveb_spec. vm_compute. reflexivity.
  - exists count, g. exact H.
Defined.

(** Three malformed configurations, one of each kind, for which a count is
    reported: a 1x1 grid whose region lists the cell (0,1) outside it; a 1x3
    grid whose cell (0,2) is in no region; a LESS region whose linked id 7
    belongs to no region (with no tile to place, the link is never followed). *)
Lemma malformed_configuration_counted :
  (malformed 1 1 [mkRegion 0 [(0,0); (0,1)] SUM 1 (-1)]
   ∧ reports_count
       (solve (Solver_new [mkDomino 0 1]
                 [mkRegion 0 [(0,0); (0,1)] SUM 1 (-1)] 1 1 3)))
  ∧ (malformed 1 3 [mkRegion 0 [(0,0); (0,1)] SUM 1 (-1)]
     ∧ reports_count
         (solve (Solver_new [mkDomino 0 1]
                   [mkRegion 0 [(0,0); (0,1)] SUM 1 (-1)] 1 3 3)))
  ∧ (malformed 1 2 [mkRegion 0 [(0,0); (0,1)] LESS (-1) 7]
     ∧ reports_count
         (solve (Solver_new [] [mkRegion 0 [(0,0); (0,1)] LESS (-1) 7] 1 2 3)))
  ∧ ¬ (∀ doms regs r c k,
         malformed r c regs →
         ¬ reports_count (solve (Solver_new doms regs r c k))).
Proof.
  assert (malformed 1 1 [mkRegion 0 [(0,0); (0,1)] SUM 1 (-1)]) as Hmal.
  { right. right. exists (mkRegion 0 [(0,0); (0,1)] SUM 1 (-1)), (0, 1).
    split; [apply list_elem_of_here|].
    split; [apply list_elem_of_further, list_elem_of_here|].
    unfold in_grid; simpl. lia. }
  assert (reports_count
            (solve (Solver_new [mkDomino 0 1]
                      [mkRegion 0 [(0,0); (0,1)] SUM 1 (-1)] 1 1 3))) as Hcount.
  { eexists 2, _. vm_compute. reflexivity. }
  split; [split; assumption|]. split; [|split].
  - split; [|eexists 2, _; vm_compute; reflexivity].
    left. exists (0, 2). split; [unfold in_grid; simpl; lia|].
    intros reg ->%list_elem_of_singleton. simpl.
    intros [[=] | [[=] | H]%elem_of_cons]%elem_of_cons. inversion H.
  - split; [|eexists 0, _; vm_compute; reflexivity].
    right. left. exists (mkRegion 0 [(0,0); (0,1)] LESS (-1) 7).
    split; [apply list_elem_of_here|]. split; [left; reflexivity|].
    intros reg' ->%list_elem_of_singleton. simpl. lia.
  - intros Hclaim. exact (Hclaim _ _ _ _ _ Hmal Hcount).
Qed.

(** ** The empty configuration *)

(** C6, as the code has it.  With an empty region list and a cap of at least
    1, [solve] returns 1: the empty assignment is already complete, no region
    can fail, and it is recorded as the one solution. *)
Theorem solve_empty_regions (doms : list Domino) (r c k : Z) :
  1 ≤ k ≤ INT_MAX →
  ∃ g, solve (Solver_new doms [] r c k) = Ok (1, g) ∧ solutions g = [initial].
Proof.
  intros Hk. unfold solve, fuel_of. simpl.
  assert (cap_reached (Solver_new doms [] r c k) (mkSearch [] ∅) = false) as ->.
  { unfold cap_reached. fold (cap_of (Solver_new doms [] r c k)).
    rewrite cap_of_small by (simpl; lia). simpl. apply Z.leb_gt. lia. }
  eexists. split; reflexivity.
Qed.

Lemma solve_empty_regions_witness :
  ∃ g, solve (Solver_new tiles_A [] 0 0 3) = Ok (1, g) ∧ solutions g = [initial].
Proof. apply (solve_empty_regions tiles_A 0 0 3). unfold INT_MAX. lia. Defined.

(** With no region, the count that comes back is 1, not 0, and [test_puzzle]
    hands out the empty placement list as the unique solution. *)
Lemma empty_regions_not_zero :
  ¬ (∃ g, solve (Solver_new tiles_A [] 0 0 3) = Ok (0, g))
  ∧ test_puzzle tiles_A 0 0 [] true = Ok (1, Assigned []).
Proof.
  split.
  - intros [g H]. vm_compute in H. discriminate H.
  - vm_compute. reflexivity.
Qed.

(** ** [test_puzzle] *)

(** C10. Called with a non-null output slot, [test_puzzle] assigns the slot
    exactly when the count is 1, and then with the placement list of the
    one recorded solution, an accepted state of the search; when the count is
    not 1 the slot is left as it was. *)
Theorem test_puzzle_slot (doms : list Domino) (r c : Z) (regs : list Region) :
  links_resolve regs →
  ∃ count e g,
    test_puzzle doms r c regs true = Ok (count, e)
    ∧ solve (Solver_new doms regs r c 3) = Ok (count, g)
    ∧ 0 ≤ count ≤ 3
    ∧ (count = 1 ↔ ∃ v, e = Assigned v)
    ∧ (count = 1 →
       ∃ s, solutions g = [s] ∧ e = Assigned (placed s)
            ∧ reachable (Solver_new doms regs r c 3) s
            ∧ accepted (Solver_new doms regs r c 3) s)
    ∧ (count ≠ 1 → e = Untouched ∧ ∀ old, slot_after old e = old).
Proof.
  intros Hlinks.
  destruct (solve_summary _ (Solver_new_well_indexed doms regs r c 3)
              (Solver_new_links_ok _ _ r c 3 Hlinks))
    as (g & Hsolve & _ & Hsound & Hcap & _).
  rewrite cap_of_small in Hcap by (simpl; unfold INT_MAX; lia). simpl in Hcap.
  unfold test_puzzle. rewrite Hsolve. cbn [rbind fst snd].
  destruct (Z.eqb_spec (Z.of_nat (length (solutions g))) 1) as [Hone | Hne].
  - destruct (solutions g) as [|s [|s' l]] eqn:Hs; simpl in Hone; try lia.
    cbn [andb lookup list_lookup of_option rbind].
    exists 1, (Assigned (placed s)), g. simpl.
    split; [reflexivity|]. split; [reflexivity|]. split; [lia|].
    split; [split; eauto|]. split.
    + intros _. exists s. split; [exact Hs|]. split; [reflexivity|].
      apply Hsound, list_elem_of_here.
    + intros H. exfalso. apply H. reflexivity.
  - cbn [andb]. eexists _, Untouched, g.
    split; [reflexivity|]. split; [reflexivity|]. split; [lia|].
    split; [split; [intros ?; contradiction | intros [v [=]]]|].
    split; [intros ?; contradiction|]. intros _. split; reflexivity.
Qed.

Lemma test_puzzle_slot_witness :
  ∃ count e g,
    test_puzzle [mkDomino 1 1] 1 2 [mkRegion 0 [(0,0); (0,1)] SUM 2 (-1)] true
    = Ok (count, e)
    ∧ solve (Solver_new [mkDomino 1 1]
               [mkRegion 0 [(0,0); (0,1)] SUM 2 (-1)] 1 2 3) = Ok (count, g)
    ∧ (count = 1 ↔ ∃ v, e = Assigned v).
Proof.
  destruct (test_puzzle_slot [mkDomino 1 1] 1 2
              [mkRegion 0 [(0,0); (0,1)] SUM 2 (-1)])
    as (count & e & g & H1 & H2 & _ & H3 & _).
  - apply links_resolveb_spec. vm_compute. reflexivity.
  - exists count, e, g. auto.
Defined.

(** * More of the program *)

(** ** The order of the tiles *)

(** X1. [Domino::operator<] is a strict total order whose equivalence is
    [operator==], itself equality of both pips: what [std::set<Domino>]
    needs to hold each tile once. *)
Theorem domino_ltb_strict_total (a b c : Domino) :
  domino_ltb a a = false
  ∧ (domino_ltb a b = true → domino_ltb b c = true → domino_ltb a c = true)
  ∧ (domino_ltb a b = true → domino_ltb b a = false)
  ∧ (domino_ltb a b = false → domino_ltb b a = false → domino_eqb a b = true)
  ∧ (domino_eqb a b = true ↔ a = b).
Proof.
  assert (∀ x y, domino_ltb x y = true
                 ↔ low x < low y ∨ (low x = low y ∧ high x < high y)) as Hlt.
  { intros x y. unfold domino_ltb.
    destruct (Z.eqb_spec (low x) (low y)); simpl; rewrite Z.ltb_lt; lia. }
  assert (∀ x y, domino_ltb x y = false
                 ↔ ¬ (low x < low y ∨ (low x = low y ∧ high x < high y))) as Hge.
  { intros x y. rewrite <- Hlt. destruct (domino_ltb x y); split; congruence. }
  split; [apply Hge; lia|].
  split; [rewrite !Hlt; lia|].
  split; [rewrite Hlt, Hge; lia|].
  split; [|apply domino_eqb_eq].
  rewrite !Hge. intros H1 H2. unfold domino_eqb.
  apply andb_true_iff. rewrite !Z.eqb_eq. lia.
Qed.

Lemma domino_ltb_strict_total_witness :
  domino_ltb (mkDomino 0 1) (mkDomino 1 0) = true
  ∧ domino_ltb (mkDomino 0 2) (mkDomino 0 1) = false.
Proof.
  destruct (domino_ltb_strict_total (mkDomino 0 1) (mkDomino 0 2) (mkDomino 1 0))
    as (_ & Htrans & Hasym & _).
  split; [apply Htrans; reflexivity | apply Hasym; reflexivity].
Defined.

(** ** The neighbours of a cell *)



(** The declared dimensions play no part: with [rows = cols = 1] and a
    region that lists two cells, the second cell is a neighbour of the
    first; with [rows = 1] and [cols = 3] and a region that lists the first
    two cells only, the third cell is no neighbour of the second. *)
Example get_adjacent_listed_cells :
  get_adjacent (Solver_new [] [mkRegion 0 [(0,0); (0,1)] SUM 0 (-1)] 1 1 3) (0, 0)
  = [(0, 1)]
  ∧ get_adjacent (Solver_new [] [mkRegion 0 [(0,0); (0,1)] SUM 0 (-1)] 1 3 3)
      (0, 1)
    = [(0, 0)].
Proof. vm_compute. auto. Qed.

(** ** Placements *)

Lemma placement_of_cells (S : Solver) (d : Domino) (cell adj : Cell) :
  adj ∈ get_adjacent S cell →
  let p := placement_of d cell adj in
  cell_lt (cell1 p) (cell2 p)
  ∧ distance (cell1 p) (cell2 p) = 1
  ∧ ((cell1 p = cell ∧ cell2 p = adj) ∨ (cell1 p = adj ∧ cell2 p = cell)).
Proof.
  intros Hadj p. unfold get_adjacent in Hadj.
  apply list_elem_of_filter in Hadj as [_ Hadj].
  destruct cell as [r c]. simpl in Hadj.
  unfold p, placement_of, cell1, cell2, cell_lt, distance; simpl.
  repeat (apply elem_of_cons in Hadj as [-> | Hadj]); simpl.
  - rewrite bool_decide_eq_false_2 by lia.
    replace (Z.min r (r - 1)) with (r - 1) by lia.
    replace (Z.min c c) with c by lia. simpl.
    split; [lia|]. split; [lia|]. right. split; f_equal; lia.
  - rewrite bool_decide_eq_false_2 by lia.
    replace (Z.min r (r + 1)) with r by lia.
    replace (Z.min c c) with c by lia. simpl.
    split; [lia|]. split; [lia|]. left. split; f_equal; lia.
  - rewrite bool_decide_eq_true_2 by lia.
    replace (Z.min r r) with r by lia.
    replace (Z.min c (c - 1)) with (c - 1) by lia. simpl.
    split; [lia|]. split; [lia|]. right. split; f_equal; lia.
  - rewrite bool_decide_eq_true_2 by lia.
    replace (Z.min r r) with r by lia.
    replace (Z.min c (c + 1)) with c by lia. simpl.
    split; [lia|]. split; [lia|]. left. split; f_equal; lia.
  - inversion Hadj.
Qed.



(** ** The EQUAL constraint and missing regions *)

(** X4. The check of an EQUAL region holds exactly when all member cells
    that carry a value carry the same one; the filled set and [partial_ok]
    play no part, and a region without valued member passes. *)
Theorem check_constraint_equal (S : Solver) (region : Region)
    (values : gmap Cell Z) (filled : gset Cell) (partial_ok : bool) :
  registered S region →
  type region = EQUAL →
  ∃ b, check_constraint S region values filled partial_ok = Ok b
     ∧ (b = true ↔ ∀ x y vx vy, x ∈ cells region → y ∈ cells region →
                      values !! x = Some vx → values !! y = Some vy → vx = vy).
Proof.
  intros Hreg Hty. unfold check_constraint, is_region_complete, get_region_values.
  rewrite (region_cells_registered _ _ Hreg), Hty. cbn [rbind].
  destruct (values_of values (cells region)) as [|first vals] eqn:E;
    eexists; (split; [reflexivity|]).
  - split; [|reflexivity]. intros _ x y vx vy Hx _ Hvx _.
    assert (vx ∈ values_of values (cells region)) as Hin
      by (apply values_of_elem; eauto).
    rewrite E in Hin. inversion Hin.
  - rewrite all_same_spec, <- E. split.
    + intros Hsame x y vx vy Hx Hy Hvx Hvy.
      rewrite (Hsame vx), (Hsame vy); [reflexivity | |];
        apply values_of_elem; eauto.
    + intros Heq v (x & Hx & Hv)%values_of_elem.
      assert (first ∈ values_of values (cells region)) as Hf
        by (rewrite E; apply list_elem_of_here).
      apply values_of_elem in Hf as (y & Hy & Hfy). eauto.
Qed.

Lemma check_constraint_equal_witness :
  ∃ b, check_constraint
         (Solver_new [] [mkRegion 0 [(0,0); (0,1); (0,2)] EQUAL (-1) (-1)] 1 3 3)
         (mkRegion 0 [(0,0); (0,1); (0,2)] EQUAL (-1) (-1))
         {[ (0,0) := 4; (0,2) := 4 ]} {[ (0,0); (0,2) ]} false = Ok b
     ∧ b = true.
Proof.
  destruct (check_constraint_equal
              (Solver_new [] [mkRegion 0 [(0,0); (0,1); (0,2)] EQUAL (-1) (-1)] 1 3 3)
              (mkRegion 0 [(0,0); (0,1); (0,2)] EQUAL (-1) (-1))
              {[ (0,0) := 4; (0,2) := 4 ]} {[ (0,0); (0,2) ]} false)
    as (b & Hb & _).
  - vm_compute. reflexivity.
  - reflexivity.
  - exists b. split; [exact Hb|]. vm_compute in Hb. congruence.
Defined.

(** X5. Regions that cannot be found.  A check of a region whose id is not
    in [region_by_id] dereferences a null pointer at once.  For a LESS or
    GREATER region whose linked id is not there, the check still returns
    [partial_ok] while the region has an unfilled cell, and dereferences the
    null pointer as soon as the region is fully filled. *)
Theorem check_constraint_missing_region (S : Solver) (region : Region)
    (values : gmap Cell Z) (filled : gset Cell) (partial_ok : bool) :
  (region_by_id S !! id region = None →
   check_constraint S region values filled partial_ok = Undefined)
  ∧ (registered S region →
     type region = LESS ∨ type region = GREATER →
     region_by_id S !! linked_region_id region = None →
     (fully_filled filled (cells region) →
      check_constraint S region values filled partial_ok = Undefined)
     ∧ (¬ fully_filled filled (cells region) →
        check_constraint S region values filled partial_ok = Ok partial_ok)).
Proof.
  split.
  - intros Hnone. unfold check_constraint, is_region_complete, region_cells.
    rewrite Hnone. reflexivity.
  - intros Hreg Hty Hnone.
    unfold check_constraint, is_region_complete, get_region_sum.
    rewrite (region_cells_registered _ _ Hreg). cbn [rbind].
    unfold region_cells. rewrite Hnone. cbn [fmap option_fmap option_map of_option rbind].
    rewrite <- all_filled_spec.
    destruct (all_filled filled (cells region)); destruct Hty as [-> | ->];
      simpl; split; congruence.
Qed.

Lemma check_constraint_missing_region_witness :
  check_constraint
    (Solver_new [] [mkRegion 0 [(0,0); (0,1)] LESS (-1) 7] 1 2 3)
    (mkRegion 0 [(0,0); (0,1)] LESS (-1) 7)
    {[ (0,0) := 1; (0,1) := 2 ]} {[ (0,0); (0,1) ]} true = Undefined.
Proof.
  apply (check_constraint_missing_region
           (Solver_new [] [mkRegion 0 [(0,0); (0,1)] LESS (-1) 7] 1 2 3)
           (mkRegion 0 [(0,0); (0,1)] LESS (-1) 7)
           {[ (0,0) := 1; (0,1) := 2 ]} {[ (0,0); (0,1) ]} true).
  - vm_compute. reflexivity.
  - left. reflexivity.
  - vm_compute. reflexivity.
  - apply all_filled_spec. vm_compute. reflexivity.
Defined.

(** ** The indexes of the constructor *)

Lemma index_cells_lookup (rid : Z) (cs : list Cell) (m : gmap Cell Z)
    (s : list Cell) (x : Cell) :
  (index_cells rid cs (m, s)).1 !! x
  = if decide (x ∈ cs) then Some rid else m !! x.
Proof.
  unfold index_cells. revert m s. induction cs as [|cell cs IH]; intros m s.
  - destruct (decide (x ∈ [])) as [H | _]; [inversion H | reflexivity].
  - cbn [foldl]. rewrite IH. cbn [fst snd].
    destruct (decide (x ∈ cs)) as [Hin | Hnin];
      destruct (decide (x ∈ cell :: cs)) as [Hin' | Hnin']; try reflexivity.
    + exfalso. apply Hnin', list_elem_of_further, Hin.
    + apply elem_of_cons in Hin' as [-> | ?]; [|contradiction].
      apply lookup_insert_eq.
    + apply lookup_insert_ne. intros ->. apply Hnin', list_elem_of_here.
Qed.

Lemma index_regions_lookup (todo : list Region)
    (a : gmap Cell Z * list Cell * gmap Z Region) (x : Cell) :
  (foldl (λ a reg,
            let mc := index_cells (id reg) (cells reg) (a.1.1, a.1.2) in
            (mc.1, mc.2, <[id reg := reg]> a.2)) a todo).1.1 !! x
  = match last (filter (λ reg, x ∈ cells reg) todo) with
    | Some reg => Some (id reg)
    | None => a.1.1 !! x
    end.
Proof.
  revert a. induction todo as [|reg todo IH]; intros a; simpl; [reflexivity|].
  rewrite IH, filter_cons. simpl. rewrite index_cells_lookup.
  destruct (decide (x ∈ cells reg)) as [Hin | Hnin].
  - rewrite last_cons.
    destruct (last (filter (λ reg0, x ∈ cells reg0) todo)); reflexivity.
  - reflexivity.
Qed.

(** X6. The constructor keeps the tiles, regions, dimensions and cap it is
    given, and builds three indexes: [all_cells] holds the cells listed by
    the regions, each once and in row-major order; [cell_to_region] leads a
    cell to the id of the last region that lists it; [region_by_id] leads an
    id to the last region that carries it.  A cell in no region and an id no
    region carries are absent. *)
Theorem Solver_new_indexes (doms : list Domino) (regs : list Region)
    (r c max_sol : Z) :
  let S := Solver_new doms regs r c max_sol in
  (dominoes S = doms ∧ regions S = regs ∧ rows S = r ∧ cols S = c
   ∧ max_solutions S = max_sol)
  ∧ increasing (all_cells S)
  ∧ (∀ x, x ∈ all_cells S ↔ ∃ reg, reg ∈ regs ∧ x ∈ cells reg)
  ∧ (∀ x, cell_to_region S !! x
          = id <$> last (filter (λ reg, x ∈ cells reg) regs))
  ∧ (∀ k, region_by_id S !! k = last (filter (λ reg, id reg = k) regs)).
Proof.
  intros S. split; [repeat split|].
  split; [apply all_cells_increasing|]. split; [apply all_cells_elem|].
  split; [|apply region_by_id_last].
  intros x. unfold S, Solver_new, index_regions; simpl.
  rewrite index_regions_lookup. simpl.
  destruct (last (filter (λ reg, x ∈ cells reg) regs)); [reflexivity|].
  apply lookup_empty.
Qed.

(** ** The selector when nothing is left *)

Lemma choose_cell_loop_filled (S : Solver) (filled : gset Cell)
    (todo : list Cell) (best : Cell) (min_unfilled : Z) :
  (∀ x, x ∈ todo → x ∈ filled) →
  choose_cell_loop S filled todo best min_unfilled = Ok best.
Proof.
  induction todo as [|cell todo IH]; intros H; simpl; [reflexivity|].
  rewrite bool_decide_eq_true_2 by apply H, list_elem_of_here.
  apply IH. intros x Hx. apply H, list_elem_of_further, Hx.
Qed.

(** X7. When every cell of the grid is filled, [choose_cell] returns the
    cell (-1,-1) and looks no region up.  For a solver built by the
    constructor whose regions have fewer than [INT_MAX] cells, that is the
    only way to get a cell that is not an unfilled cell of the grid. *)
Theorem choose_cell_sentinel (doms : list Domino) (regs : list Region)
    (r c max_sol : Z) (state : SolverState) :
  let S := Solver_new doms regs r c max_sol in
  (∀ S' : Solver,
     (∀ x, x ∈ all_cells S' → x ∈ filled_cells state) →
     choose_cell S' state = Ok (-1, -1))
  ∧ ((∀ reg, reg ∈ regs → Z.of_nat (length (cells reg)) < INT_MAX) →
     ∃ best, choose_cell S state = Ok best
       ∧ ((best ∈ all_cells S ∧ best ∉ filled_cells state)
          ∨ (best = (-1, -1) ∧ ∀ x, x ∈ all_cells S → x ∈ filled_cells state))).
Proof.
  intros S. split.
  - intros S' H. apply choose_cell_loop_filled, H.
  - intros Hsize.
    destruct (decide (Forall (λ x, x ∈ filled_cells state) (all_cells S)))
      as [Hall | Hex].
    + rewrite Forall_forall in Hall. exists (-1, -1).
      split; [apply choose_cell_loop_filled, Hall | auto].
    + apply not_Forall_Exists in Hex; [|apply _].
      apply Exists_exists in Hex as (x & Hx & Hxf).
      destruct (choose_cell_picks S state
                  (Solver_new_well_indexed doms regs r c max_sol) Hsize)
        as (best & Hbest & Hin & Hf); eauto.
Qed.

Lemma choose_cell_sentinel_witness :
  ∃ best, choose_cell solver_A initial = Ok best
    ∧ ((best ∈ all_cells solver_A ∧ best ∉ filled_cells initial)
       ∨ (best = (-1, -1)
          ∧ ∀ x, x ∈ all_cells solver_A → x ∈ filled_cells initial)).
Proof.
  apply (choose_cell_sentinel tiles_A (regions_A 12) 2 4 3 initial).
  intros reg Hreg. unfold regions_A in Hreg.
  repeat (apply elem_of_cons in Hreg as [->|Hreg]; [vm_compute; reflexivity|]).
  inversion Hreg.
Defined.

(** X8. A grid whose cells all lie in negative rows has no solution for the
    solver, whatever the tiles and constraints: the selected cell fails the
    test [cell.first < 0], which is meant for the cell (-1,-1) of a full
    grid, and the search returns at the root. *)
Theorem solve_negative_rows (doms : list Domino) (regs : list Region)
    (r c k : Z) :
  (∃ reg x, reg ∈ regs ∧ x ∈ cells reg) →
  (∀ reg x, reg ∈ regs → x ∈ cells reg → x.1 < 0) →
  solve (Solver_new doms regs r c k) = Ok (0, mkSearch [] ∅).
Proof.
  intros (reg0 & x0 & Hreg0 & Hx0) Hneg.
  set (S := Solver_new doms regs r c k).
  pose proof (Solver_new_well_indexed doms regs r c k) as W. fold S in W.
  assert (x0 ∈ all_cells S) as Hin0 by (apply (wi_cells S W); eauto).
  unfold solve, fuel_of. cbn [backtrack].
  destruct (cap_reached S (mkSearch [] ∅)); [reflexivity|].
  rewrite bool_decide_eq_false_2.
  2:{ change (filled_cells initial) with (∅ : gset Cell). rewrite size_empty.
      destruct (all_cells S); [inversion Hin0 | discriminate]. }
  destruct (choose_cell_defined S W initial) as [cell Hcell]. rewrite Hcell.
  cbn [rbind].
  assert (cell.1 < 0) as Hlt.
  { apply choose_cell_loop_result in Hcell as [-> | [Hin _]]; [simpl; lia|].
    apply (wi_cells S W) in Hin as (reg & Hreg & Hx). eauto. }
  apply Z.ltb_lt in Hlt. rewrite Hlt. reflexivity.
Qed.

Lemma solve_negative_rows_witness :
  solve (Solver_new [mkDomino 1 1] [mkRegion 0 [(-1,0); (-1,1)] SUM 2 (-1)] 1 2 3)
  = Ok (0, mkSearch [] ∅).
Proof.
  apply (solve_negative_rows [mkDomino 1 1]
           [mkRegion 0 [(-1,0); (-1,1)] SUM 2 (-1)] 1 2 3).
  - exists (mkRegion 0 [(-1,0); (-1,1)] SUM 2 (-1)), (-1, 0).
    split; apply list_elem_of_here.
  - intros reg x ->%list_elem_of_singleton Hx. simpl in Hx.
    repeat (apply elem_of_cons in Hx as [-> | Hx]; [simpl; lia|]).
    inversion Hx.
Defined.

(** ** What the solver finds *)

Lemma reachable_invariant S state : reachable S state → state_invariant state.
Proof.
  revert state. unfold reachable, descendant.
  apply rtc_ind_r; [apply initial_invariant|].
  intros y z _ Hext IH. eapply extension_invariant; eauto.
Qed.

(** X9. Every solution [solve] records is a tiling of the grid: distinct
    tiles of the set on disjoint pairs of adjacent cells that cover every
    cell, with values that pass the strict check of every region; it holds
    half as many placements as there are cells and keeps the invariant of
    assignment states. *)
Theorem solve_records_tilings (doms : list Domino) (regs : list Region)
    (r c k : Z) :
  links_resolve regs →
  let S := Solver_new doms regs r c k in
  ∃ count g,
    solve S = Ok (count, g)
    ∧ ∀ s, s ∈ solutions g →
        puzzle_solution S (cell_values s)
        ∧ state_invariant s
        ∧ filled_cells s = list_to_set (all_cells S)
        ∧ (2 * length (placed s) = length (all_cells S))%nat.
Proof.
  intros Hlinks S.
  pose proof (Solver_new_well_indexed doms regs r c k) as W. fold S in W.
  destruct (solve_summary S W (Solver_new_links_ok _ _ _ _ _ Hlinks))
    as (g & Hsolve & _ & Hsound & _).
  exists (Z.of_nat (length (solutions g))), g. split; [assumption|].
  intros s Hs. destruct (Hsound s Hs) as [Hreach Hacc].
  pose proof (reachable_invariant _ _ Hreach) as Hinv.
  split; [|split; [assumption|split]].
  - apply solution_signature_tiling; [apply (wi_increasing S W)|].
    exists s. auto.
  - destruct (reachable_laid_out _ _ Hreach) as [T [HT Hf _ _]].
    apply complete_filled; [apply (wi_increasing S W) | | apply Hacc].
    intros x. rewrite Hf, !elem_of_list_to_set. apply laid_cells_in_grid, HT.
  - rewrite <- (inv_pairs _ Hinv). apply Hacc.
Qed.

Lemma solve_records_tilings_witness :
  ∃ count g,
    solve (Solver_new tiles_D regions_D 2 3 100) = Ok (count, g)
    ∧ ∀ s, s ∈ solutions g →
        puzzle_solution (Solver_new tiles_D regions_D 2 3 100) (cell_values s).
Proof.
  destruct (solve_records_tilings tiles_D regions_D 2 3 100) as (count & g & H & Hs).
  - apply links_resolveb_spec. vm_compute. reflexivity.
  - exists count, g. split; [exact H|]. intros s Hin. apply (Hs s Hin).
Defined.

(** a set with no element, and a set with one *)
Lemma size_zero_one (X : gset (gmap Cell Z)) (P : gmap Cell Z → Prop) :
  (∀ m, m ∈ X ↔ P m) →
  (Z.of_nat (size X) = 0 ↔ ¬ ∃ m, P m)
  ∧ (Z.of_nat (size X) = 1 ↔ ∃ m, P m ∧ ∀ m', P m' → m' = m).
Proof.
  intros Hsig. split.
  - split.
    + intros H0 [m Hm%Hsig].
      assert (size X = 0%nat) as Hz by lia.
      apply size_empty_iff in Hz. apply Hz in Hm. revert Hm. apply not_elem_of_empty.
    + intros Hno. assert (size X = 0%nat) as Hz; [|lia].
      apply size_empty_iff. intros m. split; [|intros H; inversion H].
      intros Hm. exfalso. apply Hno. exists m. apply Hsig, Hm.
  - split.
    + intros H1. assert (size X = 1%nat) as Hz by lia.
      apply size_1_elem_of in Hz as [m Hm]. exists m. split.
      * apply Hsig, Hm, elem_of_singleton. reflexivity.
      * intros m' Hm'%Hsig. apply Hm, elem_of_singleton in Hm'. exact Hm'.
    + intros (m & Hm%Hsig & Huniq).
      assert (X = {[m]}) as Heq;
        [|rewrite Heq, size_singleton; reflexivity].
      apply set_eq. intros m'. rewrite elem_of_singleton. split.
      * intros Hm'%Hsig. apply Huniq, Hm'.
      * intros ->. exact Hm.
Qed.

(** the number of value maps of accepted complete states, for 0 and 1 *)
Lemma true_count_solutions (doms : list Domino) (regs : list Region) (r c k : Z) :
  well_formed doms regs → sums_fit doms regs →
  let S := Solver_new doms regs r c k in
  (true_count S = 0 ↔ ¬ ∃ m, puzzle_solution S m)
  ∧ (true_count S = 1 ↔ ∃ m, puzzle_solution S m
                             ∧ ∀ m', puzzle_solution S m' → m' = m).
Proof.
  intros Hwf Hfits S. apply size_zero_one.
  intros m. apply signatures_are_tilings; assumption.
Qed.

(** [test_puzzle] counts the value maps up to 3 and hands out the first
    state when there is one only *)
Lemma test_puzzle_counts (doms : list Domino) (r c : Z) (regs : list Region) :
  well_formed doms regs → sums_fit doms regs →
  let S := Solver_new doms regs r c 3 in
  ∃ count e,
    test_puzzle doms r c regs true = Ok (count, e)
    ∧ count = Z.min 3 (true_count S)
    ∧ (count = 1 →
       ∃ s, e = Assigned (placed s) ∧ reachable S s ∧ accepted S s
            ∧ puzzle_solution S (cell_values s)).
Proof.
  intros Hwf Hfits S.
  pose proof (Solver_new_well_indexed doms regs r c 3) as W. fold S in W.
  destruct (solve_summary S W (Solver_new_links_ok _ _ _ _ _ (wf_links _ _ Hwf)))
    as (g & Hsolve & _ & Hsound & Hcap & Hle & Hall).
  set (count := Z.of_nat (length (solutions g))) in *.
  assert (count = Z.min 3 (true_count S)) as Hmin
    by (apply (solve_count S g); [simpl; unfold INT_MAX; lia | assumption..]).
  assert (∃ e, test_puzzle doms r c regs true = Ok (count, e)
               ∧ (count = 1 → ∃ s, e = Assigned (placed s) ∧ s ∈ solutions g))
    as (e & Htest & Hslot).
  { unfold test_puzzle. fold S. rewrite Hsolve. cbn [rbind fst snd].
    fold count. destruct (Z.eqb_spec count 1) as [Hone | Hne].
    - unfold count in Hone.
      destruct (solutions g) as [|s [|s' l]] eqn:Hs; simpl in Hone; try lia.
      cbn [andb lookup list_lookup of_option rbind].
      eexists. split; [reflexivity|]. intros _. exists s.
      split; [reflexivity | apply list_elem_of_here].
    - cbn [andb]. eexists. split; [reflexivity|]. intros ?. contradiction. }
  exists count, e. split; [assumption|]. split; [assumption|].
  intros H1. destruct (Hslot H1) as (s & -> & Hin).
  destruct (Hsound s Hin) as [Hreach Hacc].
  exists s. split; [reflexivity|]. split; [assumption|]. split; [assumption|].
  apply (signatures_are_tilings doms regs r c 3 (cell_values s) Hwf Hfits).
  apply all_signatures_spec. exists s. auto.
Qed.



(** ** The pips shown for a solution *)

Definition placed_cells (solution : list PlacedDomino) : list Cell :=
  solution ≫= λ p, [cell1 p; cell2 p].

Lemma placed_cells_snoc solution p :
  placed_cells (solution ++ [p]) = placed_cells solution ++ [cell1 p; cell2 p].
Proof.
  unfold placed_cells. rewrite bind_app. simpl. reflexivity.
Qed.

Lemma placed_cells_elem solution x :
  x ∈ placed_cells solution ↔ ∃ p, p ∈ solution ∧ (x = cell1 p ∨ x = cell2 p).
Proof.
  unfold placed_cells. rewrite list_elem_of_bind. split.
  - intros (p & Hx & Hp). exists p. split; [assumption|].
    apply elem_of_cons in Hx as [-> | Hx]; [auto|].
    apply list_elem_of_singleton in Hx. auto.
  - intros (p & Hp & [-> | ->]); exists p; (split; [|assumption]).
    + apply list_elem_of_here.
    + apply list_elem_of_further, list_elem_of_here.
Qed.

Lemma cell_pip_of_snoc solution p :
  cell_pip_of (solution ++ [p])
  = <[cell2 p := high (domino p)]>
      (<[cell1 p := low (domino p)]> (cell_pip_of solution)).
Proof. unfold cell_pip_of. rewrite foldl_app. reflexivity. Qed.


Lemma cell1_cell2_differ p : cell1 p ≠ cell2 p.
Proof.
  unfold cell1, cell2. destruct (horizontal p); intros [=]; lia.
Qed.

Lemma cell_pip_of_lookup solution p :
  NoDup (placed_cells solution) → p ∈ solution →
  cell_pip_of solution !! cell1 p = Some (low (domino p))
  ∧ cell_pip_of solution !! cell2 p = Some (high (domino p)).
Proof.
  induction solution as [|q solution IH] using rev_ind; intros Hnd Hp;
    [inversion Hp|].
  rewrite placed_cells_snoc in Hnd. apply NoDup_app in Hnd as (Hnd & Hdisj & _).
  rewrite cell_pip_of_snoc. apply elem_of_app in Hp as [Hp | Hp].
  - assert (∀ x, x = cell1 p ∨ x = cell2 p → x ≠ cell1 q ∧ x ≠ cell2 q) as Hd.
    { intros x Hx. assert (x ∈ placed_cells solution) as Hin
        by (apply placed_cells_elem; eauto).
      specialize (Hdisj x Hin). rewrite !not_elem_of_cons in Hdisj. tauto. }
    destruct (Hd (cell1 p)) as [? ?]; [auto|].
    destruct (Hd (cell2 p)) as [? ?]; [auto|].
    rewrite !lookup_insert_ne by congruence. apply IH; assumption.
  - apply list_elem_of_singleton in Hp as ->.
    pose proof (cell1_cell2_differ q).
    rewrite lookup_insert_ne by congruence. rewrite !lookup_insert_eq. auto.
Qed.

(** how a state of the search and its placement list hang together *)
Record placed_ok (state : SolverState) : Prop := {
  po_filled : filled_cells state = list_to_set (placed_cells (placed state));
  po_nodup : NoDup (placed_cells (placed state));
  po_values : ∀ p, p ∈ placed state →
    (cell_values state !! cell1 p = Some (low (domino p))
     ∧ cell_values state !! cell2 p = Some (high (domino p)))
    ∨ (cell_values state !! cell1 p = Some (high (domino p))
       ∧ cell_values state !! cell2 p = Some (low (domino p)))
}.

Lemma extension_placed_ok S state state' :
  extension S state state' → placed_ok state → placed_ok state'.
Proof.
  intros Hext [Hf Hnd Hv].
  destruct Hext as [cell d adj o Hsz Hcell Hpos Hd Hdu Hadj Hadjf _ _ Ho Hok].
  destruct (choose_cell_unfilled _ _ _ Hcell Hpos) as [_ Hcf].
  destruct (get_adjacent_elem _ _ _ Hadj) as [_ Hne].
  destruct (placement_of_cells S d cell adj Hadj) as (_ & _ & Hends).
  set (p := placement_of d cell adj) in *.
  assert (list_to_set [cell1 p; cell2 p] = ({[adj]} ∪ {[cell]} : gset Cell))
    as Hset.
  { rewrite !list_to_set_cons, list_to_set_nil, union_empty_r_L.
    destruct Hends as [[-> ->] | [-> ->]]; [apply (comm_L (∪)) | reflexivity]. }
  assert (∀ x, x = cell1 p ∨ x = cell2 p → x ∉ filled_cells state) as Hnew.
  { intros x Hx. destruct Hends as [[E1 E2] | [E1 E2]]; rewrite E1, E2 in Hx;
      destruct Hx as [-> | ->]; assumption. }
  split; cbn [new_state_of placed filled_cells cell_values]; fold p.
  - rewrite placed_cells_snoc, list_to_set_app_L, Hset, <- Hf.
    unfold new_filled_of.
    rewrite (assoc_L (∪)), (comm_L (∪) _ (filled_cells state)). reflexivity.
  - rewrite placed_cells_snoc. apply NoDup_app. split; [assumption|]. split.
    + intros x Hx Hx'. apply (Hnew x).
      * apply elem_of_cons in Hx' as [-> | Hx']; [auto|].
        apply list_elem_of_singleton in Hx'. auto.
      * rewrite Hf. apply elem_of_list_to_set, Hx.
    + apply NoDup_cons. split; [|apply NoDup_singleton].
      rewrite list_elem_of_singleton. apply cell1_cell2_differ.
  - intros q [Hq | Hq]%elem_of_app.
    + assert (∀ x, x = cell1 q ∨ x = cell2 q → x ≠ cell ∧ x ≠ adj) as Hold.
      { intros x Hx. assert (x ∈ filled_cells state) as Hin.
        { rewrite Hf. apply elem_of_list_to_set, placed_cells_elem. eauto. }
        split; intros ->; contradiction. }
      destruct (Hold (cell1 q)) as [? ?]; [auto|].
      destruct (Hold (cell2 q)) as [? ?]; [auto|].
      unfold new_values_of. rewrite !lookup_insert_ne by congruence.
      apply Hv, Hq.
    + apply list_elem_of_singleton in Hq as ->.
      assert (new_values_of state cell adj o !! cell = Some o.1
              ∧ new_values_of state cell adj o !! adj = Some o.2) as [Hc Ha].
      { unfold new_values_of. rewrite lookup_insert_ne by congruence.
        rewrite !lookup_insert_eq. auto. }
      change (domino p) with d.
      apply orientations_elem in Ho.
      destruct Hends as [[-> ->] | [-> ->]]; rewrite Hc, Ha;
        destruct o as [o1 o2]; simpl;
        destruct Ho as [[= -> ->] | [= -> ->]]; auto.
Qed.

Lemma reachable_placed_ok S state : reachable S state → placed_ok state.
Proof.
  revert state. unfold reachable, descendant. apply rtc_ind_r.
  - split; simpl.
    + reflexivity.
    + constructor.
    + intros p Hp. inversion Hp.
  - intros y z _ Hext IH. eapply extension_placed_ok; eauto.
Qed.



(** A puzzle with one solution, 1 on (0,0) and 0 on (0,1): the placement
    handed out by [test_puzzle] holds the tile 0|1 at (0,0), and the pips
    rebuilt from it are 0 on (0,0) and 1 on (0,1). *)
Example pips_shown_swapped :
  let regs := [mkRegion 0 [(0,0)] SUM 1 (-1); mkRegion 1 [(0,1)] SUM 0 (-1)] in
  test_puzzle [mkDomino 0 1] 1 2 regs true
  = Ok (1, Assigned [mkPlaced (mkDomino 0 1) 0 0 true])
  ∧ match solve (Solver_new [mkDomino 0 1] regs 1 2 3) with
    | Ok cg => sigs cg.2
    | _ => []
    end = [ {[ (0,0) := 1; (0,1) := 0 ]} ]
  ∧ cell_pip_of [mkPlaced (mkDomino 0 1) 0 0 true]
    = {[ (0,0) := 0; (0,1) := 1 ]}.
Proof. vm_compute. auto. Qed.

(** ** The search as a fold over the leaves of the search tree *)

(** the accepted complete states below [state], in the order in which the
    search comes to them *)
Fixpoint leaves (fuel : nat) (S : Solver) (state : SolverState)
    : list SolverState :=
  match fuel with
  | O => []
  | Datatypes.S fuel' =>
      if decide (accepted S state) then [state]
      else if decide (size (filled_cells state) = length (all_cells S)) then []
      else match choose_cell S state with
           | Ok cell =>
               if cell.1 <? 0 then []
               else children S state cell ≫= leaves fuel' S
           | _ => []
           end
  end.

(** what the search does with a leaf: nothing once the cap is reached,
    [record_solution] before *)
Definition record_capped (S : Solver) (g : Search) (s : SolverState) : Search :=
  if cap_reached S g then g else record_solution s g.

Lemma record_solution_grows s g :
  ∃ new, solutions (record_solution s g) = solutions g ++ new.
Proof.
  unfold record_solution. case_bool_decide; simpl.
  - exists []. rewrite app_nil_r. reflexivity.
  - eauto.
Qed.

Lemma fold_capped_reached S l g :
  cap_reached S g = true → foldl (record_capped S) g l = g.
Proof.
  intros H. induction l as [|s l IH]; simpl; [reflexivity|].
  unfold record_capped at 2. rewrite H. exact IH.
Qed.

Lemma leaves_spec S fuel state s :
  (unfilled_cells S state < fuel)%nat →
  s ∈ leaves fuel S state ↔ descendant S state s ∧ accepted S s.
Proof.
  revert state. induction fuel as [|fuel IH]; intros state Hfuel; [lia|].
  cbn [leaves]. destruct (decide (accepted S state)) as [Hacc | Hnacc].
  - rewrite list_elem_of_singleton. split.
    + intros ->. split; [apply rtc_refl | assumption].
    + intros [[-> | (child & Hext & _)]%rtc_inv _]; [reflexivity|].
      exfalso. destruct Hacc as [Hsz _]. eapply complete_no_extension; eauto.
  - destruct (decide (size (filled_cells state) = length (all_cells S)))
      as [Hsz | Hsz].
    { split; [intros H; inversion H|].
      intros [[-> | (child & Hext & _)]%rtc_inv Hs]; [contradiction|].
      exfalso. eapply complete_no_extension; eauto. }
    assert (descendant S state s ∧ accepted S s →
            ∃ cell child, choose_cell S state = Ok cell ∧ 0 ≤ cell.1
                          ∧ child ∈ children S state cell
                          ∧ descendant S child s ∧ accepted S s) as Hdown.
    { intros [[-> | (child & Hext & Hs)]%rtc_inv Hacc]; [contradiction|].
      apply extension_children in Hext as (cell & Hcell & Hpos & _ & Hin).
      exists cell, child. auto. }
    destruct (choose_cell S state) as [cell | |] eqn:Hcell.
    + destruct (Z.ltb_spec cell.1 0) as [Hneg | Hpos].
      * split; [intros H; inversion H|].
        intros (cell' & child & [= <-] & Hpos & _)%Hdown. lia.
      * rewrite list_elem_of_bind. split.
        -- intros (child & Hs & Hchild).
           apply (children_extension _ _ _ _ Hsz Hcell Hpos) in Hchild.
           apply IH in Hs as [Hs Hacc];
             [|apply extension_unfilled_cells in Hchild; lia].
           split; [eapply rtc_l; eauto | assumption].
        -- intros (cell' & child & [= <-] & _ & Hin & Hs & Hacc)%Hdown.
           exists child. split; [|assumption]. apply IH; [|auto].
           apply (children_extension _ _ _ _ Hsz Hcell Hpos) in Hin.
           apply extension_unfilled_cells in Hin. lia.
    + split; [intros H; inversion H|].
      intros (cell' & child & [=] & _)%Hdown.
    + split; [intros H; inversion H|].
      intros (cell' & child & [=] & _)%Hdown.
Qed.

Section fold.
Variable S : Solver.
Hypothesis W : well_indexed S.
Hypothesis L : links_ok S.

Lemma visit_loop_fold (rec : SolverState → Search → result Search)
    (below : SolverState → list SolverState) (cs : list SolverState) (g : Search) :
  (∀ child g, child ∈ cs →
     rec child g = Ok (foldl (record_capped S) g (below child))) →
  ∃ c, for_each (visit S rec) cs g = Ok c
       ∧ store_of c = foldl (record_capped S) g (cs ≫= below).
Proof.
  revert g. induction cs as [|child cs IH]; intros g Hrec.
  - eexists. split; reflexivity.
  - cbn [for_each]. unfold visit at 1.
    rewrite Hrec by apply list_elem_of_here. cbn [rbind].
    rewrite bind_cons, foldl_app.
    destruct (cap_reached S (foldl (record_capped S) g (below child))) eqn:Hcap;
      cbn [rbind].
    + eexists. split; [reflexivity|]. simpl.
      symmetry. apply fold_capped_reached, Hcap.
    + apply IH. intros child' g' Hin. apply Hrec, list_elem_of_further, Hin.
Qed.

Lemma backtrack_fold fuel state g :
  (unfilled_cells S state < fuel)%nat →
  backtrack fuel S state g
  = Ok (foldl (record_capped S) g (leaves fuel S state)).
Proof.
  revert state g. induction fuel as [|fuel IH]; intros state g Hfuel; [lia|].
  cbn [backtrack leaves].
  destruct (cap_reached S g) eqn:Hcap.
  { rewrite fold_capped_reached by assumption. reflexivity. }
  case_bool_decide as Hcomplete.
  - destruct (check_all_defined S W L (regions S) state) as [b Hb]; [auto|].
    rewrite Hb. cbn [rbind]. destruct b.
    + rewrite decide_True by (split; assumption). simpl.
      unfold record_capped. rewrite Hcap. reflexivity.
    + rewrite decide_False by (intros [_ ?]; congruence).
      rewrite decide_True by assumption. reflexivity.
  - rewrite decide_False by (intros [? _]; contradiction).
    rewrite decide_False by assumption.
    destruct (choose_cell_defined S W state) as [cell Hcell].
    rewrite Hcell. cbn [rbind].
    destruct (Z.ltb_spec cell.1 0) as [Hneg | Hpos]; [reflexivity|].
    destruct (choose_cell_unfilled _ _ _ Hcell Hpos) as [Hin Hunf].
    rewrite (loops_children S W L _ state cell Hin).
    destruct (visit_loop_fold (backtrack fuel S) (leaves fuel S)
                (children S state cell) g) as (c & -> & Hc).
    { intros child g0 Hchild. apply IH.
      apply (children_extension _ _ _ _ Hcomplete Hcell Hpos) in Hchild.
      apply extension_unfilled_cells in Hchild. lia. }
    cbn [rbind]. rewrite Hc. reflexivity.
Qed.
End fold.

Lemma initial_fuel S : (unfilled_cells S initial < fuel_of S)%nat.
Proof. unfold fuel_of, unfilled_cells. apply Nat.lt_succ_r, length_filter. Qed.

Lemma solve_is_a_fold_aux (doms : list Domino) (regs : list Region) (r c k : Z) :
  links_resolve regs →
  let S := Solver_new doms regs r c k in
  let g := foldl (record_capped S) (mkSearch [] ∅) (leaves (fuel_of S) S initial) in
  solve S = Ok (Z.of_nat (length (solutions g)), g)
  ∧ Z.of_nat (length (solutions g)) ≤ Z.max 0 (cap_of S).
Proof.
  intros Hlinks S g.
  pose proof (Solver_new_well_indexed doms regs r c k) as W. fold S in W.
  pose proof (Solver_new_links_ok doms regs r c k Hlinks) as L. fold S in L.
  assert (solve S = Ok (Z.of_nat (length (solutions g)), g)) as Hsolve.
  { unfold solve. rewrite (backtrack_fold S W L) by apply initial_fuel.
    reflexivity. }
  split; [assumption|].
  destruct (solve_summary S W L) as (g1 & Hg1 & _ & _ & Hcap & _).
  rewrite Hsolve in Hg1. injection Hg1 as _ ->. exact Hcap.
Qed.

(** X13. [solve] is a fold over the accepted complete states of the search
    tree, taken in the order of the depth-first search: each one is recorded
    unless the cap is reached or its value map was recorded before.  So the
    solutions come out in search order, and of the states with one value
    map the first is the one kept. *)
Theorem solve_is_a_fold (doms : list Domino) (regs : list Region) (r c k : Z) :
  links_resolve regs →
  let S := Solver_new doms regs r c k in
  let g := foldl (record_capped S) (mkSearch [] ∅) (leaves (fuel_of S) S initial) in
  solve S = Ok (Z.of_nat (length (solutions g)), g)
  ∧ (∀ s, s ∈ leaves (fuel_of S) S initial ↔ reachable S s ∧ accepted S s)
  ∧ (∀ state g0, record_capped S g0 state
       = if cap_reached S g0 then g0
         else if bool_decide (cell_values state ∈ seen_signatures g0) then g0
         else mkSearch (solutions g0 ++ [state])
                       ({[cell_values state]} ∪ seen_signatures g0)).
Proof.
  intros Hlinks S g. split; [|split].
  - apply (solve_is_a_fold_aux doms regs r c k Hlinks).
  - intros s. apply leaves_spec, initial_fuel.
  - reflexivity.
Qed.

Lemma solve_is_a_fold_witness :
  let S := Solver_new tiles_D regions_D 2 3 100 in
  solve S
  = Ok (Z.of_nat (length (solutions
          (foldl (record_capped S) (mkSearch [] ∅) (leaves (fuel_of S) S initial)))),
        foldl (record_capped S) (mkSearch [] ∅) (leaves (fuel_of S) S initial)).
Proof.
  apply (solve_is_a_fold tiles_D regions_D 2 3 100).
  apply links_resolveb_spec. vm_compute. reflexivity.
Defined.

(** *** A smaller cap gives a prefix *)

(** the same solver with another cap *)
Definition with_cap (S : Solver) (k : Z) : Solver :=
  mkSolver (dominoes S) (regions S) (rows S) (cols S) k
           (cell_to_region S) (region_by_id S) (all_cells S).

Section cap.
Variables (S : Solver) (k : Z).
Let S' := with_cap S k.

Lemma choose_cell_loop_cap filled todo best min_unfilled :
  choose_cell_loop S' filled todo best min_unfilled
  = choose_cell_loop S filled todo best min_unfilled.
Proof.
  revert best min_unfilled. induction todo as [|cell todo IH];
    intros best min_unfilled; simpl; [reflexivity|].
  case_bool_decide; [apply IH|].
  change (region_cells S' (cell_to_region_at S' cell))
    with (region_cells S (cell_to_region_at S cell)).
  destruct (region_cells S (cell_to_region_at S cell)); simpl;
    try reflexivity.
  destruct (_ <? _); apply IH.
Qed.

Lemma check_all_cap regs state : check_all S' regs state = check_all S regs state.
Proof.
  induction regs as [|reg regs IH]; simpl; [reflexivity|].
  change (check_constraint S' reg (cell_values state) (filled_cells state) false)
    with (check_constraint S reg (cell_values state) (filled_cells state) false).
  destruct (check_constraint S reg _ _ false) as [[|]| |]; simpl; auto.
Qed.

Lemma check_affected_cap rids values filled :
  check_affected S' rids values filled = check_affected S rids values filled.
Proof.
  induction rids as [|i rids IH]; simpl; [reflexivity|].
  change (region_by_id S') with (region_by_id S).
  destruct (region_by_id S !! i) as [reg|]; simpl; [|reflexivity].
  change (check_constraint S' reg values filled true)
    with (check_constraint S reg values filled true).
  destruct (check_constraint S reg values filled true) as [[|]| |]; simpl;
    auto.
Qed.

Lemma children_cap state cell : children S' state cell = children S state cell.
Proof.
  unfold children. change (dominoes S') with (dominoes S).
  change (get_adjacent S' cell) with (get_adjacent S cell).
  change (cell_to_region S') with (cell_to_region S).
  apply list_bind_ext; [|reflexivity]. intros d.
  apply list_bind_ext; [|reflexivity]. intros adj.
  f_equal. apply list_filter_iff. intros o. unfold candidate_ok.
  change (affected S' cell adj) with (affected S cell adj).
  rewrite check_affected_cap. reflexivity.
Qed.

Lemma accepted_cap state : accepted S' state ↔ accepted S state.
Proof.
  unfold accepted. change (all_cells S') with (all_cells S).
  change (regions S') with (regions S). rewrite check_all_cap. reflexivity.
Qed.

Lemma leaves_cap fuel state : leaves fuel S' state = leaves fuel S state.
Proof.
  revert state. induction fuel as [|fuel IH]; intros state; [reflexivity|].
  cbn [leaves]. change (all_cells S') with (all_cells S).
  unfold choose_cell. rewrite choose_cell_loop_cap.
  change (all_cells S') with (all_cells S).
  destruct (decide (accepted S' state)) as [H | H];
    destruct (decide (accepted S state)) as [H' | H'];
    try reflexivity; try (apply accepted_cap in H; contradiction);
    try (apply accepted_cap in H'; contradiction).
  destruct (decide _); [reflexivity|].
  destruct (choose_cell_loop S _ _ _ _) as [cell| |]; try reflexivity.
  destruct (cell.1 <? 0); [reflexivity|].
  rewrite children_cap. apply list_bind_ext; [|reflexivity]. intros child. apply IH.
Qed.
End cap.

Lemma record_solution_store_ok s g : store_ok g → store_ok (record_solution s g).
Proof.
  intros [Hnd Hs]. unfold record_solution. case_bool_decide as Hseen.
  - split; assumption.
  - split; unfold sigs; simpl.
    + rewrite fmap_app. apply NoDup_app. split; [assumption|]. split.
      * intros m Hm Hm'. simpl in Hm'. apply list_elem_of_singleton in Hm'.
        subst m. apply Hseen, Hs, Hm.
      * apply NoDup_singleton.
    + intros m. rewrite fmap_app, elem_of_app, elem_of_union, elem_of_singleton.
      simpl. rewrite list_elem_of_singleton, Hs. unfold sigs. tauto.
Qed.

Lemma store_ok_eq g g' :
  store_ok g → store_ok g' → solutions g = solutions g' → g = g'.
Proof.
  intros [_ Hs] [_ Hs'] Heq. destruct g as [sol seen], g' as [sol' seen'].
  simpl in *. subst sol'. f_equal. apply set_eq. intros m.
  rewrite Hs, Hs'. unfold sigs; simpl. reflexivity.
Qed.

Lemma fold_capped_prefix (S S' : Solver) (n : nat) l g g' :
  cap_of S = Z.of_nat n → Z.of_nat n ≤ cap_of S' →
  store_ok g → store_ok g' →
  solutions g = take n (solutions g') →
  solutions (foldl (record_capped S) g l)
  = take n (solutions (foldl (record_capped S') g' l)).
Proof.
  intros Hk Hk'. revert g g'.
  induction l as [|s l IH]; intros g g' Hok Hok' Hpre; [exact Hpre|].
  simpl. apply IH.
  - unfold record_capped. destruct (cap_reached S g); [assumption|].
    apply record_solution_store_ok, Hok.
  - unfold record_capped. destruct (cap_reached S' g'); [assumption|].
    apply record_solution_store_ok, Hok'.
  - unfold record_capped at 1. unfold cap_reached at 1. fold (cap_of S).
    rewrite Hk. destruct (Z.leb_spec (Z.of_nat n) (Z.of_nat (length (solutions g))))
      as [Hfull | Hroom].
    + assert (n ≤ length (solutions g'))%nat as Hlen.
      { rewrite Hpre, length_take in Hfull. lia. }
      rewrite Hpre. unfold record_capped.
      destruct (cap_reached S' g'); [reflexivity|].
      destruct (record_solution_grows s g') as [new ->].
      rewrite take_app_le by assumption. reflexivity.
    + assert (solutions g = solutions g') as Heq.
      { rewrite Hpre. apply take_ge. rewrite Hpre, length_take in Hroom. lia. }
      assert (g = g') as <- by (apply store_ok_eq; assumption).
      unfold record_capped. unfold cap_reached. fold (cap_of S').
      rewrite (proj2 (Z.leb_gt _ _)) by lia.
      symmetry. apply take_ge.
      unfold record_solution. case_bool_decide; simpl; [lia|].
      rewrite length_app; simpl. lia.
Qed.

(** X14. Lowering the cap only cuts the list of solutions short: for caps
    [0 <= k <= k'], the solutions [solve] records with cap [k] are the first
    [k] of those it records with cap [k']. *)
Theorem solve_cap_prefix (doms : list Domino) (regs : list Region)
    (r c k k' : Z) :
  links_resolve regs →
  0 ≤ k ≤ k' → k' ≤ INT_MAX →
  ∃ n g n' g',
    solve (Solver_new doms regs r c k) = Ok (n, g)
    ∧ solve (Solver_new doms regs r c k') = Ok (n', g')
    ∧ solutions g = take (Z.to_nat k) (solutions g')
    ∧ n = Z.min k n'.
Proof.
  intros Hlinks Hk Hk'.
  set (S := Solver_new doms regs r c k). set (S' := Solver_new doms regs r c k').
  destruct (solve_is_a_fold_aux doms regs r c k Hlinks) as [Hs Hcap].
  destruct (solve_is_a_fold_aux doms regs r c k' Hlinks) as [Hs' Hcap'].
  fold S in Hs, Hcap. fold S' in Hs', Hcap'.
  eexists _, _, _, _. split; [exact Hs|]. split; [exact Hs'|].
  assert (solutions (foldl (record_capped S) (mkSearch [] ∅)
                       (leaves (fuel_of S) S initial))
          = take (Z.to_nat k)
              (solutions (foldl (record_capped S') (mkSearch [] ∅)
                            (leaves (fuel_of S') S' initial)))) as Hpre.
  { change S' with (with_cap S k') at 3. rewrite leaves_cap.
    change (fuel_of S') with (fuel_of S).
    apply fold_capped_prefix.
    - rewrite cap_of_small by (simpl; lia). simpl. lia.
    - rewrite cap_of_small by (simpl; lia). simpl. lia.
    - apply empty_store_ok.
    - apply empty_store_ok.
    - simpl. symmetry. apply take_nil. }
  split; [exact Hpre|].
  rewrite Hpre, length_take.
  rewrite cap_of_small in Hcap' by (simpl; lia). simpl in Hcap'. lia.
Qed.

Lemma solve_cap_prefix_witness :
  ∃ n g n' g',
    solve (Solver_new tiles_D regions_D 2 3 3) = Ok (n, g)
    ∧ solve (Solver_new tiles_D regions_D 2 3 100) = Ok (n', g')
    ∧ solutions g = take (Z.to_nat 3) (solutions g')
    ∧ n = Z.min 3 n'.
Proof.
  apply (solve_cap_prefix tiles_D regions_D 2 3 3 100).
  - apply links_resolveb_spec. vm_compute. reflexivity.
  - lia.
  - unfold INT_MAX. lia.
Defined.

(** ** Combinations *)

Section combinations_facts.
Context {T : Type}.

(** the recursive call inside the loop is [combinations] one index further *)
Lemma combinations_loop_call (x : T) (rest : list T) n current result :
  combinations_loop (x :: rest) n current result
  = let cr := combinations (x :: rest) n 1 (current ++ [x]) result in
    combinations_loop rest n (removelast cr.1) cr.2.
Proof. reflexivity. Qed.

(** the sublists of [l] with [k] elements, those with the first element of
    [l] first *)
Fixpoint choices (l : list T) (k : nat) : list (list T) :=
  match k, l with
  | O, _ => [[]]
  | Datatypes.S _, [] => []
  | Datatypes.S k', x :: l' => (cons x <$> choices l' k') ++ choices l' k
  end.

Lemma choices_zero l : choices l 0 = [[]].
Proof. destruct l; reflexivity. Qed.

Lemma combinations_loop_over (rest : list T) n current result :
  n < Z.of_nat (length current) →
  combinations_loop rest n current result = (current, result).
Proof.
  revert current result. induction rest as [|x rest IH]; intros current result H;
    [reflexivity|].
  cbn [combinations_loop]. rewrite length_app. simpl length.
  rewrite (proj2 (Z.eqb_neq _ _)) by lia.
  rewrite (IH (current ++ [x])) by (rewrite length_app; simpl; lia).
  cbn [fst snd]. rewrite removelast_last. apply IH, H.
Qed.

Lemma combinations_loop_choices (rest : list T) n current result k :
  Z.of_nat (length current) + Z.of_nat (Datatypes.S k) = n →
  combinations_loop rest n current result
  = (current, result ++ (app current <$> choices rest (Datatypes.S k))).
Proof.
  revert current result k.
  induction rest as [|x rest IH]; intros current result k Hn.
  - simpl. rewrite app_nil_r. reflexivity.
  - cbn [combinations_loop]. rewrite length_app. simpl length.
    destruct k as [|k].
    + rewrite (proj2 (Z.eqb_eq _ _)) by lia. cbn [fst snd].
      rewrite removelast_last, (IH current _ O) by lia.
      cbn [choices]. rewrite choices_zero, fmap_app, app_assoc. reflexivity.
    + rewrite (proj2 (Z.eqb_neq _ _)) by lia.
      rewrite (IH (current ++ [x]) result k) by (rewrite length_app; simpl; lia).
      cbn [fst snd]. rewrite removelast_last.
      rewrite (IH current _ (Datatypes.S k)) by lia.
      change (choices (x :: rest) (Datatypes.S (Datatypes.S k)))
        with ((cons x <$> choices rest (Datatypes.S k))
              ++ choices rest (Datatypes.S (Datatypes.S k))).
      rewrite fmap_app, app_assoc. f_equal. f_equal. f_equal.
      rewrite <- list_fmap_compose. apply list_fmap_ext.
      intros i c _. simpl. rewrite <- app_assoc. reflexivity.
Qed.

Lemma combinations_spec (vec : list T) n start current result :
  combinations vec n start current result
  = (current,
     result ++ if n <? Z.of_nat (length current) then []
               else app current <$> choices (drop start vec)
                                      (Z.to_nat (n - Z.of_nat (length current)))).
Proof.
  unfold combinations.
  destruct (Z.eqb_spec (Z.of_nat (length current)) n) as [<- | Hne].
  - rewrite Z.ltb_irrefl, Z.sub_diag. simpl. rewrite choices_zero. simpl.
    rewrite app_nil_r. reflexivity.
  - destruct (Z.ltb_spec n (Z.of_nat (length current))) as [Hlt | Hge].
    + rewrite app_nil_r. apply combinations_loop_over, Hlt.
    + destruct (Z.to_nat (n - Z.of_nat (length current))) as [|k] eqn:E; [lia|].
      apply combinations_loop_choices. lia.
Qed.

Lemma get_combinations_choices (vec : list T) n :
  get_combinations vec n = if n <? 0 then [] else choices vec (Z.to_nat n).
Proof.
  unfold get_combinations. rewrite combinations_spec.
  cbn [snd length app drop]. change (Z.of_nat 0) with 0.
  destruct (n <? 0); [reflexivity|]. rewrite Z.sub_0_r.
  apply list_fmap_id.
Qed.

Lemma choices_elem l k c :
  c ∈ choices l k ↔ sublist c l ∧ length c = k.
Proof.
  revert k c. induction l as [|x l IH]; intros k c.
  - destruct k as [|k]; simpl.
    + rewrite list_elem_of_singleton. split.
      * intros ->. split; [constructor | reflexivity].
      * intros [_ H]. destruct c; [reflexivity | discriminate].
    + split; [intros H; inversion H|].
      intros [Hs Hl]. apply sublist_nil_r in Hs. subst c. discriminate.
  - destruct k as [|k].
    + simpl. rewrite list_elem_of_singleton. split.
      * intros ->. split; [apply sublist_nil_l | reflexivity].
      * intros [_ H]. destruct c; [reflexivity | discriminate].
    + cbn [choices]. rewrite elem_of_app, list_elem_of_fmap, sublist_cons_r.
      rewrite IH. split.
      * intros [(c' & -> & [Hs Hl]%IH) | [Hs Hl]].
        -- split; [right; eauto | simpl; lia].
        -- split; [left; assumption | assumption].
      * intros [[Hs | (c' & -> & Hs)] Hl].
        -- right. auto.
        -- left. exists c'. split; [reflexivity|]. apply IH.
           simpl in Hl. split; [assumption | lia].
Qed.

Lemma choices_NoDup l k : NoDup l → NoDup (choices l k).
Proof.
  revert k. induction l as [|x l IH]; intros k Hnd.
  - destruct k; simpl; [apply NoDup_singleton | constructor].
  - destruct k as [|k]; [apply NoDup_singleton|].
    apply NoDup_cons in Hnd as [Hx Hnd]. cbn [choices].
    apply NoDup_app. split; [|split].
    + apply NoDup_fmap_2; [|apply IH, Hnd]. intros a b [=]. assumption.
    + intros c (c' & -> & _)%list_elem_of_fmap [Hs _]%choices_elem.
      apply Hx. eapply elem_of_sublist; [apply list_elem_of_here | exact Hs].
    + apply IH, Hnd.
Qed.
End combinations_facts.

(** the number of ways to choose [k] things out of [n] *)
Fixpoint binom (n k : nat) : nat :=
  match k, n with
  | O, _ => 1
  | Datatypes.S _, O => 0
  | Datatypes.S k', Datatypes.S n' => binom n' k' + binom n' k
  end.

Lemma binom_gt n k : (n < k)%nat → binom n k = 0%nat.
Proof.
  revert k. induction n as [|n IH]; intros [|k] H; simpl; try lia.
  rewrite !IH by lia. reflexivity.
Qed.

(** [binom n k] is n! / (k! (n-k)!) *)
Lemma binom_fact n k :
  (k ≤ n)%nat → (binom n k * (fact k * fact (n - k)) = fact n)%nat.
Proof.
  revert k. induction n as [|n IH]; intros [|k] H; try lia.
  - simpl. lia.
  - simpl binom. simpl Nat.sub. change (fact 0) with 1%nat. lia.
  - change (binom (Datatypes.S n) (Datatypes.S k))
      with (binom n k + binom n (Datatypes.S k))%nat.
    replace (Datatypes.S n - Datatypes.S k)%nat with (n - k)%nat by lia.
    pose proof (IH k ltac:(lia)) as IH1.
    change (fact (Datatypes.S n)) with (Datatypes.S n * fact n)%nat.
    change (fact (Datatypes.S k)) with (Datatypes.S k * fact k)%nat.
    destruct (decide (k = n)) as [-> | Hne].
    + rewrite (binom_gt n (Datatypes.S n)) by lia.
      rewrite Nat.sub_diag in *. change (fact 0) with 1%nat in *. nia.
    + pose proof (IH (Datatypes.S k) ltac:(lia)) as IH2.
      change (fact (Datatypes.S k)) with (Datatypes.S k * fact k)%nat in IH2.
      replace (n - k)%nat with (Datatypes.S (n - Datatypes.S k)) by lia.
      change (fact (Datatypes.S (n - Datatypes.S k)))
        with (Datatypes.S (n - Datatypes.S k) * fact (n - Datatypes.S k))%nat.
      replace (n - k)%nat with (Datatypes.S (n - Datatypes.S k)) in IH1 by lia.
      change (fact (Datatypes.S (n - Datatypes.S k)))
        with (Datatypes.S (n - Datatypes.S k) * fact (n - Datatypes.S k))%nat in IH1.
      assert (Datatypes.S n = Datatypes.S k + Datatypes.S (n - Datatypes.S k))%nat
        as Hsplit by lia.
      nia.
Qed.

Lemma choices_length {T} (l : list T) k :
  length (choices l k) = binom (length l) k.
Proof.
  revert k. induction l as [|x l IH]; intros [|k]; simpl; try reflexivity.
  rewrite length_app, length_fmap, !IH. reflexivity.
Qed.

(** X15. [get_combinations vec n] lists, for [n >= 0], exactly the sublists
    of [vec] with [n] elements: elements of [vec] at increasing positions, so
    in the order of [vec].  When [vec] has no repetition, no combination
    comes twice and none repeats an element. *)
Theorem get_combinations_sublists {T} (vec : list T) (n : Z) :
  0 ≤ n →
  (∀ c, c ∈ get_combinations vec n
        ↔ sublist c vec ∧ Z.of_nat (length c) = n)
  ∧ (NoDup vec →
     NoDup (get_combinations vec n)
     ∧ ∀ c, c ∈ get_combinations vec n → NoDup c).
Proof.
  intros Hn. rewrite get_combinations_choices.
  rewrite (proj2 (Z.ltb_ge _ _)) by lia.
  assert (∀ c, c ∈ choices vec (Z.to_nat n)
               ↔ sublist c vec ∧ Z.of_nat (length c) = n) as Hspec.
  { intros c. rewrite choices_elem. split; intros [? ?]; (split; [assumption|lia]). }
  split; [exact Hspec|]. intros Hnd. split; [apply choices_NoDup, Hnd|].
  intros c [Hs _]%Hspec. eapply sublist_NoDup; eauto.
Qed.

Lemma get_combinations_sublists_witness :
  [mkDomino 0 1; mkDomino 4 5] ∈ get_combinations tiles_A 2
  ∧ NoDup (get_combinations tiles_A 2).
Proof.
  destruct (get_combinations_sublists tiles_A 2) as [Helem Hnd]; [lia|].
  split.
  - apply Helem. split; [|reflexivity].
    apply sublist_skip, sublist_cons, sublist_skip, sublist_cons, sublist_nil_l.
  - apply Hnd. apply (bool_decide_unpack _). vm_compute. reflexivity.
Defined.

(** X16. The number of combinations: [get_combinations vec n] has
    C(|vec|, n) entries for [n >= 0], where C(m, k) k! (m-k)! = m! for
    [k <= m] and C(m, k) = 0 for [k > m]. *)
Theorem get_combinations_count {T} (vec : list T) (n : Z) :
  0 ≤ n →
  length (get_combinations vec n) = binom (length vec) (Z.to_nat n)
  ∧ (∀ m k, (k ≤ m)%nat → (binom m k * (fact k * fact (m - k)) = fact m)%nat)
  ∧ (∀ m k, (m < k)%nat → binom m k = 0%nat).
Proof.
  intros Hn. rewrite get_combinations_choices.
  rewrite (proj2 (Z.ltb_ge _ _)) by lia.
  split; [apply choices_length|]. split; [apply binom_fact | apply binom_gt].
Qed.

Lemma get_combinations_count_witness :
  length (get_combinations tiles_A 2) = binom (length tiles_A) (Z.to_nat 2).
Proof. apply (get_combinations_count tiles_A 2). lia. Defined.

(** X17. The borders of [combinations]: a negative size gives no
    combination, size 0 the empty one alone, the size of [vec] gives [vec]
    alone and a larger size none; and whatever the arguments, a call leaves
    [current] as it found it and only appends to [result]. *)
Theorem combinations_borders {T} (vec : list T) (n : Z) (start : nat)
    (current : list T) (result : list (list T)) :
  (n < 0 → get_combinations vec n = [])
  ∧ get_combinations vec 0 = [[]]
  ∧ get_combinations vec (Z.of_nat (length vec)) = [vec]
  ∧ (Z.of_nat (length vec) < n → get_combinations vec n = [])
  ∧ (combinations vec n start current result).1 = current
  ∧ ∃ new, (combinations vec n start current result).2 = result ++ new.
Proof.
  split; [|split; [|split; [|split; [|split]]]].
  - intros H. rewrite get_combinations_choices.
    rewrite (proj2 (Z.ltb_lt _ _)) by lia. reflexivity.
  - rewrite get_combinations_choices. apply choices_zero.
  - rewrite get_combinations_choices.
    rewrite (proj2 (Z.ltb_ge _ _)) by lia. rewrite Nat2Z.id.
    clear. induction vec as [|x vec IH]; [reflexivity|].
    simpl length. cbn [choices]. rewrite IH.
    assert (choices vec (Datatypes.S (length vec)) = []) as ->.
    { apply length_zero_iff_nil. rewrite choices_length. apply binom_gt. lia. }
    reflexivity.
  - intros H. rewrite get_combinations_choices.
    rewrite (proj2 (Z.ltb_ge _ _)) by lia.
    apply length_zero_iff_nil. rewrite choices_length. apply binom_gt. lia.
  - rewrite combinations_spec. reflexivity.
  - rewrite combinations_spec. eauto.
Qed.

Lemma combinations_borders_witness :
  get_combinations [1; 2; 3] (-1) = [] ∧ get_combinations [1; 2; 3] 4 = [].
Proof.
  destruct (combinations_borders [1; 2; 3] (-1) 0 [] []) as (Hneg & _).
  destruct (combinations_borders [1; 2; 3] 4 0 [] []) as (_ & _ & _ & Hbig & _).
  split; [apply Hneg; lia | apply Hbig; simpl; lia].
Defined.

(** The double-six set has 28 tiles; the first tier tries 20475 sets of four
    of them. *)
Example combinations_of_four :
  Z.of_nat (binom 28 4) = 20475
  ∧ get_combinations [1; 2; 3] 2 = [[1; 2]; [1; 3]; [2; 3]].
Proof. vm_compute. auto. Qed.

(** ** Tier chaining, continued *)

Lemma exclude_dominoes_filter (pool exclude : list Domino) :
  exclude_dominoes pool exclude = filter (λ d, d ∉ exclude) pool.
Proof. unfold exclude_dominoes. rewrite exclude_loop_filter. reflexivity. Qed.

Lemma exclude_dominoes_elem (pool exclude : list Domino) (d : Domino) :
  d ∈ exclude_dominoes pool exclude ↔ d ∈ pool ∧ d ∉ exclude.
Proof. rewrite exclude_dominoes_filter, list_elem_of_filter. tauto. Qed.

Lemma exclude_dominoes_length (pool a : list Domino) :
  NoDup pool → NoDup a → (∀ d, d ∈ a → d ∈ pool) →
  (length (exclude_dominoes pool a) + length a = length pool)%nat.
Proof.
  intros Hpool Ha Hsub. rewrite exclude_dominoes_filter.
  rewrite <- (Permutation_length (filter_app_complement (λ d, d ∈ a) pool)).
  rewrite length_app.
  assert (filter (λ d, d ∈ a) pool ≡ₚ a) as Hperm.
  { apply NoDup_Permutation; [apply NoDup_filter, Hpool | exact Ha |].
    intros d. rewrite list_elem_of_filter. split; [tauto|]. auto. }
  rewrite (Permutation_length Hperm). lia.
Qed.

(** X18. Exclusions compose and commute: excluding [a] and then [b] is
    excluding [a ++ b], in either order.  Excluding nothing keeps the pool;
    the result is always a sublist of the pool, without repetition if the
    pool has none; and excluding [a], when the pool and [a] have no
    repetition and [a] is part of the pool, shortens the pool by the length
    of [a]. *)
Theorem exclude_dominoes_chain (pool a b : list Domino) :
  exclude_dominoes (exclude_dominoes pool a) b = exclude_dominoes pool (a ++ b)
  ∧ exclude_dominoes (exclude_dominoes pool a) b
    = exclude_dominoes (exclude_dominoes pool b) a
  ∧ exclude_dominoes pool [] = pool
  ∧ sublist (exclude_dominoes pool a) pool
  ∧ (NoDup pool → NoDup (exclude_dominoes pool a))
  ∧ (NoDup pool → NoDup a → (∀ d, d ∈ a → d ∈ pool) →
     (length (exclude_dominoes pool a) + length a = length pool)%nat).
Proof.
  rewrite !exclude_dominoes_filter. split; [|split; [|split; [|split; [|split]]]].
  - rewrite list_filter_filter. apply list_filter_iff. intros d.
    rewrite not_elem_of_app. tauto.
  - rewrite !list_filter_filter. apply list_filter_iff. intros d. tauto.
  - induction pool as [|d pool IH]; [reflexivity|].
    rewrite filter_cons, decide_True by apply not_elem_of_nil.
    rewrite IH. reflexivity.
  - apply sublist_filter.
  - apply NoDup_filter.
  - rewrite <- exclude_dominoes_filter. apply exclude_dominoes_length.
Qed.

Lemma exclude_dominoes_chain_witness :
  (length (exclude_dominoes tiles_A [mkDomino 2 3]) + length [mkDomino 2 3]
   = length tiles_A)%nat.
Proof.
  destruct (exclude_dominoes_chain tiles_A [mkDomino 2 3] [])
    as (_ & _ & _ & _ & _ & Hlen).
  apply Hlen.
  - apply (bool_decide_unpack _). vm_compute. reflexivity.
  - apply NoDup_singleton.
  - intros d ->%list_elem_of_singleton.
    apply list_elem_of_further, list_elem_of_here.
Defined.

(** ** The tile sets *)

Lemma all_d6_elem (d : Domino) : d ∈ all_d6 ↔ 0 ≤ low d ≤ high d ≤ 6.
Proof.
  unfold all_d6. rewrite list_elem_of_bind. split.
  - intros (i & (j & Hd & Hj%elem_of_seqZ)%list_elem_of_bind & Hi%elem_of_seqZ).
    apply list_elem_of_singleton in Hd as ->. simpl. lia.
  - intros H. exists (low d). split; [|apply elem_of_seqZ; lia].
    apply list_elem_of_bind. exists (high d). split; [|apply elem_of_seqZ; lia].
    destruct d. apply list_elem_of_singleton. reflexivity.
Qed.

Lemma d9_remainder_elem (d : Domino) :
  d ∈ d9_remainder ↔ 0 ≤ low d ≤ high d ≤ 9 ∧ 7 ≤ high d.
Proof.
  unfold d9_remainder. rewrite list_elem_of_bind. split.
  - intros (i & (j & Hd & Hj%elem_of_seqZ)%list_elem_of_bind & Hi%elem_of_seqZ).
    destruct ((7 <=? i) || (7 <=? j)) eqn:E.
    + apply list_elem_of_singleton in Hd as ->. simpl.
      apply orb_true_iff in E. rewrite !Z.leb_le in E. lia.
    + inversion Hd.
  - intros H. exists (low d). split; [|apply elem_of_seqZ; lia].
    apply list_elem_of_bind. exists (high d). split; [|apply elem_of_seqZ; lia].
    replace ((7 <=? low d) || (7 <=? high d)) with true.
    + destruct d. apply list_elem_of_singleton. reflexivity.
    + symmetry. apply orb_true_iff. rewrite !Z.leb_le. lia.
Qed.

Lemma all_d6_NoDup : NoDup all_d6.
Proof. apply (bool_decide_unpack _). vm_compute. reflexivity. Qed.

Lemma d9_remainder_NoDup : NoDup d9_remainder.
Proof. apply (bool_decide_unpack _). vm_compute. reflexivity. Qed.

(** X19. The tile sets that [main] builds: [all_d6] holds exactly the tiles
    with pips 0 <= low <= high <= 6 and [d9_remainder] exactly those with
    0 <= low <= high <= 9 and high >= 7, each once; they have 28 and 27
    tiles and share none. *)
Theorem tile_sets (d : Domino) :
  (d ∈ all_d6 ↔ 0 ≤ low d ≤ high d ≤ 6)
  ∧ (d ∈ d9_remainder ↔ 0 ≤ low d ≤ high d ≤ 9 ∧ 7 ≤ high d)
  ∧ NoDup all_d6 ∧ NoDup d9_remainder
  ∧ length all_d6 = 28%nat ∧ length d9_remainder = 27%nat
  ∧ ¬ (d ∈ all_d6 ∧ d ∈ d9_remainder).
Proof.
  split; [apply all_d6_elem|]. split; [apply d9_remainder_elem|].
  split; [apply all_d6_NoDup|]. split; [apply d9_remainder_NoDup|].
  split; [reflexivity|]. split; [reflexivity|].
  rewrite all_d6_elem, d9_remainder_elem. lia.
Qed.

(** ** The command line *)

Lemma string_find_Some ch s dash :
  string_find ch s = Some dash →
  s !! dash = Some ch ∧ (ch ∉ take dash s) ∧ (dash < length s)%nat.
Proof.
  revert dash. induction s as [|a s IH]; intros dash; simpl; [discriminate|].
  destruct (Ascii.eqb_spec a ch) as [-> | Hne].
  - intros [= <-]. simpl. split; [reflexivity|]. split; [apply not_elem_of_nil | lia].
  - destruct (string_find ch s) as [k|]; [|discriminate].
    intros [= <-]. destruct (IH k eq_refl) as (H1 & H2 & H3). simpl.
    split; [assumption|]. split; [|lia].
    rewrite not_elem_of_cons. split; [congruence | assumption].
Qed.

Lemma string_find_None ch s : string_find ch s = None ↔ ch ∉ s.
Proof.
  induction s as [|a s IH]; simpl.
  - split; [intros _; apply not_elem_of_nil | reflexivity].
  - rewrite not_elem_of_cons. destruct (Ascii.eqb_spec a ch) as [-> | Hne].
    + split; [discriminate | intros [[] _]; reflexivity].
    + destruct (string_find ch s); simpl.
      * split; [discriminate|]. intros [_ H]. apply IH in H. discriminate.
      * split; [|reflexivity]. intros _. split; [congruence | apply IH; reflexivity].
Qed.

Lemma string_find_app ch a b :
  ch ∉ a → string_find ch (a ++ ch :: b) = Some (length a).
Proof.
  induction a as [|x a IH]; simpl.
  - intros _. rewrite Ascii.eqb_refl. reflexivity.
  - rewrite not_elem_of_cons. intros [Hne Ha].
    destruct (Ascii.eqb_spec x ch) as [-> | _]; [congruence|].
    rewrite (IH Ha). reflexivity.
Qed.

Lemma mapM_option_app {A B} (f : A → option B) (l1 l2 : list A) :
  mapM f (l1 ++ l2) = k1 ← mapM f l1; k2 ← mapM f l2; Some (k1 ++ k2).
Proof.
  induction l1 as [|x l1 IH]; simpl.
  - destruct (mapM f l2); reflexivity.
  - destruct (f x) as [y|]; [|reflexivity]. cbn [mbind option_bind].
    rewrite IH. destruct (mapM f l1) as [k1|]; [|reflexivity].
    cbn [mbind option_bind]. destruct (mapM f l2); reflexivity.
Qed.

Section parse_facts.
Variable stoi : list ascii → option Z.

Lemma parse_domino_split (a b : list ascii) :
  "-"%char ∉ a →
  parse_domino stoi (a ++ "-"%char :: b)
  = match stoi a, stoi b with
    | Some x, Some y => Some (mkDomino (Z.min x y) (Z.max x y))
    | _, _ => None
    end.
Proof.
  intros Ha. unfold parse_domino. rewrite (string_find_app _ a b Ha).
  rewrite take_app_length.
  replace (drop (length a + 1) (a ++ "-"%char :: b)) with b.
  - destruct (stoi a) as [x|]; [|reflexivity]. simpl.
    destruct (stoi b) as [y|]; [|reflexivity]. simpl.
    f_equal. destruct (Z.ltb_spec y x).
    + rewrite Z.min_r, Z.max_l by lia. reflexivity.
    + rewrite Z.min_l, Z.max_r by lia. reflexivity.
  - rewrite drop_app_ge by lia.
    replace (length a + 1 - length a)%nat with 1%nat by lia. reflexivity.
Qed.

Lemma parse_domino_ordered (s : list ascii) (d : Domino) :
  parse_domino stoi s = Some d → low d ≤ high d.
Proof.
  unfold parse_domino. destruct (string_find "-" s) as [dash|].
  - destruct (stoi (take dash s)) as [x|]; [|discriminate]. simpl.
    destruct (stoi (drop (dash + 1) s)) as [y|]; [|discriminate]. simpl.
    intros [= <-]. destruct (Z.ltb_spec y x); simpl; lia.
  - intros [= <-]. simpl. lia.
Qed.

Lemma parse_domino_no_dash (s : list ascii) :
  "-"%char ∉ s → parse_domino stoi s = Some (mkDomino (-1) (-1)).
Proof.
  intros H%string_find_None. unfold parse_domino. rewrite H. reflexivity.
Qed.

Lemma parse_excluded_loop (args : list (list ascii)) (acc : option (list Domino)) :
  foldl (λ acc arg,
           exclude_list ← acc;
           d ← parse_domino stoi arg;
           Some (if 0 <=? low d then exclude_list ++ [d] else exclude_list))
        acc args
  = exclude_list ← acc;
    ds ← mapM (parse_domino stoi) args;
    Some (exclude_list ++ filter (λ d, 0 ≤ low d) ds).
Proof.
  revert acc. induction args as [|arg args IH]; intros acc.
  - destruct acc as [l|]; simpl; [|reflexivity]. rewrite app_nil_r. reflexivity.
  - cbn [foldl]. rewrite IH. destruct acc as [l|]; [|reflexivity].
    cbn [mbind option_bind mapM].
    destruct (parse_domino stoi arg) as [d|]; [|reflexivity]. cbn [mbind option_bind].
    destruct (mapM (parse_domino stoi) args) as [ds|]; [|reflexivity].
    cbn [mbind option_bind mret option_ret]. f_equal. rewrite filter_cons.
    destruct (Z.leb_spec 0 (low d)).
    + rewrite decide_True by assumption. rewrite <- app_assoc. reflexivity.
    + rewrite decide_False by lia. reflexivity.
Qed.

Lemma parse_excluded_filter (args : list (list ascii)) :
  parse_excluded stoi args
  = filter (λ d, 0 ≤ low d) <$> mapM (parse_domino stoi) args.
Proof.
  unfold parse_excluded. rewrite parse_excluded_loop. cbn [mbind option_bind].
  destruct (mapM (parse_domino stoi) args); reflexivity.
Qed.
End parse_facts.

(** X20. [parse_domino] splits its argument at the first dash and orders the
    two numbers: for a text [a-b] with no dash in [a] it gives the tile with
    the smaller of [stoi a] and [stoi b] as low and the larger as high, and
    fails when either conversion throws, so [a-b] and [b-a] give the same
    tile.  A text without a dash gives the tile (-1,-1) without any
    conversion.  Every tile it returns has low <= high. *)
Theorem parse_domino_canonical (stoi : list ascii → option Z) (a b : list ascii) :
  ("-"%char ∉ a →
   parse_domino stoi (a ++ "-"%char :: b)
   = match stoi a, stoi b with
     | Some x, Some y => Some (mkDomino (Z.min x y) (Z.max x y))
     | _, _ => None
     end)
  ∧ ("-"%char ∉ a → "-"%char ∉ b →
     parse_domino stoi (a ++ "-"%char :: b) = parse_domino stoi (b ++ "-"%char :: a))
  ∧ ("-"%char ∉ a → parse_domino stoi a = Some (mkDomino (-1) (-1)))
  ∧ (∀ d, parse_domino stoi a = Some d → low d ≤ high d).
Proof.
  split; [apply parse_domino_split|]. split; [|split].
  - intros Ha Hb. rewrite !parse_domino_split by assumption.
    destruct (stoi a) as [x|], (stoi b) as [y|]; try reflexivity.
    rewrite Z.min_comm, Z.max_comm. reflexivity.
  - apply parse_domino_no_dash.
  - apply parse_domino_ordered.
Qed.

(** a conversion of one digit, to run [parse_domino] on *)
Definition stoi_digit (s : list ascii) : option Z :=
  match s with
  | [ch] =>
      let n := Z.of_nat (nat_of_ascii ch) - 48 in
      if (0 <=? n) && (n <=? 9) then Some n else None
  | _ => None
  end.

Lemma parse_domino_canonical_witness :
  parse_domino stoi_digit ["6"; "-"; "3"]%char = Some (mkDomino 3 6).
Proof.
  destruct (parse_domino_canonical stoi_digit ["6"%char] ["3"%char]) as (Hsplit & _).
  apply Hsplit. intros H%list_elem_of_singleton. discriminate H.
Defined.

(** X21. The exclusion list of [main] holds, in the order of the arguments,
    the tiles parsed from them whose low pip is not negative: the loop fails
    when a conversion throws, an argument without a dash adds nothing, and
    every tile of the list has 0 <= low <= high.  Nothing makes the tiles
    belong to the double-six set or differ from each other. *)
Theorem parse_excluded_list (stoi : list ascii → option Z)
    (args args' : list (list ascii)) (a : list ascii) :
  parse_excluded stoi args
  = filter (λ d, 0 ≤ low d) <$> mapM (parse_domino stoi) args
  ∧ (∀ l d, parse_excluded stoi args = Some l → d ∈ l → 0 ≤ low d ≤ high d)
  ∧ (∀ l, parse_excluded stoi args = Some l → (length l ≤ length args)%nat)
  ∧ ("-"%char ∉ a →
     parse_excluded stoi (args ++ a :: args') = parse_excluded stoi (args ++ args'))
  ∧ (∀ x, 0 ≤ x → "-"%char ∉ a → stoi a = Some x →
       parse_excluded stoi [a ++ "-"%char :: a; a ++ "-"%char :: a]
       = Some [mkDomino x x; mkDomino x x]).
Proof.
  split; [apply parse_excluded_filter|]. split; [|split; [|split]].
  - intros l d. rewrite parse_excluded_filter.
    destruct (mapM (parse_domino stoi) args) as [ds|] eqn:E; [|discriminate].
    intros [= <-] [Hlow Hd]%list_elem_of_filter. split; [assumption|].
    apply mapM_Some_1 in E.
    apply list_elem_of_lookup in Hd as [i Hi].
    destruct (Forall2_lookup_r _ _ _ _ _ E Hi) as (s & _ & Hs).
    apply (parse_domino_ordered stoi s d Hs).
  - intros l. rewrite parse_excluded_filter.
    destruct (mapM (parse_domino stoi) args) as [ds|] eqn:E; [|discriminate].
    intros [= <-]. apply length_mapM in E.
    pose proof (length_filter (λ d, 0 ≤ low d) ds). lia.
  - intros Ha. rewrite !parse_excluded_filter, !mapM_option_app.
    destruct (mapM (parse_domino stoi) args) as [ds|]; [|reflexivity].
    cbn [mbind option_bind mapM]. rewrite (parse_domino_no_dash stoi a Ha).
    cbn [mbind option_bind].
    destruct (mapM (parse_domino stoi) args') as [ds'|]; [|reflexivity].
    cbn [mbind option_bind mret option_ret fmap option_fmap option_map].
    f_equal. rewrite !filter_app, filter_cons. simpl. reflexivity.
  - intros x Hx Ha Hs. rewrite parse_excluded_filter. cbn [mapM].
    rewrite (parse_domino_split stoi a a Ha), Hs.
    cbn [mbind option_bind mret option_ret fmap option_fmap option_map].
    rewrite Z.min_id, Z.max_id. f_equal.
    rewrite !filter_cons, !decide_True by (simpl; lia). reflexivity.
Qed.

Lemma parse_excluded_list_witness :
  parse_excluded stoi_digit [["1"; "-"; "2"]; ["x"]]%char
  = parse_excluded stoi_digit [["1"; "-"; "2"]]%char.
Proof.
  destruct (parse_excluded_list stoi_digit [["1"; "-"; "2"]]%char [] ["x"%char])
    as (_ & _ & _ & Hskip & _).
  apply Hskip. intros H%list_elem_of_singleton. discriminate H.
Defined.

(** ** The sums of [search_medium] *)

Lemma sums_of_fmap (dominoes : list Domino) : sums_of dominoes = pips <$> dominoes.
Proof.
  unfold sums_of.
  assert (∀ acc, foldl (λ sums d, sums ++ [pips d]) acc dominoes
                 = acc ++ (pips <$> dominoes)) as H.
  { induction dominoes as [|d l IH]; intros acc.
    - simpl. rewrite app_nil_r. reflexivity.
    - rewrite fmap_cons. cbn [foldl]. rewrite IH, <- app_assoc. reflexivity. }
  apply H.
Qed.

Lemma total_pips_Zsum (dominoes : list Domino) :
  total_pips dominoes = Zsum (pips <$> dominoes).
Proof.
  unfold total_pips.
  assert (∀ acc, foldl (λ total d, total + pips d) acc dominoes
                 = acc + Zsum (pips <$> dominoes)) as H.
  { induction dominoes as [|d l IH]; intros acc.
    - simpl. lia.
    - rewrite fmap_cons. cbn [foldl Zsum]. rewrite IH. lia. }
  rewrite H. lia.
Qed.

Lemma distinct_after_NoDup (prev : Z) (rest : list Z) :
  StronglySorted Z.le (prev :: rest) →
  distinct_after prev rest = true ↔ NoDup (prev :: rest).
Proof.
  revert prev. induction rest as [|x rest IH]; intros prev Hs; simpl.
  - split; [intros _; apply NoDup_singleton | reflexivity].
  - apply StronglySorted_inv in Hs as [Hs Hall].
    destruct (Z.eqb_spec x prev) as [-> | Hne].
    + split; [discriminate|]. intros [Hn _]%NoDup_cons. exfalso. apply Hn.
      apply list_elem_of_here.
    + rewrite (IH x Hs). rewrite (NoDup_cons prev). split; [|tauto].
      intros H. split; [|assumption].
      apply StronglySorted_inv in Hs as [_ Hx].
      apply Forall_cons in Hall as [Hpx _].
      rewrite not_elem_of_cons. split; [congruence|].
      intros Hin. rewrite Forall_forall in Hx. specialize (Hx _ Hin). lia.
Qed.

Lemma distinct_NoDup (l : list Z) :
  StronglySorted Z.le l → distinct l = true ↔ NoDup l.
Proof.
  destruct l as [|x l]; simpl.
  - intros _. split; [intros _; apply NoDup_nil_2 | reflexivity].
  - apply distinct_after_NoDup.
Qed.

Lemma sort_sorted (l : list Z) : StronglySorted Z.le (sort l) ∧ sort l ≡ₚ l.
Proof.
  split; [apply StronglySorted_merge_sort; apply _ | apply merge_sort_Permutation].
Qed.

Lemma sorted_last_max (l : list Z) (m : Z) :
  StronglySorted Z.le l → last l = Some m → m ∈ l ∧ ∀ x, x ∈ l → x ≤ m.
Proof.
  induction 1 as [|x l Hs IH Hall]; [discriminate|].
  destruct l as [|y l].
  - intros [= <-]. split; [apply list_elem_of_here|].
    intros z Hz%list_elem_of_singleton. lia.
  - change (last (x :: y :: l)) with (last (y :: l)). intros Hl.
    destruct (IH Hl) as [Hm Hmax]. split; [apply list_elem_of_further, Hm|].
    intros z [-> | Hz]%elem_of_cons; [|apply Hmax, Hz].
    rewrite Forall_forall in Hall. apply Hall, Hm.
Qed.

(** X22. The filter of [search_medium]: a combination passes exactly when no
    two of its tiles have the same pip total, and [max_sum] is then the
    largest pip total of its tiles. *)
Theorem search_medium_distinct_sums (dominoes : list Domino) :
  (distinct (sort (sums_of dominoes)) = true ↔ NoDup (pips <$> dominoes))
  ∧ (∀ max_sum, last (sort (sums_of dominoes)) = Some max_sum →
       (∃ d, d ∈ dominoes ∧ pips d = max_sum)
       ∧ ∀ d, d ∈ dominoes → pips d ≤ max_sum)
  ∧ (last (sort (sums_of dominoes)) = None ↔ dominoes = []).
Proof.
  rewrite sums_of_fmap.
  destruct (sort_sorted (pips <$> dominoes)) as [Hs Hp].
  split; [|split].
  - rewrite (distinct_NoDup _ Hs). split; intros H.
    + rewrite <- Hp. exact H.
    + rewrite Hp. exact H.
  - intros m Hm. destruct (sorted_last_max _ _ Hs Hm) as [Hin Hmax]. split.
    + rewrite Hp in Hin. apply list_elem_of_fmap in Hin as (d & -> & Hd). eauto.
    + intros d Hd. apply Hmax. rewrite Hp. apply list_elem_of_fmap. eauto.
  - rewrite last_None. split.
    + intros H. rewrite H in Hp. apply Permutation_nil_l in Hp.
      symmetry in Hp. apply fmap_nil_inv in Hp. exact Hp.
    + intros ->. reflexivity.
Qed.

Lemma search_medium_distinct_sums_witness :
  ∃ d, d ∈ tiles_A ∧ pips d = 12.
Proof.
  destruct (search_medium_distinct_sums tiles_A) as (_ & Hmax & _).
  apply (Hmax 12). vm_compute. reflexivity.
Defined.

(** ** The work of the four workers *)

(** the elements of [l] at the indices [t], [t + 4], [t + 8], ... *)
Fixpoint every_fourth {T} (t : nat) (l : list T) : list T :=
  match l with
  | [] => []
  | x :: l' =>
      match t with
      | O => x :: every_fourth 3 l'
      | Datatypes.S t' => every_fourth t' l'
      end
  end.

Lemma every_fourth_lookup {T} (t : nat) (l : list T) (k : nat) :
  every_fourth t l !! k = l !! (t + 4 * k)%nat.
Proof.
  revert t k. induction l as [|x l IH]; intros t k; [reflexivity|].
  destruct t as [|t]; simpl.
  - destruct k as [|k]; [reflexivity|]. simpl. rewrite IH.
    replace (k + S (k + S (k + S (k + 0))))%nat with (S (S (S (4 * k))))%nat by lia.
    reflexivity.
  - rewrite IH. reflexivity.
Qed.

Lemma every_fourth_sublist {T} (t : nat) (l : list T) :
  sublist (every_fourth t l) l.
Proof.
  revert t. induction l as [|x l IH]; intros t; [constructor|].
  destruct t; simpl; [apply sublist_skip | apply sublist_cons]; apply IH.
Qed.

Lemma every_fourth_partition {T} (l : list T) :
  every_fourth 0 l ++ every_fourth 1 l ++ every_fourth 2 l ++ every_fourth 3 l ≡ₚ l.
Proof.
  induction l as [|x l IH]; [reflexivity|]. simpl. constructor.
  etrans; [|exact IH].
  rewrite (Permutation_app_comm (every_fourth 3 l)), <- !app_assoc. reflexivity.
Qed.

Lemma stride_loop_lookup {T} (fuel : nat) (i : Z) (combos : list T) (k : nat) :
  0 ≤ i → (k < fuel)%nat →
  stride_loop fuel i combos !! k = combos !! (Z.to_nat i + 4 * k)%nat.
Proof.
  revert i k. induction fuel as [|fuel IH]; intros i k Hi Hk; [lia|].
  simpl. destruct (Z.ltb_spec i (Z.of_nat (length combos))) as [Hlt | Hge].
  - destruct (lookup_lt_is_Some_2 combos (Z.to_nat i)) as [x Hx]; [lia|].
    rewrite Hx. destruct k as [|k].
    + rewrite Nat.add_0_r. simpl. symmetry. exact Hx.
    + simpl. rewrite IH by lia. f_equal. lia.
  - rewrite lookup_nil. symmetry. apply lookup_ge_None. lia.
Qed.

Lemma stride_loop_length {T} (fuel : nat) (i : Z) (combos : list T) :
  (length (stride_loop fuel i combos) ≤ fuel)%nat.
Proof.
  revert i. induction fuel as [|fuel IH]; intros i; simpl; [lia|].
  destruct (i <? Z.of_nat (length combos)); [|simpl; lia].
  destruct (combos !! Z.to_nat i); simpl; [|lia]. specialize (IH (i + 4)). lia.
Qed.

Lemma stride_every_fourth {T} (thread_id : Z) (combos : list T) :
  stride thread_id combos = every_fourth (Z.to_nat (to_size_t thread_id)) combos.
Proof.
  assert (0 ≤ to_size_t thread_id) as Hpos
    by (unfold to_size_t; apply Z.mod_pos_bound; lia).
  apply list_eq. intros k. rewrite every_fourth_lookup. unfold stride.
  destruct (decide (k < Datatypes.S (length combos))%nat) as [Hk | Hk].
  - apply stride_loop_lookup; assumption.
  - rewrite (lookup_ge_None_2 combos) by lia.
    apply lookup_ge_None_2.
    pose proof (stride_loop_length (Datatypes.S (length combos))
                  (to_size_t thread_id) combos). lia.
Qed.

Lemma stride_elem {T} (thread_id : Z) (combos : list T) (x : T) :
  x ∈ stride thread_id combos → x ∈ combos.
Proof.
  rewrite stride_every_fourth. intros H.
  eapply elem_of_sublist; [exact H | apply every_fourth_sublist].
Qed.

(** X23. The four workers of a tier divide the combinations among them:
    worker [t] comes to the combinations at the indices [t], [t + 4],
    [t + 8], ... in that order, so that together the workers 0 to 3 come to
    every combination once.  A negative worker number comes to none. *)
Theorem stride_partition {T} (combos : list T) (thread_id : Z) :
  (∀ k, stride thread_id combos !! k
        = combos !! (Z.to_nat (to_size_t thread_id) + 4 * k)%nat)
  ∧ sublist (stride thread_id combos) combos
  ∧ stride 0 combos ++ stride 1 combos ++ stride 2 combos ++ stride 3 combos
    ≡ₚ combos
  ∧ (- 2 ^ 31 ≤ thread_id < 0 → Z.of_nat (length combos) ≤ 2 ^ 63 →
     stride thread_id combos = []).
Proof.
  split; [|split; [|split]].
  - intros k. rewrite stride_every_fourth. apply every_fourth_lookup.
  - rewrite stride_every_fourth. apply every_fourth_sublist.
  - rewrite !stride_every_fourth. apply every_fourth_partition.
  - intros Hneg Hlen. unfold stride. cbn [stride_loop].
    destruct (Z.ltb_spec (to_size_t thread_id) (Z.of_nat (length combos)))
      as [Hlt | _]; [|reflexivity].
    exfalso. unfold to_size_t in Hlt.
    replace (thread_id mod 2 ^ 64) with (thread_id + 2 ^ 64) in Hlt; [lia|].
    apply (Z.mod_unique_pos _ _ (-1)); lia.
Qed.

Lemma stride_partition_witness : stride (-1) [1; 2; 3] = [].
Proof.
  destruct (stride_partition [1; 2; 3] (-1)) as (_ & _ & _ & Hneg).
  apply Hneg; simpl; lia.
Defined.

(** ** The candidates of the four searches *)

(** the cells of a grid, row by row *)
Definition grid (rows cols : Z) : list Cell :=
  i ← seqZ 0 rows; j ← seqZ 0 cols; [(i, j)].

Lemma get_combinations_elem {T} (vec : list T) (n : Z) (c : list T) :
  0 ≤ n → c ∈ get_combinations vec n →
  sublist c vec ∧ length c = Z.to_nat n.
Proof.
  intros Hn. rewrite get_combinations_choices.
  rewrite (proj2 (Z.ltb_ge _ _)) by lia. apply choices_elem.
Qed.

Lemma choices_first {T} (l : list T) (k : nat) :
  (k ≤ length l)%nat → choices l k !! 0%nat = Some (take k l).
Proof.
  revert k. induction l as [|x l IH]; intros k Hk.
  - destruct k; [reflexivity | simpl in Hk; lia].
  - destruct k as [|k]; [reflexivity|]. cbn [choices take].
    simpl in Hk. apply lookup_app_l_Some.
    rewrite list_lookup_fmap, IH by lia. reflexivity.
Qed.

(** worker 0 starts with the first [n] elements of the pool *)
Lemma stride_first {T} (vec : list T) (n : Z) :
  0 ≤ n ≤ Z.of_nat (length vec) →
  take (Z.to_nat n) vec ∈ stride 0 (get_combinations vec n).
Proof.
  intros Hn. apply list_elem_of_lookup. exists 0%nat.
  rewrite stride_every_fourth, every_fourth_lookup.
  rewrite get_combinations_choices. rewrite (proj2 (Z.ltb_ge _ _)) by (simpl; lia).
  apply choices_first. lia.
Qed.

Lemma search_easy_2x4_sums_elem thread_id pool c :
  c ∈ search_easy_2x4_sums thread_id pool
  ↔ ∃ dominoes target3,
      dominoes ∈ stride thread_id (get_combinations pool 4)
      ∧ 1 ≤ target3 ≤ 12
      ∧ c = candidate dominoes (regions_A target3) 2 4 "Easy1_IneqChain".
Proof.
  unfold search_easy_2x4_sums. rewrite list_elem_of_bind. split.
  - intros (ds & (t & ->%list_elem_of_singleton & Ht%elem_of_seqZ)%list_elem_of_bind
            & Hds).
    exists ds, t. split; [assumption|]. split; [lia | reflexivity].
  - intros (ds & t & Hds & Ht & ->). exists ds. split; [|assumption].
    apply list_elem_of_bind. exists t. split; [apply list_elem_of_singleton; reflexivity|].
    apply elem_of_seqZ. lia.
Qed.

Lemma search_easy_3cell_regions_elem thread_id pool c :
  c ∈ search_easy_3cell_regions thread_id pool
  ↔ ∃ dominoes t0 t1,
      dominoes ∈ stride thread_id (get_combinations pool 4)
      ∧ 0 ≤ t0 ∧ 0 ≤ t1 ∧ t0 + t1 ≤ total_pips dominoes
      ∧ c = candidate dominoes
              (regions_easy2 t0 t1 (total_pips dominoes - t0 - t1)) 2 4
              "Easy2_ForcedSpan".
Proof.
  unfold search_easy_3cell_regions. rewrite list_elem_of_bind. split.
  - intros (ds & (t0 & (t1 & ->%list_elem_of_singleton & H1%elem_of_seqZ)%list_elem_of_bind
                  & H0%elem_of_seqZ)%list_elem_of_bind & Hds).
    exists ds, t0, t1. split; [assumption|]. repeat (split; [lia|]). reflexivity.
  - intros (ds & t0 & t1 & Hds & H0 & H1 & Hsum & ->). exists ds. split; [|assumption].
    apply list_elem_of_bind. exists t0. split; [|apply elem_of_seqZ; lia].
    apply list_elem_of_bind. exists t1. split; [|apply elem_of_seqZ; lia].
    apply list_elem_of_singleton. reflexivity.
Qed.

Lemma search_medium_elem thread_id pool c :
  c ∈ search_medium thread_id pool
  ↔ ∃ dominoes max_sum target5,
      dominoes ∈ stride thread_id (get_combinations pool 6)
      ∧ distinct (sort (sums_of dominoes)) = true
      ∧ last (sort (sums_of dominoes)) = Some max_sum
      ∧ max_sum ≤ target5 ≤ max_sum + 2
      ∧ c = candidate dominoes (regions_medium target5) 3 4
              "Medium_InequalityChain".
Proof.
  unfold search_medium. rewrite list_elem_of_bind. split.
  - intros (ds & Hc & Hds).
    destruct (distinct (sort (sums_of ds))) eqn:Hd; [|inversion Hc].
    destruct (last (sort (sums_of ds))) as [m|] eqn:Hm; [|inversion Hc].
    apply list_elem_of_bind in Hc
      as (t & ->%list_elem_of_singleton & Ht%elem_of_seqZ).
    exists ds, m, t. repeat (split; [assumption || lia|]). reflexivity.
  - intros (ds & m & t & Hds & Hd & Hm & Ht & ->). exists ds. split; [|assumption].
    rewrite Hd, Hm. apply list_elem_of_bind. exists t.
    split; [apply list_elem_of_singleton; reflexivity | apply elem_of_seqZ; lia].
Qed.

Lemma search_hard_elem thread_id pool unused c :
  c ∈ search_hard thread_id pool unused
  ↔ ∃ dominoes target3,
      dominoes ∈ stride thread_id (get_combinations pool 8)
      ∧ 1 ≤ target3 < total_pips dominoes
      ∧ c = candidate dominoes (regions_hard target3) 2 8 "Hard_D9Remainder".
Proof.
  unfold search_hard. rewrite list_elem_of_bind. split.
  - intros (ds & (t & ->%list_elem_of_singleton & Ht%elem_of_seqZ)%list_elem_of_bind
            & Hds).
    exists ds, t. split; [assumption|]. split; [lia | reflexivity].
  - intros (ds & t & Hds & Ht & ->). exists ds. split; [|assumption].
    apply list_elem_of_bind. exists t. split; [apply list_elem_of_singleton; reflexivity|].
    apply elem_of_seqZ. lia.
Qed.

(** what makes a candidate a puzzle *)
Record puzzle (c : PuzzleResult) : Prop := {
  pz_well_formed : well_formed (result_dominoes c) (result_regions c);
  pz_tiles : NoDup (result_dominoes c);
  pz_grid :
    all_cells (Solver_new (result_dominoes c) (result_regions c)
                 (result_rows c) (result_cols c) 3)
    = grid (result_rows c) (result_cols c);
  pz_dims : 0 < result_rows c ∧ 0 < result_cols c;
  pz_size :
    result_rows c * result_cols c = 2 * Z.of_nat (length (result_dominoes c));
  pz_ids : ∀ i reg, result_regions c !! i = Some reg → id reg = Z.of_nat i
}.

Lemma candidate_puzzle (pool dominoes : list Domino) (n : Z)
    (regions : list Region) (rows cols : Z) (name : string) :
  0 ≤ n → NoDup pool → (∀ d, d ∈ pool → 0 ≤ low d ∧ 0 ≤ high d) →
  dominoes ∈ get_combinations pool n →
  links_resolveb regions = true →
  forallb (λ reg, forallb (λ x : Cell, 0 <=? x.1) (cells reg)) regions = true →
  forallb (λ reg, Z.of_nat (length (cells reg)) <? INT_MAX) regions = true →
  all_cells (Solver_new dominoes regions rows cols 3) = grid rows cols →
  0 < rows ∧ 0 < cols → rows * cols = 2 * n →
  (∀ i reg, regions !! i = Some reg → id reg = Z.of_nat i) →
  puzzle (candidate dominoes regions rows cols name).
Proof.
  intros Hn Hnd Hpips Hc Hlinks Hrows Hsizes Hgrid Hdims Hsize Hids.
  destruct (get_combinations_elem pool n dominoes Hn Hc) as [Hsub Hlen].
  split; simpl.
  - split.
    + apply links_resolveb_spec, Hlinks.
    + intros d Hd. apply Hpips. eapply elem_of_sublist; eauto.
    + apply rows_nonnegative_test, Hrows.
    + apply region_sizes_test, Hsizes.
  - eapply sublist_NoDup; eauto.
  - exact Hgrid.
  - exact Hdims.
  - rewrite Hlen. lia.
  - exact Hids.
Qed.

Lemma exclude_all_d6 (exclude : list Domino) :
  NoDup (exclude_dominoes all_d6 exclude)
  ∧ ∀ d, d ∈ exclude_dominoes all_d6 exclude → 0 ≤ low d ∧ 0 ≤ high d.
Proof.
  split.
  - rewrite exclude_dominoes_filter. apply NoDup_filter, all_d6_NoDup.
  - intros d [Hd _]%exclude_dominoes_elem. apply all_d6_elem in Hd. lia.
Qed.

(** the ids of a region list of at most six regions are the positions *)
Ltac ids_are_positions :=
  let i := fresh "i" in
  let reg := fresh "reg" in
  let H := fresh "H" in
  intros i reg H;
  repeat (destruct i as [|i]; [cbn in H; injection H as <-; reflexivity|]);
  cbn in H; discriminate H.

Lemma candidates_are_puzzles (thread_id : Z) (exclude unused : list Domino)
    (c : PuzzleResult) :
  c ∈ search_easy_2x4_sums thread_id all_d6
      ++ search_easy_3cell_regions thread_id (exclude_dominoes all_d6 exclude)
      ++ search_medium thread_id all_d6
      ++ search_hard thread_id d9_remainder unused →
  puzzle c.
Proof.
  rewrite !elem_of_app.
  intros [H | [H | [H | H]]].
  - apply search_easy_2x4_sums_elem in H as (ds & t & Hds%stride_elem & _ & ->).
    apply (candidate_puzzle all_d6 ds 4); try reflexivity; try lia; try assumption.
    + apply all_d6_NoDup.
    + intros d Hd%all_d6_elem. lia.
    + ids_are_positions.
  - apply search_easy_3cell_regions_elem in H
      as (ds & t0 & t1 & Hds%stride_elem & _ & _ & _ & ->).
    apply (candidate_puzzle (exclude_dominoes all_d6 exclude) ds 4);
      try reflexivity; try lia; try assumption; try apply exclude_all_d6.
    ids_are_positions.
  - apply search_medium_elem in H
      as (ds & m & t & Hds%stride_elem & _ & _ & _ & ->).
    apply (candidate_puzzle all_d6 ds 6); try reflexivity; try lia; try assumption.
    + apply all_d6_NoDup.
    + intros d Hd%all_d6_elem. lia.
    + ids_are_positions.
  - apply search_hard_elem in H as (ds & t & Hds%stride_elem & _ & ->).
    apply (candidate_puzzle d9_remainder ds 8); try reflexivity; try lia;
      try assumption.
    + apply d9_remainder_NoDup.
    + intros d Hd%d9_remainder_elem. lia.
    + ids_are_positions.
Qed.

(** the pips of a candidate drawn from a pool are pips of the pool *)
Lemma candidate_fits (pool dominoes : list Domino) (n P : Z)
    (regions : list Region) :
  0 ≤ n → dominoes ∈ get_combinations pool n →
  0 ≤ P → (∀ d, d ∈ pool → low d ≤ P ∧ high d ≤ P) →
  forallb (λ reg, Z.of_nat (length (cells reg)) * P <=? INT_MAX) regions = true →
  sums_fit dominoes regions.
Proof.
  intros Hn Hc HP Hpool Hregs.
  destruct (get_combinations_elem pool n dominoes Hn Hc) as [Hsub _].
  exists P. split; [assumption|]. split.
  - intros d Hd. apply Hpool. eapply elem_of_sublist; eauto.
  - intros reg Hin%list_elem_of_In.
    rewrite forallb_forall in Hregs. apply Z.leb_le, Hregs, Hin.
Qed.

(** the candidates of the four searches have pips up to 9 and regions of
    few cells: the sums of their regions are [int]s *)
Lemma candidates_fit (thread_id : Z) (exclude unused : list Domino)
    (c : PuzzleResult) :
  c ∈ search_easy_2x4_sums thread_id all_d6
      ++ search_easy_3cell_regions thread_id (exclude_dominoes all_d6 exclude)
      ++ search_medium thread_id all_d6
      ++ search_hard thread_id d9_remainder unused →
  sums_fit (result_dominoes c) (result_regions c).
Proof.
  rewrite !elem_of_app.
  intros [H | [H | [H | H]]].
  - apply search_easy_2x4_sums_elem in H as (ds & t & Hds%stride_elem & _ & ->).
    apply (candidate_fits all_d6 ds 4 9); try reflexivity; try lia; try assumption.
    intros d Hd%all_d6_elem. lia.
  - apply search_easy_3cell_regions_elem in H
      as (ds & t0 & t1 & Hds%stride_elem & _ & _ & _ & ->).
    apply (candidate_fits (exclude_dominoes all_d6 exclude) ds 4 9);
      try reflexivity; try lia; try assumption.
    intros d [Hd%all_d6_elem _]%exclude_dominoes_elem. lia.
  - apply search_medium_elem in H
      as (ds & m & t & Hds%stride_elem & _ & _ & _ & ->).
    apply (candidate_fits all_d6 ds 6 9); try reflexivity; try lia; try assumption.
    intros d Hd%all_d6_elem. lia.
  - apply search_hard_elem in H as (ds & t & Hds%stride_elem & _ & ->).
    apply (candidate_fits d9_remainder ds 8 9); try reflexivity; try lia;
      try assumption.
    intros d Hd%d9_remainder_elem. lia.
Qed.







(** ** The runs of a tier *)

(** the candidates a worker has still to try *)
Definition pending (w : Worker) : list PuzzleResult :=
  match w with
  | AtLoad todo => todo
  | AtTest c todo => c :: todo
  | Returned => []
  end.

(** [test_puzzle] does not count exactly one solution *)
Definition misses (c : PuzzleResult) : Prop :=
  ∃ count e, test c = Ok (count, e) ∧ count ≠ 1.

(** the steps a worker can still take *)
Definition steps_left (w : Worker) : nat :=
  match w with
  | AtLoad todo => 2 * length todo + 1
  | AtTest _ todo => 2 * length todo + 2
  | Returned => 0
  end.

Lemma worker_step_cases (σ σ' : Shared) (w w' : Worker) :
  worker_step σ w = Ok (σ', w') →
  (stored σ' = stored σ ∧ found σ' = found σ
   ∧ (found σ = false →
      ∃ missed, pending w = missed ++ pending w' ∧ ∀ c, c ∈ missed → misses c))
  ∨ (found σ = false ∧ found σ' = true
     ∧ ∃ c todo e, pending w = c :: todo ∧ test c = Ok (1, e)
              ∧ stored σ' = Some (with_solution c (slot_after (result_solution c) e))).
Proof.
  destruct w as [[|c todo] | c todo |]; simpl.
  - intros [= <- <-]. left. split; [reflexivity|]. split; [reflexivity|].
    intros _. exists []. split; [reflexivity|]. intros c H. inversion H.
  - destruct (found σ) eqn:Hf.
    + intros [= <- <-]. left. rewrite Hf. split; [reflexivity|].
      split; [reflexivity | discriminate].
    + intros [= <- <-]. left. simpl. split; [reflexivity|]. split; [reflexivity|].
      intros _. exists []. split; [reflexivity|]. intros c' H. inversion H.
  - destruct (test c) as [[count e]| |] eqn:Ht; simpl; try discriminate.
    destruct (Z.eqb_spec count 1) as [-> | Hne].
    + destruct (found σ) eqn:Hf; intros [= <- <-].
      * left. rewrite Hf. split; [reflexivity|]. split; [reflexivity | discriminate].
      * right. split; [reflexivity|]. split; [reflexivity|].
        exists c, todo, e. split; [reflexivity|]. split; [assumption | reflexivity].
    + intros [= <- <-]. left. split; [reflexivity|]. split; [reflexivity|].
      intros _. exists [c]. split; [reflexivity|].
      intros c' ->%list_elem_of_singleton. exists count, e. auto.
  - intros [= <- <-]. left. split; [reflexivity|]. split; [reflexivity|].
    intros _. exists []. split; [reflexivity|]. intros c H. inversion H.
Qed.

Lemma worker_step_left (σ σ' : Shared) (w w' : Worker) :
  worker_step σ w = Ok (σ', w') → (steps_left w' ≤ steps_left w - 1)%nat.
Proof.
  destruct w as [[|c todo] | c todo |]; simpl.
  - intros [= <- <-]. simpl. lia.
  - destruct (found σ); intros [= <- <-]; simpl; lia.
  - destruct (test c) as [[count e]| |]; simpl; try discriminate.
    destruct (count =? 1); intros [= <- <-]; simpl; lia.
  - intros [= <- <-]. simpl. lia.
Qed.

Lemma worker_step_defined (σ : Shared) (w : Worker) :
  (∀ c, c ∈ pending w → ∃ ce, test c = Ok ce) →
  ∃ σ' w', worker_step σ w = Ok (σ', w')
           ∧ ∀ c, c ∈ pending w' → c ∈ pending w.
Proof.
  intros Hdef. destruct w as [[|c todo] | c todo |]; simpl.
  - eauto.
  - destruct (found σ); eexists _, _; (split; [reflexivity|]); simpl; auto.
    intros c' H. inversion H.
  - destruct (Hdef c) as [[count e] Ht]; [apply list_elem_of_here|].
    rewrite Ht. simpl. destruct (count =? 1); eexists _, _; (split; [reflexivity|]).
    + intros c' H. inversion H.
    + simpl. intros c' H. apply list_elem_of_further, H.
  - eauto.
Qed.

(** what holds in every state of a tier whose worker [i] was started on the
    candidates [cands !! i] *)
Record tier_inv (cands : list (list PuzzleResult)) (t : Tier) : Prop := {
  ti_workers : length t.2 = length cands;
  ti_flag : found t.1 = true ↔ is_Some (stored t.1);
  ti_stored : ∀ R, stored t.1 = Some R →
    ∃ i done c todo e,
      cands !! i = Some (done ++ c :: todo) ∧ (∀ c', c' ∈ done → misses c')
      ∧ test c = Ok (1, e)
      ∧ R = with_solution c (slot_after (result_solution c) e);
  ti_missed : found t.1 = false →
    ∀ i w cs, t.2 !! i = Some w → cands !! i = Some cs →
      ∃ done, cs = done ++ pending w ∧ ∀ c, c ∈ done → misses c
}.

Lemma start_inv (attempts : Z) (search : Z → list PuzzleResult) :
  tier_inv (search <$> [0; 1; 2; 3]) (start attempts search).
Proof.
  unfold start. split; cbn [fst snd found stored].
  - rewrite !length_fmap. reflexivity.
  - split; [discriminate | intros [R H]; discriminate].
  - discriminate.
  - intros _ i w cs Hw Hcs. rewrite list_lookup_fmap, Hcs in Hw.
    injection Hw as <-. exists []. split; [reflexivity|]. intros c H. inversion H.
Qed.

Lemma tier_step_inv (cands : list (list PuzzleResult)) (i : nat) (t t' : Tier) :
  tier_inv cands t → tier_step i t = Ok t' → tier_inv cands t'.
Proof.
  intros [Hlen Hflag Hstored Hmissed]. unfold tier_step.
  destruct (t.2 !! i) as [w|] eqn:Hw; [|intros [= <-]; split; assumption].
  destruct (worker_step t.1 w) as [[σ' w']| |] eqn:Hstep; simpl; try discriminate.
  intros [= <-]. simpl.
  destruct (worker_step_cases _ _ _ _ Hstep)
    as [(Hs & Hf & Hm) | (Hf & Hf' & c & todo & e & Hc & Ht & Hs)].
  - split; simpl.
    + rewrite length_insert. exact Hlen.
    + rewrite Hs, Hf. exact Hflag.
    + rewrite Hs. exact Hstored.
    + rewrite Hf. intros Hfalse j wj cs Hj Hcs.
      destruct (decide (j = i)) as [-> | Hne].
      * rewrite list_lookup_insert_eq in Hj by (eapply lookup_lt_Some; eauto).
        injection Hj as <-.
        destruct (Hmissed Hfalse i w cs Hw Hcs) as (done & -> & Hdone).
        destruct (Hm Hfalse) as (missed & -> & Hmiss).
        exists (done ++ missed). split; [rewrite app_assoc; reflexivity|].
        intros c [H | H]%elem_of_app; auto.
      * rewrite list_lookup_insert_ne in Hj by congruence.
        apply (Hmissed Hfalse j wj cs Hj Hcs).
  - split; simpl.
    + rewrite length_insert. exact Hlen.
    + rewrite Hf', Hs. split; [eauto | reflexivity].
    + rewrite Hs. intros R [= <-].
      destruct (lookup_lt_is_Some_2 cands i) as [cs Hcs].
      { rewrite <- Hlen. eapply lookup_lt_Some; eauto. }
      destruct (Hmissed Hf i w cs Hw Hcs) as (done & -> & Hdone).
      exists i, done, c, todo, e. rewrite <- Hc. split; [assumption|].
      split; [assumption|]. split; [assumption | reflexivity].
    + rewrite Hf'. discriminate.
Qed.

Lemma run_inv (cands : list (list PuzzleResult)) (schedule : list nat)
    (t t' : Tier) :
  tier_inv cands t → run schedule t = Ok t' → tier_inv cands t'.
Proof.
  revert t. induction schedule as [|i schedule IH]; intros t Hinv; simpl.
  - intros [= <-]. exact Hinv.
  - destruct (tier_step i t) as [t1| |] eqn:Hstep; simpl; try discriminate.
    apply IH. eapply tier_step_inv; eauto.
Qed.

Lemma run_app (schedule schedule' : list nat) (t : Tier) :
  run (schedule ++ schedule') t = t' ←r run schedule t; run schedule' t'.
Proof.
  revert t. induction schedule as [|i schedule IH]; intros t; simpl; [reflexivity|].
  destruct (tier_step i t) as [t1| |]; simpl; [apply IH | reflexivity | reflexivity].
Qed.

(** a stored result stays *)
Lemma tier_step_stored (cands : list (list PuzzleResult)) (i : nat) (t t' : Tier)
    (R : PuzzleResult) :
  tier_inv cands t → tier_step i t = Ok t' →
  stored t.1 = Some R → stored t'.1 = Some R.
Proof.
  intros [_ Hflag _ _]. unfold tier_step.
  destruct (t.2 !! i) as [w|] eqn:Hw; [|intros [= <-]; auto].
  destruct (worker_step t.1 w) as [[σ' w']| |] eqn:Hstep; simpl; try discriminate.
  intros [= <-] HR. simpl.
  destruct (worker_step_cases _ _ _ _ Hstep) as [(Hs & _) | (Hf & _)].
  - rewrite Hs. exact HR.
  - assert (found t.1 = true) by (apply Hflag; eauto). congruence.
Qed.

Lemma run_stored (cands : list (list PuzzleResult)) (schedule : list nat)
    (t t' : Tier) (R : PuzzleResult) :
  tier_inv cands t → run schedule t = Ok t' →
  stored t.1 = Some R → stored t'.1 = Some R.
Proof.
  revert t. induction schedule as [|i schedule IH]; intros t Hinv; simpl.
  - intros [= <-]. auto.
  - destruct (tier_step i t) as [t1| |] eqn:Hstep; simpl; try discriminate.
    intros Hrun HR. apply (IH t1); [eapply tier_step_inv; eauto | assumption|].
    eapply tier_step_stored; eauto.
Qed.

(** a run is defined when the tests of the candidates are *)
Definition tests_defined (t : Tier) : Prop :=
  ∀ i w c, t.2 !! i = Some w → c ∈ pending w → ∃ ce, test c = Ok ce.

Lemma tier_step_defined (i : nat) (t : Tier) :
  tests_defined t → ∃ t', tier_step i t = Ok t' ∧ tests_defined t'.
Proof.
  intros Hdef. unfold tier_step. destruct (t.2 !! i) as [w|] eqn:Hw; [|eauto].
  destruct (worker_step_defined t.1 w) as (σ' & w' & Hstep & Hsub).
  { intros c. apply (Hdef i w c Hw). }
  rewrite Hstep. simpl. eexists. split; [reflexivity|]. simpl.
  intros j wj c Hj Hc. cbn [snd] in Hj. destruct (decide (j = i)) as [-> | Hne].
  - rewrite list_lookup_insert_eq in Hj by (eapply lookup_lt_Some; eauto).
    injection Hj as <-. apply (Hdef i w c Hw), Hsub, Hc.
  - rewrite list_lookup_insert_ne in Hj by congruence. apply (Hdef j wj c Hj Hc).
Qed.

Lemma run_defined (schedule : list nat) (t : Tier) :
  tests_defined t → ∃ t', run schedule t = Ok t'.
Proof.
  revert t. induction schedule as [|i schedule IH]; intros t Hdef; simpl; [eauto|].
  destruct (tier_step_defined i t Hdef) as (t1 & -> & Hdef1). simpl.
  apply IH, Hdef1.
Qed.

(** the steps of worker [i] in a schedule *)
Definition turns (i : nat) (schedule : list nat) : nat :=
  length (filter (λ j, j = i) schedule).

Lemma tier_step_left (i j : nat) (t t' : Tier) (w : Worker) :
  tier_step i t = Ok t' → t.2 !! j = Some w →
  ∃ w', t'.2 !! j = Some w'
        ∧ (steps_left w' ≤ steps_left w - (if decide (i = j) then 1 else 0))%nat.
Proof.
  unfold tier_step. intros Hstep Hj.
  destruct (t.2 !! i) as [wi|] eqn:Hi.
  - destruct (worker_step t.1 wi) as [[σ' w']| |] eqn:Hw; simpl in Hstep;
      try discriminate.
    injection Hstep as <-. simpl. destruct (decide (i = j)) as [<- | Hne].
    + rewrite list_lookup_insert_eq by (eapply lookup_lt_Some; eauto).
      exists w'. split; [reflexivity|]. rewrite Hi in Hj. injection Hj as <-.
      eapply worker_step_left; eauto.
    + rewrite list_lookup_insert_ne by congruence. exists w. split; [assumption | lia].
  - injection Hstep as <-. exists w. split; [assumption|].
    destruct (decide (i = j)) as [<- | _]; [congruence | lia].
Qed.

Lemma run_left (schedule : list nat) (j : nat) (t t' : Tier) (w : Worker) :
  run schedule t = Ok t' → t.2 !! j = Some w →
  ∃ w', t'.2 !! j = Some w'
        ∧ (steps_left w' ≤ steps_left w - turns j schedule)%nat.
Proof.
  revert t w. induction schedule as [|i schedule IH]; intros t w; simpl.
  - intros [= <-] Hj. exists w. split; [assumption | unfold turns; simpl; lia].
  - destruct (tier_step i t) as [t1| |] eqn:Hstep; simpl; try discriminate.
    intros Hrun Hj.
    destruct (tier_step_left i j t t1 w Hstep Hj) as (w1 & Hj1 & Hle1).
    destruct (IH t1 w1 Hrun Hj1) as (w' & Hj' & Hle').
    exists w'. split; [assumption|]. unfold turns in *. rewrite filter_cons.
    destruct (decide (i = j)); simpl; lia.
Qed.

Lemma steps_left_zero (w : Worker) : steps_left w = 0%nat → w = Returned.
Proof. destruct w; simpl; [lia | lia | reflexivity]. Qed.

Lemma joined_spec (t : Tier) :
  joined t = true ↔ ∀ i w, t.2 !! i = Some w → w = Returned.
Proof.
  unfold joined. rewrite forallb_forall. split.
  - intros H i w Hw. apply list_elem_of_lookup_2, list_elem_of_In, H in Hw.
    destruct w; [discriminate | discriminate | reflexivity].
  - intros H w [i Hw]%list_elem_of_In%list_elem_of_lookup.
    rewrite (H i w Hw). reflexivity.
Qed.

Lemma start_lookup (attempts : Z) (search : Z → list PuzzleResult) (i : nat)
    (cs : list PuzzleResult) :
  (search <$> [0; 1; 2; 3]) !! i = Some cs →
  ∃ thread_id, thread_id ∈ [0; 1; 2; 3] ∧ cs = search thread_id
               ∧ (start attempts search).2 !! i = Some (AtLoad cs).
Proof.
  intros H. pose proof H as H'.
  apply list_lookup_fmap_Some in H' as (thread_id & -> & Ht).
  exists thread_id. split; [eapply list_elem_of_lookup_2; eauto|].
  split; [reflexivity|]. unfold start. cbn [snd].
  rewrite list_lookup_fmap, H. reflexivity.
Qed.

Lemma start_worker (search : Z → list PuzzleResult) (thread_id : Z) :
  thread_id ∈ [0; 1; 2; 3] →
  ∃ i, (search <$> [0; 1; 2; 3]) !! i = Some (search thread_id).
Proof.
  intros [i Hi]%list_elem_of_lookup. exists i.
  rewrite list_lookup_fmap, Hi. reflexivity.
Qed.

(** X25. What a tier stores.  In every state a run of the four workers
    reaches, under every schedule, the flag is set exactly when a result is
    stored; a stored result is a candidate of one of the workers for which
    [test_puzzle] returned 1, the first such candidate in the order of that
    worker, together with the solution that call handed out; and a stored
    result is never replaced. *)
Theorem tier_stores_first_hit (search : Z → list PuzzleResult) (attempts : Z)
    (schedule : list nat) (σ : Shared) (workers : list Worker) :
  run schedule (start attempts search) = Ok (σ, workers) →
  (found σ = true ↔ is_Some (stored σ))
  ∧ (∀ R, stored σ = Some R →
       ∃ thread_id done c todo e,
         thread_id ∈ [0; 1; 2; 3]
         ∧ search thread_id = done ++ c :: todo
         ∧ (∀ c', c' ∈ done → misses c')
         ∧ test c = Ok (1, e)
         ∧ R = with_solution c (slot_after (result_solution c) e))
  ∧ (∀ R schedule' σ' workers',
       stored σ = Some R →
       run schedule' (σ, workers) = Ok (σ', workers') →
       stored σ' = Some R).
Proof.
  intros Hrun.
  pose proof (run_inv _ _ _ _ (start_inv attempts search) Hrun) as Hinv.
  split; [apply (ti_flag _ _ Hinv)|]. split.
  - intros R HR.
    destruct (ti_stored _ _ Hinv R HR) as (i & done & c & todo & e & Hi & Hd & Ht & ->).
    destruct (start_lookup attempts search i _ Hi) as (thread_id & Hin & Hcs & _).
    exists thread_id, done, c, todo, e. auto.
  - intros R schedule' σ' workers' HR Hrun'.
    apply (run_stored _ _ _ _ R Hinv Hrun' HR).
Qed.

(** a worker that loads the flag and tests the one puzzle of a 1x2 grid *)
Lemma tier_stores_first_hit_witness :
  ∃ σ workers,
    run [0; 0]%nat
      (start 0 (λ _, [candidate [mkDomino 1 1]
                        [mkRegion 0 [(0,0); (0,1)] SUM 2 (-1)] 1 2 "A"]))
    = Ok (σ, workers)
    ∧ (found σ = true ↔ is_Some (stored σ))
    ∧ found σ = true.
Proof.
  destruct (run [0; 0]%nat
              (start 0 (λ _, [candidate [mkDomino 1 1]
                                [mkRegion 0 [(0,0); (0,1)] SUM 2 (-1)] 1 2 "A"])))
    as [[σ workers]| |] eqn:Hrun;
    [|vm_compute in Hrun; discriminate Hrun|vm_compute in Hrun; discriminate Hrun].
  exists σ, workers. split; [reflexivity|].
  destruct (tier_stores_first_hit _ 0 [0; 0]%nat σ workers Hrun) as (Hflag & _).
  split; [exact Hflag|].
  vm_compute in Hrun. injection Hrun as <- _. reflexivity.
Defined.

(** X26. When the workers of a tier have all returned, nothing is stored
    exactly when [test_puzzle] returned a count other than 1 for every
    candidate of every worker: a tier that ends without a result has tried
    them all. *)
Theorem tier_without_result (search : Z → list PuzzleResult) (attempts : Z)
    (schedule : list nat) (σ : Shared) (workers : list Worker) :
  run schedule (start attempts search) = Ok (σ, workers) →
  joined (σ, workers) = true →
  stored σ = None
  ↔ ∀ thread_id c, thread_id ∈ [0; 1; 2; 3] → c ∈ search thread_id → misses c.
Proof.
  intros Hrun Hjoined.
  pose proof (run_inv _ _ _ _ (start_inv attempts search) Hrun) as Hinv.
  split.
  - intros Hnone thread_id c Ht Hc.
    assert (found σ = false) as Hf.
    { destruct (found σ) eqn:Hf; [|reflexivity].
      apply (ti_flag _ _ Hinv) in Hf as [R HR]. simpl in HR. congruence. }
    destruct (start_worker search thread_id Ht) as [i Hi].
    destruct (lookup_lt_is_Some_2 workers i) as [w Hw].
    { pose proof (ti_workers _ _ Hinv) as Hlen. cbn [snd] in Hlen. rewrite Hlen.
      eapply lookup_lt_Some; eauto. }
    destruct (ti_missed _ _ Hinv Hf i w _ Hw Hi) as (done & Hcs & Hdone).
    rewrite (proj1 (joined_spec (σ, workers)) Hjoined i w Hw) in Hcs.
    simpl in Hcs. rewrite app_nil_r in Hcs. subst done. apply Hdone, Hc.
  - intros Hall. destruct (stored σ) as [R|] eqn:HR; [|reflexivity]. exfalso.
    destruct (ti_stored _ _ Hinv R HR) as (i & done & c & todo & e & Hi & _ & Ht & _).
    destruct (start_lookup attempts search i _ Hi) as (thread_id & Hin & Hcs & _).
    destruct (Hall thread_id c Hin) as (count & e' & Ht' & Hne).
    + rewrite <- Hcs. apply elem_of_app. right. apply list_elem_of_here.
    + rewrite Ht in Ht'. injection Ht' as <- _. congruence.
Qed.

(** four workers with one candidate each, which has no solution *)
Definition search_miss (thread_id : Z) : list PuzzleResult :=
  [candidate [mkDomino 1 1] [mkRegion 0 [(0,0); (0,1)] SUM 3 (-1)] 1 2 "A"].

Definition one_by_one : list nat := [0; 0; 0; 1; 1; 1; 2; 2; 2; 3; 3; 3]%nat.

Lemma tier_without_result_witness :
  ∃ σ workers,
    run one_by_one (start 0 search_miss) = Ok (σ, workers)
    ∧ joined (σ, workers) = true
    ∧ (stored σ = None
       ↔ ∀ thread_id c, thread_id ∈ [0; 1; 2; 3] → c ∈ search_miss thread_id →
           misses c).
Proof.
  destruct (run one_by_one (start 0 search_miss)) as [[σ workers]| |] eqn:Hrun;
    [|vm_compute in Hrun; discriminate Hrun|vm_compute in Hrun; discriminate Hrun].
  assert (joined (σ, workers) = true) as Hjoined.
  { vm_compute in Hrun. injection Hrun as <- <-. reflexivity. }
  exists σ, workers. split; [reflexivity|]. split; [exact Hjoined|].
  apply (tier_without_result search_miss 0 one_by_one σ workers Hrun Hjoined).
Defined.

(** X27. A tier runs to its end.  If [test_puzzle] is defined on the
    candidates, every schedule gives a run; worker [i] returns within
    2 n + 1 of its steps, where n is the number of its candidates, and when
    every worker has had that many turns all have returned. *)
Theorem tier_terminates (search : Z → list PuzzleResult) (attempts : Z)
    (schedule : list nat) :
  (∀ thread_id c, thread_id ∈ [0; 1; 2; 3] → c ∈ search thread_id →
     ∃ ce, test c = Ok ce) →
  ∃ t, run schedule (start attempts search) = Ok t
       ∧ length t.2 = 4%nat
       ∧ (∀ i thread_id,
            [0; 1; 2; 3] !! i = Some thread_id →
            (2 * length (search thread_id) + 1 ≤ turns i schedule)%nat →
            t.2 !! i = Some Returned)
       ∧ ((∀ i thread_id,
             [0; 1; 2; 3] !! i = Some thread_id →
             (2 * length (search thread_id) + 1 ≤ turns i schedule)%nat) →
          joined t = true).
Proof.
  intros Hdef.
  destruct (run_defined schedule (start attempts search)) as [t Hrun].
  { intros i w c Hw Hc. unfold start in Hw. cbn [snd] in Hw.
    rewrite list_lookup_fmap in Hw.
    destruct ((search <$> [0; 1; 2; 3]) !! i) as [cs|] eqn:Hi; [|discriminate].
    injection Hw as <-.
    destruct (start_lookup attempts search i _ Hi) as (thread_id & Hin & -> & _).
    apply (Hdef thread_id c Hin Hc). }
  pose proof (run_inv _ _ _ _ (start_inv attempts search) Hrun) as Hinv.
  assert (∀ i thread_id,
            [0; 1; 2; 3] !! i = Some thread_id →
            (2 * length (search thread_id) + 1 ≤ turns i schedule)%nat →
            t.2 !! i = Some Returned) as Hret.
  { intros i thread_id Hi Hturns.
    destruct (run_left schedule i _ t (AtLoad (search thread_id)) Hrun)
      as (w' & Hw' & Hle).
    - unfold start. cbn [snd]. rewrite !list_lookup_fmap, Hi. reflexivity.
    - rewrite Hw'. f_equal. apply steps_left_zero. simpl in Hle. lia. }
  exists t. split; [assumption|]. split; [|split; [exact Hret|]].
  - rewrite (ti_workers _ _ Hinv). reflexivity.
  - intros Hall. apply joined_spec. intros i w Hw.
    destruct (lookup_lt_is_Some_2 [0; 1; 2; 3] i) as [thread_id Hi].
    { apply lookup_lt_Some in Hw. rewrite (ti_workers _ _ Hinv) in Hw.
      rewrite length_fmap in Hw. exact Hw. }
    rewrite (Hret i thread_id Hi (Hall i thread_id Hi)) in Hw. congruence.
Qed.

Lemma tier_terminates_witness :
  ∃ t, run one_by_one (start 0 search_miss) = Ok t ∧ joined t = true.
Proof.
  destruct (tier_terminates search_miss 0 one_by_one) as (t & Hrun & _ & _ & Hjoined).
  - intros thread_id c _ ->%list_elem_of_singleton. vm_compute. eexists. reflexivity.
  - exists t. split; [exact Hrun|]. apply Hjoined.
    intros [|[|[|[|i]]]] thread_id H; try discriminate H; vm_compute; lia.
Defined.

(** ** The tiers of [main] *)

Lemma exclude_dominoes_nil (pool : list Domino) : exclude_dominoes pool [] = pool.
Proof.
  rewrite exclude_dominoes_filter. induction pool as [|d pool IH]; [reflexivity|].
  rewrite filter_cons, decide_True by apply not_elem_of_nil.
  rewrite IH. reflexivity.
Qed.

Lemma remaining_d6_exclude (earlier : option PuzzleResult)
    (exclude_list : list Domino) :
  remaining_d6 earlier exclude_list
  = exclude_dominoes all_d6
      match earlier with
      | Some r => result_dominoes r
      | None => exclude_list
      end.
Proof.
  unfold remaining_d6. destruct earlier as [r|]; [reflexivity|].
  destruct exclude_list; [|reflexivity]. symmetry. apply exclude_dominoes_nil.
Qed.

Lemma main_tiers_candidates (easy1_result medium_result : option PuzzleResult)
    (exclude_list : list Domino) (search : Z → list PuzzleResult)
    (thread_id : Z) (c : PuzzleResult) :
  search ∈ main_tiers easy1_result medium_result exclude_list →
  c ∈ search thread_id → puzzle c.
Proof.
  unfold main_tiers. rewrite !elem_of_cons. intros [-> | [-> | [-> | [-> | H]]]] Hc.
  - apply (candidates_are_puzzles thread_id [] []). rewrite !elem_of_app. auto.
  - rewrite remaining_d6_exclude in Hc.
    eapply (candidates_are_puzzles thread_id _ []). rewrite !elem_of_app.
    right. left. exact Hc.
  - apply (candidates_are_puzzles thread_id [] []). rewrite !elem_of_app. auto.
  - eapply (candidates_are_puzzles thread_id []). rewrite !elem_of_app.
    right. right. right. exact Hc.
  - inversion H.
Qed.

Lemma main_tiers_fit (easy1_result medium_result : option PuzzleResult)
    (exclude_list : list Domino) (search : Z → list PuzzleResult)
    (thread_id : Z) (c : PuzzleResult) :
  search ∈ main_tiers easy1_result medium_result exclude_list →
  c ∈ search thread_id → sums_fit (result_dominoes c) (result_regions c).
Proof.
  unfold main_tiers. rewrite !elem_of_cons. intros [-> | [-> | [-> | [-> | H]]]] Hc.
  - apply (candidates_fit thread_id [] []). rewrite !elem_of_app. auto.
  - rewrite remaining_d6_exclude in Hc.
    eapply (candidates_fit thread_id _ []). rewrite !elem_of_app.
    right. left. exact Hc.
  - apply (candidates_fit thread_id [] []). rewrite !elem_of_app. auto.
  - eapply (candidates_fit thread_id []). rewrite !elem_of_app.
    right. right. right. exact Hc.
  - inversion H.
Qed.

(** the puzzle has one solution and no other *)
Definition unique_solution (c : PuzzleResult) : Prop :=
  let S := Solver_new (result_dominoes c) (result_regions c)
             (result_rows c) (result_cols c) 3 in
  ∃ m, puzzle_solution S m ∧ ∀ m', puzzle_solution S m' → m' = m.

Lemma puzzle_test (c : PuzzleResult) :
  puzzle c → sums_fit (result_dominoes c) (result_regions c) →
  ∃ count e, test c = Ok (count, e)
    ∧ (count = 1 ↔ unique_solution c)
    ∧ (count = 1 →
       let S := Solver_new (result_dominoes c) (result_regions c)
                  (result_rows c) (result_cols c) 3 in
       ∃ s, e = Assigned (placed s) ∧ reachable S s ∧ accepted S s
            ∧ puzzle_solution S (cell_values s)).
Proof.
  intros Hp Hfits. pose proof (pz_well_formed c Hp) as Hwf.
  destruct (test_puzzle_counts _ (result_rows c) (result_cols c) _ Hwf Hfits)
    as (count & e & Htest & Hmin & Hslot).
  destruct (true_count_solutions _ _ (result_rows c) (result_cols c) 3 Hwf Hfits)
    as [_ Hone].
  exists count, e. split; [exact Htest|]. split; [|exact Hslot].
  unfold unique_solution. rewrite <- Hone.
  set (S := Solver_new _ _ _ _ _) in *.
  assert (0 ≤ true_count S) by (unfold true_count; lia). lia.
Qed.

Lemma puzzle_with_solution (c : PuzzleResult) (solution : list PlacedDomino) :
  puzzle c → puzzle (with_solution c solution).
Proof. intros [H1 H2 H3 H4 H5 H6]. split; assumption. Qed.

(** X28. The result of a tier of [main].  Whatever the earlier tiers stored
    and whatever the exclusion list and the schedule, the four workers of a
    tier run without dereferencing a null region.  A result they store is
    a puzzle with exactly one solution, stored with the placements of a
    complete state of the search that passes every check.  If the workers
    have all returned and nothing is stored, no candidate of the tier has
    exactly one solution. *)
Theorem main_tier_result (easy1_result medium_result : option PuzzleResult)
    (exclude_list : list Domino) (search : Z → list PuzzleResult)
    (attempts : Z) (schedule : list nat) :
  search ∈ main_tiers easy1_result medium_result exclude_list →
  ∃ σ workers,
    run schedule (start attempts search) = Ok (σ, workers)
    ∧ (∀ R, stored σ = Some R →
         let S := Solver_new (result_dominoes R) (result_regions R)
                    (result_rows R) (result_cols R) 3 in
         puzzle R ∧ unique_solution R
         ∧ ∃ s, result_solution R = placed s ∧ reachable S s ∧ accepted S s
                ∧ puzzle_solution S (cell_values s))
    ∧ (joined (σ, workers) = true → stored σ = None →
       ∀ thread_id c, thread_id ∈ [0; 1; 2; 3] → c ∈ search thread_id →
         ¬ unique_solution c).
Proof.
  intros Hsearch.
  destruct (run_defined schedule (start attempts search)) as [[σ workers] Hrun].
  { intros i w c Hw Hc. unfold start in Hw. cbn [snd] in Hw.
    rewrite list_lookup_fmap in Hw.
    destruct ((search <$> [0; 1; 2; 3]) !! i) as [cs|] eqn:Hi; [|discriminate].
    injection Hw as <-.
    destruct (start_lookup attempts search i _ Hi) as (thread_id & Hin & -> & _).
    destruct (puzzle_test c) as (count & e & Ht & _).
    - eapply main_tiers_candidates; eauto.
    - eapply main_tiers_fit; eauto.
    - eauto. }
  pose proof (run_inv _ _ _ _ (start_inv attempts search) Hrun) as Hinv.
  exists σ, workers. split; [assumption|]. split.
  - intros R HR.
    destruct (ti_stored _ _ Hinv R HR) as (i & done & c & todo & e & Hi & _ & Ht & ->).
    destruct (start_lookup attempts search i _ Hi) as (thread_id & Hin & Hcs & _).
    assert (puzzle c) as Hp.
    { apply (main_tiers_candidates _ _ _ search thread_id c Hsearch).
      rewrite <- Hcs. apply elem_of_app. right. apply list_elem_of_here. }
    assert (sums_fit (result_dominoes c) (result_regions c)) as Hfits.
    { apply (main_tiers_fit _ _ _ search thread_id c Hsearch).
      rewrite <- Hcs. apply elem_of_app. right. apply list_elem_of_here. }
    destruct (puzzle_test c Hp Hfits) as (count & e' & Ht' & Huniq & Hslot).
    rewrite Ht in Ht'. injection Ht' as <- <-.
    destruct (Hslot eq_refl) as (s & -> & Hs).
    split; [apply puzzle_with_solution, Hp|].
    split; [apply Huniq; reflexivity|].
    exists s. split; [reflexivity | exact Hs].
  - intros Hjoined Hnone thread_id c Hin Hc Huniq.
    assert (found σ = false) as Hf.
    { destruct (found σ) eqn:Hf; [|reflexivity].
      apply (ti_flag _ _ Hinv) in Hf as [R HR]. simpl in HR. congruence. }
    destruct (start_worker search thread_id Hin) as [i Hi].
    destruct (lookup_lt_is_Some_2 workers i) as [w Hw].
    { pose proof (ti_workers _ _ Hinv) as Hlen. cbn [snd] in Hlen. rewrite Hlen.
      eapply lookup_lt_Some; eauto. }
    destruct (ti_missed _ _ Hinv Hf i w _ Hw Hi) as (done & Hcs & Hdone).
    rewrite (proj1 (joined_spec (σ, workers)) Hjoined i w Hw) in Hcs.
    simpl in Hcs. rewrite app_nil_r in Hcs. subst done.
    destruct (Hdone c Hc) as (count & e & Ht & Hne).
    destruct (puzzle_test c) as (count' & e' & Ht' & Hu & _).
    { eapply main_tiers_candidates; eauto. }
    { eapply main_tiers_fit; eauto. }
    rewrite Ht in Ht'. injection Ht' as <- <-. apply Hne, Hu, Huniq.
Qed.

Lemma main_tier_result_witness :
  ∃ σ workers,
    run [0; 1; 2; 3; 0]%nat
      (start 0 (λ thread_id, search_easy_2x4_sums thread_id all_d6))
    = Ok (σ, workers).
Proof.
  destruct (main_tier_result None None []
              (λ thread_id, search_easy_2x4_sums thread_id all_d6) 0
              [0; 1; 2; 3; 0]%nat)
    as (σ & workers & Hrun & _).
  - apply list_elem_of_here.
  - exists σ, workers. exact Hrun.
Defined.

(** X29. The tiles of the tiers.  The first and the third tier draw four
    and six tiles from the whole double-six set, whatever the exclusion
    list.  The second draws four double-six tiles that are not among the
    tiles of the first tier's result or, when there is none, not in the
    exclusion list.  The last draws eight tiles with a pip above 6, none of
    them a double-six tile, whatever the third tier stored and whatever
    the exclusion list. *)
Theorem tier_tiles (easy1_result medium_result : option PuzzleResult)
    (exclude_list : list Domino) (thread_id : Z) (c : PuzzleResult) (d : Domino) :
  d ∈ result_dominoes c →
  (c ∈ search_easy_2x4_sums thread_id all_d6 →
   d ∈ all_d6 ∧ length (result_dominoes c) = 4%nat)
  ∧ (c ∈ search_easy_3cell_regions thread_id
           (remaining_d6 easy1_result exclude_list) →
     d ∈ all_d6 ∧ length (result_dominoes c) = 4%nat
     ∧ match easy1_result with
       | Some r => d ∉ result_dominoes r
       | None => d ∉ exclude_list
       end)
  ∧ (c ∈ search_medium thread_id all_d6 →
     d ∈ all_d6 ∧ length (result_dominoes c) = 6%nat
     ∧ NoDup (pips <$> result_dominoes c))
  ∧ (c ∈ search_hard thread_id d9_remainder
           (remaining_d6 medium_result exclude_list) →
     d ∈ d9_remainder ∧ (d ∉ all_d6) ∧ length (result_dominoes c) = 8%nat).
Proof.
  intros Hd. split; [|split; [|split]].
  - intros (ds & t & Hds%stride_elem & _ & ->)%search_easy_2x4_sums_elem.
    apply get_combinations_elem in Hds as [Hsub Hlen]; [|lia]. simpl in *.
    split; [eapply elem_of_sublist; eauto | exact Hlen].
  - rewrite remaining_d6_exclude.
    intros (ds & t0 & t1 & Hds%stride_elem & _ & _ & _ & ->)%search_easy_3cell_regions_elem.
    apply get_combinations_elem in Hds as [Hsub Hlen]; [|lia]. simpl in *.
    pose proof (elem_of_sublist _ _ _ Hd Hsub) as [Hin Hout]%exclude_dominoes_elem.
    split; [assumption|]. split; [exact Hlen|].
    destruct easy1_result; assumption.
  - intros (ds & m & t & Hds%stride_elem & Hdist & _ & _ & ->)%search_medium_elem.
    apply get_combinations_elem in Hds as [Hsub Hlen]; [|lia]. simpl in *.
    split; [eapply elem_of_sublist; eauto|]. split; [exact Hlen|].
    rewrite sums_of_fmap in Hdist.
    destruct (sort_sorted (pips <$> ds)) as [Hs Hp].
    rewrite <- Hp. apply (distinct_NoDup _ Hs), Hdist.
  - intros (ds & t & Hds%stride_elem & _ & ->)%search_hard_elem.
    apply get_combinations_elem in Hds as [Hsub Hlen]; [|lia]. simpl in *.
    pose proof (elem_of_sublist _ _ _ Hd Hsub) as Hin.
    split; [assumption|]. split; [|exact Hlen].
    apply d9_remainder_elem in Hin. rewrite all_d6_elem. lia.
Qed.

Lemma tier_tiles_witness :
  mkDomino 0 0 ∈ all_d6
  ∧ length (result_dominoes
              (candidate (take 4 all_d6) (regions_A 1) 2 4 "Easy1_IneqChain"))
    = 4%nat.
Proof.
  apply (tier_tiles None None [] 0
           (candidate (take 4 all_d6) (regions_A 1) 2 4 "Easy1_IneqChain")
           (mkDomino 0 0)).
  - apply list_elem_of_here.
  - apply search_easy_2x4_sums_elem. exists (take 4 all_d6), 1.
    split; [|split; [lia | reflexivity]].
    apply (stride_first all_d6 4). simpl. lia.
Defined.

(** ** What [draw_puzzle_grid] shows *)

Lemma cell_region_cells_lookup (rid : Z) (cs : list Cell) (m : gmap Cell Z)
    (x : Cell) :
  foldl (λ cell_region c, <[c := rid]> cell_region) m cs !! x
  = if decide (x ∈ cs) then Some rid else m !! x.
Proof.
  revert m. induction cs as [|c cs IH]; intros m.
  - destruct (decide (x ∈ [])) as [H | _]; [inversion H | reflexivity].
  - cbn [foldl]. rewrite IH.
    destruct (decide (x ∈ cs)) as [Hin | Hnin];
      destruct (decide (x ∈ c :: cs)) as [Hin' | Hnin']; try reflexivity.
    + exfalso. apply Hnin', list_elem_of_further, Hin.
    + apply elem_of_cons in Hin' as [-> | ?]; [|contradiction].
      apply lookup_insert_eq.
    + apply lookup_insert_ne. intros ->. apply Hnin', list_elem_of_here.
Qed.

Lemma cell_region_of_lookup (regs : list Region) (x : Cell) :
  cell_region_of regs !! x = id <$> last (filter (λ reg, x ∈ cells reg) regs).
Proof.
  unfold cell_region_of.
  assert (∀ m : gmap Cell Z,
            foldl (λ cell_region r,
                     foldl (λ cell_region c, <[c := id r]> cell_region)
                           cell_region (cells r)) m regs !! x
            = match last (filter (λ reg, x ∈ cells reg) regs) with
              | Some reg => Some (id reg)
              | None => m !! x
              end) as H.
  { induction regs as [|reg regs IH]; intros m; [reflexivity|].
    cbn [foldl]. rewrite IH, filter_cons, cell_region_cells_lookup.
    destruct (decide (x ∈ cells reg)) as [Hin | Hnin].
    - rewrite last_cons.
      destruct (last (filter (λ reg0, x ∈ cells reg0) regs)); reflexivity.
    - reflexivity. }
  rewrite H. destruct (last _); reflexivity.
Qed.

Lemma region_label_of_lookup (regs : list Region) (k : Z) :
  region_label_of regs !! k = label_of <$> last (filter (λ reg, id reg = k) regs).
Proof.
  unfold region_label_of.
  assert (∀ m : gmap Z Label,
            foldl (λ region_label r, <[id r := label_of r]> region_label) m regs !! k
            = match last (filter (λ reg, id reg = k) regs) with
              | Some reg => Some (label_of reg)
              | None => m !! k
              end) as H.
  { induction regs as [|reg regs IH]; intros m; [reflexivity|].
    cbn [foldl]. rewrite IH, filter_cons.
    destruct (decide (id reg = k)) as [<- | Hne].
    - rewrite last_cons, lookup_insert_eq.
      destruct (last (filter (λ reg0, id reg0 = id reg) regs)); reflexivity.
    - rewrite lookup_insert_ne by assumption. reflexivity. }
  rewrite H. destruct (last _); reflexivity.
Qed.

Lemma show_label_loop_spec (r c : Z) (cs : list Cell) :
  show_label_loop r c cs = true ↔ ∀ cr, cr ∈ cs → ¬ cell_lt cr (r, c).
Proof.
  induction cs as [|cr cs IH]; simpl.
  - split; [intros _ cr H; inversion H | reflexivity].
  - destruct ((cr.1 <? r) || ((cr.1 =? r) && (cr.2 <? c))) eqn:E.
    + split; [discriminate|]. intros H. exfalso.
      apply (H cr); [apply list_elem_of_here|].
      apply orb_true_iff in E as [E | E].
      * left. apply Z.ltb_lt in E. exact E.
      * apply andb_true_iff in E as [E1 E2]. right.
        apply Z.eqb_eq in E1. apply Z.ltb_lt in E2. auto.
    + rewrite IH. split.
      * intros H x [-> | Hx]%elem_of_cons; [|apply H, Hx].
        intros [Hlt | [Heq Hlt]]; simpl in *.
        -- apply Z.ltb_lt in Hlt. rewrite Hlt in E. discriminate.
        -- apply Z.eqb_eq in Heq. apply Z.ltb_lt in Hlt.
           rewrite Heq, Hlt, orb_true_r in E. discriminate.
      * intros H x Hx. apply H, list_elem_of_further, Hx.
Qed.

Lemma grid_elem (rows cols : Z) (x : Cell) :
  x ∈ grid rows cols ↔ 0 ≤ x.1 < rows ∧ 0 ≤ x.2 < cols.
Proof.
  unfold grid. rewrite list_elem_of_bind. split.
  - intros (i & (j & ->%list_elem_of_singleton & Hj%elem_of_seqZ)%list_elem_of_bind
            & Hi%elem_of_seqZ). simpl. lia.
  - intros [H1 H2]. exists x.1. split; [|apply elem_of_seqZ; lia].
    apply list_elem_of_bind. exists x.2. split; [|apply elem_of_seqZ; lia].
    destruct x. apply list_elem_of_singleton. reflexivity.
Qed.

Lemma positions_unique (regs : list Region) (reg : Region) :
  (∀ i reg, regs !! i = Some reg → id reg = Z.of_nat i) →
  reg ∈ regs →
  0 ≤ id reg
  ∧ regs !! Z.to_nat (id reg) = Some reg
  ∧ last (filter (λ reg', id reg' = id reg) regs) = Some reg.
Proof.
  intros Hids [i Hi]%list_elem_of_lookup. pose proof (Hids i reg Hi) as Hid.
  split; [lia|]. split; [rewrite Hid, Nat2Z.id; exact Hi|].
  destruct (last_filter_some (λ reg', id reg' = id reg) regs reg) as [reg' Hl];
    [eapply list_elem_of_lookup_2; eauto | reflexivity|].
  rewrite Hl. f_equal.
  apply last_filter_elem in Hl as [[j Hj]%list_elem_of_lookup Heq].
  pose proof (Hids j reg' Hj) as Hid'.
  assert (j = i) as -> by lia. congruence.
Qed.

(** X30. The puzzle grid of a stored result.  For a puzzle whose solution
    vector holds the placements of a complete state of the search, every
    cell of the grid lies in a region, and [draw_puzzle_grid] shows in it
    the label of that region if no cell of the region comes before it in
    row-major order, and otherwise the pip that the solution vector gives
    the cell: the low or the high pip of the tile placed there.  So the
    puzzle grid shows the solution in all cells but the first of each
    region. *)
Theorem draw_puzzle_grid_content (pr : PuzzleResult) (s : SolverState) (r c : Z) :
  let S := Solver_new (result_dominoes pr) (result_regions pr)
             (result_rows pr) (result_cols pr) 3 in
  puzzle pr → reachable S s → accepted S s → result_solution pr = placed s →
  0 ≤ r < result_rows pr → 0 ≤ c < result_cols pr →
  ∃ reg p pip,
    reg ∈ result_regions pr ∧ (r, c) ∈ cells reg
    ∧ p ∈ placed s
    ∧ (((r, c) = cell1 p ∧ pip = low (domino p))
       ∨ ((r, c) = cell2 p ∧ pip = high (domino p)))
    ∧ ((∀ cr, cr ∈ cells reg → ¬ cell_lt cr (r, c)) →
       content pr r c = Ok (ShowLabel (label_of reg)))
    ∧ ((∃ cr, cr ∈ cells reg ∧ cell_lt cr (r, c)) →
       content pr r c = Ok (ShowPip pip)).
Proof.
  intros S Hp Hreach [Hsize Hcheck] Hsol Hr Hc.
  pose proof (Solver_new_well_indexed (result_dominoes pr) (result_regions pr)
                (result_rows pr) (result_cols pr) 3) as W. fold S in W.
  assert ((r, c) ∈ all_cells S) as Hcell.
  { unfold S. rewrite (pz_grid pr Hp). apply grid_elem. simpl. lia. }
  (* the region of the cell *)
  destruct (proj1 (wi_cells S W (r, c)) Hcell) as (reg0 & Hreg0 & Hin0).
  destruct (last_filter_some (λ reg, (r, c) ∈ cells reg) (result_regions pr) reg0
              Hreg0 Hin0) as [reg Hlast].
  pose proof (last_filter_elem _ _ _ Hlast) as [Hreg Hin].
  destruct (positions_unique _ reg (pz_ids pr Hp) Hreg) as (Hpos & Hidx & Hlab).
  (* the pip of the cell *)
  pose proof (reachable_placed_ok S s Hreach) as [Hfilled Hnd _].
  assert (filled_cells s = list_to_set (all_cells S)) as Hfull.
  { apply complete_filled; [apply (wi_increasing S W) | | exact Hsize].
    destruct (reachable_laid_out _ _ Hreach) as [T [HT Hf _ _]].
    intros x. rewrite Hf, !elem_of_list_to_set. apply laid_cells_in_grid, HT. }
  assert ((r, c) ∈ placed_cells (placed s)) as Hplaced.
  { apply (elem_of_list_to_set (C := gset Cell)). rewrite <- Hfilled, Hfull.
    apply elem_of_list_to_set, Hcell. }
  apply placed_cells_elem in Hplaced as (p & Hp_in & Hcase).
  destruct (cell_pip_of_lookup (placed s) p Hnd Hp_in) as [Hlow Hhigh].
  assert (∃ pip, cell_pip_of (placed s) !! (r, c) = Some pip
                 ∧ (((r, c) = cell1 p ∧ pip = low (domino p))
                    ∨ ((r, c) = cell2 p ∧ pip = high (domino p))))
    as (pip & Hpip & Hwhich).
  { destruct Hcase as [-> | ->]; eauto. }
  exists reg, p, pip. split; [assumption|]. split; [assumption|].
  split; [assumption|]. split; [assumption|].
  assert (content pr r c
          = Ok (match (if show_label_loop r c (cells reg)
                       then Some (label_of reg) else None) with
                | Some l => ShowLabel l
                | None => ShowPip pip
                end)) as Hcontent.
  { unfold content. rewrite cell_region_of_lookup, Hlast.
    cbn [fmap option_fmap option_map from_option Datatypes.id].
    rewrite (proj2 (Z.ltb_ge _ _)) by lia. rewrite Hidx. cbn [of_option rbind].
    rewrite region_label_of_lookup, Hlab, Hsol, Hpip. reflexivity. }
  rewrite Hcontent. split.
  - intros Hfirst%show_label_loop_spec. rewrite Hfirst. reflexivity.
  - intros (cr & Hcr & Hlt).
    destruct (show_label_loop r c (cells reg)) eqn:E; [|reflexivity].
    exfalso. apply (proj1 (show_label_loop_spec r c (cells reg)) E cr Hcr Hlt).
Qed.

(** the puzzle of a 1x2 grid with the tile 0-1 and the sum 1 *)
Definition result_W : PuzzleResult :=
  mkPuzzleResult [mkDomino 0 1] [mkRegion 0 [(0,0); (0,1)] SUM 1 (-1)] 1 2 "W"
    [placement_of (mkDomino 0 1) (0, 0) (0, 1)].

Lemma draw_puzzle_grid_content_witness :
  ∃ reg p, reg ∈ result_regions result_W ∧ (0, 1) ∈ cells reg
           ∧ p ∈ result_solution result_W.
Proof.
  destruct (draw_puzzle_grid_content result_W
              (new_state_of initial (mkDomino 0 1) (0, 0) (0, 1) (0, 1)) 0 1)
    as (reg & p & pip & H1 & H2 & H3 & _).
  - split.
    + apply well_formed_test; vm_compute; reflexivity.
    + apply NoDup_singleton.
    + reflexivity.
    + simpl. lia.
    + reflexivity.
    + intros [|i] reg H; [injection H as <-; reflexivity | discriminate H].
  - eapply rtc_l; [|apply rtc_refl].
    apply (extension_intro _ initial (0, 0) (mkDomino 0 1) (0, 1) (0, 1)).
    + vm_compute. discriminate.
    + vm_compute. reflexivity.
    + simpl. lia.
    + apply list_elem_of_here.
    + apply not_elem_of_empty.
    + vm_compute. apply list_elem_of_here.
    + apply not_elem_of_empty.
    + vm_compute. eauto.
    + vm_compute. eauto.
    + apply list_elem_of_here.
    + vm_compute. reflexivity.
  - split; vm_compute; reflexivity.
  - reflexivity.
  - simpl. lia.
  - simpl. lia.
  - exists reg, p. auto.
Defined.

(** the first cell of the region shows the label, the other the pip *)
Example puzzle_grid_shows_pips :
  content result_W 0 0 = Ok (ShowLabel (LabelSum 1))
  ∧ content result_W 0 1 = Ok (ShowPip 1).
Proof. split; vm_compute; reflexivity. Qed.

